(** * WanderWallet: the destination image pipeline

    A shallow embedding of [fetch_unsplash_images] and [get_fallback_images]
    (app.py) and of [select_best_destination_images] (utils/ai_engine.py),
    with the properties of the image-resolution pipeline proved over it.
    The second part embeds the functions around the pipeline: the route
    [fetch_destination_image] (app.py), and [retry_with_backoff] with its
    callers [get_city_tourist_spots] and
    [generate_personalized_budget_insights], and [create_travel_plan]
    (utils/ai_engine.py).

    Conventions of the embedding.
    - Python [int] is [Z]; [len] is [Z.of_nat (length _)].
    - Python [str] is [string], the text in UTF-8. [str.lower] and
      [str.split], which depend on the Unicode tables, are parameters
      ([Text]); the worked examples run on [lower_ascii] and [split_ascii],
      which are these two functions on text of the ASCII range.
    - Python sets of strings are [gset string]; a [dict] whose iteration
      order is observable is an association list in insertion order.
    - The services the code talks to (the image-search API, the generative
      model, faults of the SQLite connection, [urllib.parse], [json.loads],
      the system's sleep) are arguments of the functions, so every theorem
      quantifies over their behaviour.
    - An uncaught Python exception is the [Raise] outcome of [result]. *)

From Stdlib Require Import ZArith QArith String Ascii.
From stdpp Require Import base list gmap strings.

Set Warnings "-clear-no-such-hyp".

Local Open Scope string_scope.
Local Open Scope list_scope.

(** ** Python built-ins used by the code *)

Definition len {A} (l : list A) : Z := Z.of_nat (length l).

(** [l[:n]]: the first [n] elements, or all but the last [-n] when [n < 0]. *)
Definition py_take {A} (n : Z) (l : list A) : list A :=
  if (0 <=? n)%Z then take (Z.to_nat n) l
  else take (length l - Z.to_nat (- n)) l.

(** [list(range(n))] *)
Definition py_range (n : nat) : list Z := Z.of_nat <$> seq 0 n.

(** [str.lower] on one character of the ASCII range. *)
Definition ascii_lower (c : ascii) : ascii :=
  let n := N_of_ascii c in
  if ((65 <=? n) && (n <=? 90))%N then ascii_of_N (n + 32) else c.

Fixpoint lower_ascii (s : string) : string :=
  match s with
  | EmptyString => EmptyString
  | String c s' => String (ascii_lower c) (lower_ascii s')
  end.

(** [k in s] on strings: [k] occurs in [s] as a contiguous substring. *)
Fixpoint str_in (k s : string) : bool :=
  String.prefix k s ||
  match s with
  | EmptyString => false
  | String _ s' => str_in k s'
  end.

(** [s.startswith(p)] *)
Definition str_startswith (p s : string) : bool := String.prefix p s.

(** White space as [str.split()] sees it in the ASCII range. *)
Definition is_space (c : ascii) : bool :=
  let n := N_of_ascii c in
  ((n =? 32) || ((9 <=? n) && (n <=? 13)) || ((28 <=? n) && (n <=? 31)))%N.

Fixpoint str_split_go (s cur : string) : list string :=
  match s with
  | EmptyString => if decide (cur = "") then [] else [cur]
  | String c s' =>
      if is_space c
      then (if decide (cur = "") then str_split_go s' ""
            else cur :: str_split_go s' "")
      else str_split_go s' (cur +:+ String c "")
  end.

(** [s.split()] on text of the ASCII range. *)
Definition split_ascii (s : string) : list string := str_split_go s "".

(** [sep.join(l)] *)
Definition str_join (sep : string) (l : list string) : string :=
  String.concat sep l.

(** ** str.lower and str.split

    Python's [str.lower] and [str.split] work on Unicode text, by tables
    that are no part of the program. They are parameters of the embedding:
    the definitions and the theorems are for every pair of such
    functions. *)
Class Text := {
  str_lower : string → string;          (* s.lower() *)
  str_split : string → list string      (* s.split() *)
}.

(** On text of the ASCII range they are [lower_ascii] and [split_ascii];
    the worked examples use these. *)
Definition ascii_text : Text :=
  {| str_lower := lower_ascii; str_split := split_ascii |}.

(** ** Data model *)

(** The dictionaries the pipeline returns. *)
Record ResolvedImage := mkImage {
  url : string;
  photographer : string;
  photographer_url : string
}.

Global Instance ResolvedImage_eq_dec : EqDecision ResolvedImage.
Proof. solve_decision. Defined.

(** ** get_fallback_images *)

(** The keys of [destination_types], in the order the dict literal lists
    them. *)
Inductive dest_type := Nature | Water | Urban | Heritage | Desert | Scenic.

Global Instance dest_type_eq_dec : EqDecision dest_type.
Proof. solve_decision. Defined.

Definition dest_type_keys : list dest_type :=
  [Nature; Water; Urban; Heritage; Desert; Scenic].

Definition destination_types (t : dest_type) : list string :=
  match t with
  | Nature =>
      ["mountain"; "hill"; "peak"; "summit"; "valley"; "meadow"; "forest";
       "woods"; "jungle"; "trail"; "hike"; "trekking"; "nature"; "wildlife";
       "national park"; "reserve"]
  | Water =>
      ["beach"; "ocean"; "sea"; "bay"; "gulf"; "lake"; "pond"; "river";
       "stream"; "waterfall"; "falls"; "coast"; "shore"; "island";
       "archipelago"; "marina"; "harbor"]
  | Urban =>
      ["city"; "town"; "skyline"; "downtown"; "metropolitan"; "building";
       "architecture"; "skyscraper"; "tower"; "plaza"; "square"; "street";
       "avenue"; "boulevard"; "urban"]
  | Heritage =>
      ["temple"; "church"; "mosque"; "monastery"; "shrine"; "cathedral";
       "palace"; "castle"; "fort"; "fortress"; "monument"; "memorial";
       "ruins"; "heritage"; "historical"; "ancient"; "archaeological";
       "unesco"]
  | Desert =>
      ["desert"; "dune"; "sand"; "arid"; "oasis"; "sahara"; "canyon";
       "badlands"]
  | Scenic =>
      ["landscape"; "scenic"; "panorama"; "view"; "vista"; "lookout";
       "viewpoint"; "picturesque"; "countryside"; "rural"]
  end.

Definition all_fallback_urls (t : dest_type) : list string :=
  match t with
  | Nature =>
      ["https://images.unsplash.com/photo-1506905925346-21bda4d32df4?auto=format&q=80&w=1200";
       "https://images.unsplash.com/photo-1511593358241-7eea1f3c84e5?auto=format&q=80&w=1200";
       "https://images.unsplash.com/photo-1464822759023-fed622ff2c3b?auto=format&q=80&w=1200";
       "https://images.unsplash.com/photo-1501785888041-af3ef285b470?auto=format&q=80&w=1200"]
  | Water =>
      ["https://images.unsplash.com/photo-1507525428034-b723cf961d3e?auto=format&q=80&w=1200";
       "https://images.unsplash.com/photo-1505142468610-359e7d316be0?auto=format&q=80&w=1200";
       "https://images.unsplash.com/photo-1559827260-dc66d52bef19?auto=format&q=80&w=1200";
       "https://images.unsplash.com/photo-1544551763-46a013bb70d5?auto=format&q=80&w=1200"]
  | Urban =>
      ["https://images.unsplash.com/photo-1480714378408-67cf0d13bc1b?auto=format&q=80&w=1200";
       "https://images.unsplash.com/photo-1514565131-fce0801e5785?auto=format&q=80&w=1200";
       "https://images.unsplash.com/photo-1477959858617-67f85cf4f1df?auto=format&q=80&w=1200";
       "https://images.unsplash.com/photo-1449824913935-59a10b8d2000?auto=format&q=80&w=1200"]
  | Heritage =>
      ["https://images.unsplash.com/photo-1548013146-72479768bada?auto=format&q=80&w=1200";
       "https://images.unsplash.com/photo-1524492412937-b28074a5d7da?auto=format&q=80&w=1200";
       "https://images.unsplash.com/photo-1564507592333-c60657eea523?auto=format&q=80&w=1200";
       "https://images.unsplash.com/photo-1512428559087-560fa5ceab42?auto=format&q=80&w=1200"]
  | Desert =>
      ["https://images.unsplash.com/photo-1509316785289-025f5b846b35?auto=format&q=80&w=1200";
       "https://images.unsplash.com/photo-1473580044384-7ba9967e16a0?auto=format&q=80&w=1200";
       "https://images.unsplash.com/photo-1547036967-23d11aacaee0?auto=format&q=80&w=1200";
       "https://images.unsplash.com/photo-1682687220742-aba13b6e50ba?auto=format&q=80&w=1200"]
  | Scenic =>
      ["https://images.unsplash.com/photo-1469854523086-cc02fe5d8800?auto=format&q=80&w=1200";
       "https://images.unsplash.com/photo-1476514525535-07fb3b4ae5f1?auto=format&q=80&w=1200";
       "https://images.unsplash.com/photo-1530789253388-582c481c54b0?auto=format&q=80&w=1200";
       "https://images.unsplash.com/photo-1506905925346-21bda4d32df4?auto=format&q=80&w=1200"]
  end.

(** The score of one pool: one point for each of its keywords that occurs
    in the lower-cased query. *)
Definition score (query_lower : string) (t : dest_type) : Z :=
  len (filter (fun keyword => str_in keyword query_lower = true)
              (destination_types t)).

(** [scores.items()] *)
Definition scores (query_lower : string) : list (dest_type * Z) :=
  (fun t => (t, score query_lower t)) <$> dest_type_keys.

(** [sorted(items, key=lambda x: x[1], reverse=True)]: Python's sort is
    stable, also under [reverse=True], so an item goes behind every item
    already placed whose score is at least its own. *)
Fixpoint insert_desc (x : dest_type * Z) (l : list (dest_type * Z))
  : list (dest_type * Z) :=
  match l with
  | [] => [x]
  | y :: l' => if (y.2 <? x.2)%Z then x :: y :: l' else y :: insert_desc x l'
  end.

Definition sorted_desc (l : list (dest_type * Z)) : list (dest_type * Z) :=
  foldl (fun acc x => insert_desc x acc) [] l.

Definition sorted_types (query_lower : string) : list (dest_type * Z) :=
  sorted_desc (scores query_lower).

(** [sorted_types[0][0] if sorted_types[0][1] > 0 else 'scenic'] *)
Definition matched_type (query_lower : string) : dest_type :=
  match sorted_types query_lower with
  | (t, s) :: _ => if (0 <? s)%Z then t else Scenic
  | [] => Scenic
  end.

(** The dictionary appended for a fallback URL. *)
Definition fallback_image (u : string) : ResolvedImage :=
  mkImage u "Unsplash" "https://unsplash.com".

(** The state of the two emitting loops: [result_images] with [used_urls],
    and whether a [return result_images] inside a loop was taken. *)
Record emit_state := mkEmit {
  result_images : list ResolvedImage;
  used_urls : gset string;
  returned : bool
}.

(** One pass of [for url in urls: ...] with its early [return]. *)
Fixpoint emit_urls (count : Z) (urls : list string) (st : emit_state)
  : emit_state :=
  match urls with
  | [] => st
  | u :: urls' =>
      if returned st then st
      else if decide (u ∈ used_urls st) then emit_urls count urls' st
      else
        let imgs := result_images st ++ [fallback_image u] in
        let st' := mkEmit imgs ({[u]} ∪ used_urls st)
                          (bool_decide (count ≤ len imgs)%Z) in
        emit_urls count urls' st'
  end.

(** [for dest_type, _ in sorted_types: if dest_type != matched_type: ...] *)
Fixpoint emit_others (count : Z) (matched : dest_type)
    (order : list (dest_type * Z)) (st : emit_state) : emit_state :=
  match order with
  | [] => st
  | (t, _) :: order' =>
      if returned st then st
      else if decide (t = matched) then emit_others count matched order' st
      else emit_others count matched order'
             (emit_urls count (all_fallback_urls t) st)
  end.

(** The image of the final [else]. *)
Definition default_fallback : ResolvedImage :=
  fallback_image
    "https://images.unsplash.com/photo-1469854523086-cc02fe5d8800?auto=format&q=80&w=1200".

(** The body of [get_fallback_images] after the scoring, for any ordering
    of the pools. *)
Definition fallback_from (order : list (dest_type * Z)) (matched : dest_type)
    (count : Z) : list ResolvedImage :=
  let st0 := mkEmit [] ∅ false in
  let st1 := emit_urls count (all_fallback_urls matched) st0 in
  if returned st1 then result_images st1
  else
    let st2 := emit_others count matched order st1 in
    if returned st2 then result_images st2
    else match result_images st2 with
         | [] => [default_fallback]
         | imgs => py_take count imgs
         end.

Definition get_fallback_images `{Text} (query : string) (count : Z)
  : list ResolvedImage :=
  let query_lower := str_lower query in
  fallback_from (sorted_types query_lower) (matched_type query_lower) count.


(** ** Outcomes of fallible code *)

Inductive exn :=
| IndexError | TypeError | ValueError | DatabaseError
| KeyError | AttributeError.

Inductive result (A : Type) :=
| Ok (a : A)
| Raise (e : exn).
Arguments Ok {A} a.
Arguments Raise {A} e.

#[global] Instance exn_eq_dec : EqDecision exn.
Proof. solve_decision. Defined.

#[global] Instance result_eq_dec {A} `{EqDecision A} : EqDecision (result A).
Proof. solve_decision. Defined.

Definition bind {A B} (r : result A) (k : A -> result B) : result B :=
  match r with
  | Ok a => k a
  | Raise e => Raise e
  end.

Notation "x <- r ;;; k" := (bind r (fun x => k))
  (at level 100, r at next level, right associativity, only parsing).

(** ** Values decoded by [json.loads] *)

(** A Python [float]: [json.loads] also accepts NaN and the infinities. *)
Inductive pyfloat :=
| FNan
| FInf (negative : bool)
| FFin (q : Q).

#[warnings="-register-all"] Inductive json :=
| JNull
| JBool (b : bool)
| JInt (z : Z)
| JFloat (f : pyfloat)
| JStr (s : string)
| JArr (l : list json)
| JObj (items : list (string * json)).

(** [d[k] = v] on a dict kept in insertion order: a key that is present
    keeps its place and takes the new value. *)
Fixpoint dict_set {V} (k : string) (v : V) (d : list (string * V))
  : list (string * V) :=
  match d with
  | [] => [(k, v)]
  | (k', v') :: d' =>
      if decide (k' = k) then (k, v) :: d' else (k', v') :: dict_set k v d'
  end.

(** [{key: value for key, value in pairs}] *)
Definition dict_of_pairs {V} (pairs : list (string * V))
  : list (string * V) :=
  foldl (fun d kv => dict_set kv.1 kv.2 d) [] pairs.

(** [d.get(k)] *)
Fixpoint dict_get {V} (k : string) (d : list (string * V)) : option V :=
  match d with
  | [] => None
  | (k', v) :: d' => if decide (k' = k) then Some v else dict_get k d'
  end.

(** [k in d] *)
Definition dict_mem {V} (k : string) (d : list (string * V)) : bool :=
  bool_decide (is_Some (dict_get k d)).

(** [bool(f)] *)
Definition float_truthy (f : pyfloat) : bool :=
  match f with
  | FFin q => negb (Qeq_bool q 0)
  | _ => true
  end.

(** [f < n] for a float [f] and an int [n] *)
Definition float_lt_int (f : pyfloat) (n : Z) : bool :=
  match f with
  | FNan => false
  | FInf negative => negative
  | FFin q => negb (Qle_bool (inject_Z n) q)
  end.

(** The truth value of a decoded value, as [if ranked:] tests it. *)
Definition truthy (v : json) : bool :=
  match v with
  | JNull => false
  | JBool b => b
  | JInt z => negb (z =? 0)%Z
  | JFloat f => float_truthy f
  | JStr s => negb (bool_decide (s = ""))
  | JArr l => negb (bool_decide (l = []))
  | JObj items => negb (bool_decide (items = []))
  end.

(** [for x in v] on a decoded value: the elements of a list, the
    characters of a string (here its bytes: where the code iterates over a
    string, every element fails in the same way), the keys of a dict;
    TypeError on anything else. *)
Definition py_iter (v : json) : result (list json) :=
  match v with
  | JArr l => Ok l
  | JStr s => Ok ((fun c => JStr (String c "")) <$> list_ascii_of_string s)
  | JObj items => Ok (JStr <$> (dict_of_pairs items).*1)
  | _ => Raise TypeError
  end.

(** [[f(x) for x in l]] for an [f] that can raise. *)
Fixpoint map_result {A B} (f : A → result B) (l : list A) : result (list B) :=
  match l with
  | [] => Ok []
  | x :: l' => y <- f x ;;; ys <- map_result f l' ;;; Ok (y :: ys)
  end.

(** [d.get(key, '')] on a decoded value: AttributeError unless it is a
    dict. *)
Definition get_or_empty_str (key : string) (d : json) : result json :=
  match d with
  | JObj items => Ok (default (JStr "") (dict_get key (dict_of_pairs items)))
  | _ => Raise AttributeError
  end.

(** ** The image-search API's photos *)

(** What the code reads of an element of ['results'] that is a JSON
    object. The id and the three values behind the subscripts are strings
    where they are there; a subscript raises KeyError when its key is
    missing and TypeError when the value it is applied to is no dict, and
    a value under ['regular'] that is no string makes [urlparse] or
    [urlunparse] raise. The tags and the two descriptions are whatever
    value the object holds for them. *)
Record photo_fields := mkPhoto {
  photo_id : string;                 (* photo.get('id', '') *)
  urls_regular : result string;      (* photo['urls']['regular'] *)
  user_name : result string;         (* photo['user']['name'] *)
  user_links_html : result string;   (* photo['user']['links']['html'] *)
  tags : option json;                (* photo.get('tags') *)
  alt_description : option json;     (* photo.get('alt_description') *)
  description : option json          (* photo.get('description') *)
}.

(** One element of ['results']: a JSON object, or any other value, on
    which every [photo.get] raises AttributeError. *)
Inductive RawCandidate :=
| Photo (fields : photo_fields)
| NotADict.

(** ** select_best_destination_images (utils/ai_engine.py) *)

(** What one [client.models.generate_content] call followed by
    [json.loads(response.text)] comes to. *)
Inductive gen_outcome :=
| GenRaises                 (* the call raised *)
| GenNoText                 (* response.text is None or empty *)
| GenBadJson                (* json.loads raised *)
| GenJson (v : json).

(** What the prompt is built from. The ['info'] of an image is given by
    its parts, each the f-string [f"{label}: {value}"]; they are joined
    with [' | '], and no part makes ['No description']. *)
Record ranking_prompt := mkPrompt {
  prompt_destination : string;
  prompt_images : Z;                          (* len(image_candidates) *)
  image_descriptions : list (Z * list (string * json))   (* index, info *)
}.

(** The module globals [AI_AVAILABLE] and [client]; a client answers a call
    for a model name and a prompt. *)
Record ai_env := mkAi {
  AI_AVAILABLE : bool;
  client : option (string -> ranking_prompt -> gen_outcome)
}.

(** [[(label, v)]] when [v = img.get(key)] is truthy. *)
Definition opt_part (label : string) (v : option json)
  : list (string * json) :=
  match v with
  | Some x => if truthy x then [(label, x)] else []
  | None => []
  end.

(** [img['tags'][:5]]: the slice of a list or a string; TypeError on a
    number, and on a dict (KeyError from Python 3.12 on). *)
Definition first_five (v : json) : result json :=
  match v with
  | JArr l => Ok (JArr (take 5 l))
  | JStr s => Ok (JStr (string_of_list_ascii (take 5 (list_ascii_of_string s))))
  | _ => Raise TypeError
  end.

(** [', '.join(titles)]: TypeError unless every title is a string. *)
Definition join_titles (titles : list json) : result string :=
  strs <- map_result (fun title => match title with
                                   | JStr s => Ok s
                                   | _ => Raise TypeError
                                   end) titles ;;;
  Ok (str_join ", " strs).

(** The part for the tags, when [img.get('tags')] is truthy. *)
Definition tags_part (v : option json) : result (list (string * json)) :=
  match v with
  | Some x =>
      if truthy x then
        slice <- first_five x ;;;
        tag_values <- py_iter slice ;;;
        titles <- map_result (get_or_empty_str "title") tag_values ;;;
        joined <- join_titles titles ;;;
        Ok [("Tags", JStr joined)]
      else Ok []
  | None => Ok []
  end.

(** [desc_parts] of one image: the ['info'] of its entry in
    [image_descriptions]. It is built outside the [try]. *)
Definition describe (img : RawCandidate) : result (list (string * json)) :=
  match img with
  | NotADict => Raise AttributeError
  | Photo fields =>
      tags_part <- tags_part (tags fields) ;;;
      Ok (opt_part "Description" (description fields) ++
          opt_part "Alt" (alt_description fields) ++ tags_part)
  end.

(** [list(range(len(image_candidates)))] *)
Definition identity_order {A} (image_candidates : list A) : json :=
  JArr (JInt <$> py_range (length image_candidates)).

Definition models_to_try : list string :=
  ["gemini-2.5-flash"; "gemini-2.0-flash-exp"].

(** Whether [len(v)] is defined: on a string, a list and a dict. *)
Definition has_len (v : json) : bool :=
  match v with
  | JStr _ | JArr _ | JObj _ => true
  | _ => false
  end.

(** [for model_name in models_to_try: try: ... except: continue]; [None]
    when the loop runs out of models. The second component lists the models
    that were called. A truthy [ranked] is returned after the log call,
    whose f-string evaluates [len(ranked)] inside the [try]: on a number or
    a [bool] that raises TypeError and the loop goes on to the next model. *)
Fixpoint try_models (cl : string -> ranking_prompt -> gen_outcome)
    (prompt : ranking_prompt) (models : list string)
  : option json * list string :=
  match models with
  | [] => (None, [])
  | model_name :: models' =>
      let next := try_models cl prompt models' in
      match cl model_name prompt with
      | GenJson (JObj items) =>
          let ranked :=
            default (JArr []) (dict_get "ranked_indices" (dict_of_pairs items)) in
          if truthy ranked && has_len ranked then (Some ranked, [model_name])
          else (next.1, model_name :: next.2)
      | _ => (next.1, model_name :: next.2)
      end
  end.

(** The prompt for the descriptions of the candidates. *)
Definition ranking_prompt_for (destination : string)
    (image_candidates : list RawCandidate)
    (infos : list (list (string * json))) : ranking_prompt :=
  mkPrompt destination (len image_candidates)
           (imap (fun idx info => (Z.of_nat idx, info)) infos).

(** The value returned, or the exception raised while the descriptions are
    built, with the models that were called on the way. *)
Definition select_best_destination_images (ai : ai_env)
    (destination : string) (image_candidates : list RawCandidate)
  : result json * list string :=
  match client ai with
  | Some cl =>
      if negb (AI_AVAILABLE ai) || bool_decide (image_candidates = [])
      then (Ok (identity_order image_candidates), [])
      else
        match map_result describe image_candidates with
        | Raise ex => (Raise ex, [])
        | Ok infos =>
            let prompt :=
              ranking_prompt_for destination image_candidates infos in
            let r := try_models cl prompt models_to_try in
            (Ok (default (identity_order image_candidates) r.1), r.2)
        end
  | None => (Ok (identity_order image_candidates), [])
  end.

(** ** urllib.parse *)

(** The six components of [urlparse(url)]. *)
Record ParseResult := mkUrl {
  scheme : string;
  netloc : string;
  path : string;
  params : string;
  query : string;
  fragment : string
}.

(** The four functions [fetch_unsplash_images] imports from [urllib.parse].
    [urlparse] raises [ValueError] on some inputs (an unbalanced IPv6
    bracket, for one): that is [None]. [parse_qsl] is the call with
    [keep_blank_values=True]. *)
Class Urllib := {
  urlparse : string -> option ParseResult;
  parse_qsl : string -> list (string * string);
  urlencode : list (string * string) -> string;
  urlunparse : ParseResult -> string
}.

(** ** The image cache table *)

(** A row of [image_cache]; the columns [id] and [cached_at], which the
    pipeline never reads, are left out. *)
Record cache_row := mkRow {
  row_query : string;
  image_index : Z;
  image_url : string;
  row_photographer : string;
  row_photographer_url : string
}.

Abbreviation table := (list cache_row).

(** A connection as [get_db()] opens it: the committed table and the
    working copy of the open transaction, when there is one. Statements of
    the write transaction can raise (see [db_fault] below); the [SELECT],
    [db.rollback()] and [db.close()] are taken not to. *)
Record db_conn := mkConn {
  committed : table;
  txn : option table
}.

Inductive sql_write :=
| SqlBegin                                    (* BEGIN TRANSACTION *)
| SqlDelete (q : string)                      (* DELETE ... WHERE query = ? *)
| SqlInsert (row : cache_row)                 (* INSERT INTO image_cache ... *)
| SqlCommit.                                  (* db.commit() *)

(** [ORDER BY image_index]: [r] goes before the first row with a larger
    index. *)
Fixpoint insert_sorted (r : cache_row) (l : table) : table :=
  match l with
  | [] => [r]
  | r' :: l' =>
      if (image_index r <? image_index r')%Z then r :: r' :: l'
      else r' :: insert_sorted r l'
  end.

(** [SELECT * FROM image_cache WHERE query = ? ORDER BY image_index LIMIT ?];
    a negative [LIMIT] is no limit in SQLite. *)
Definition select_cached (t : table) (q : string) (count : Z) : table :=
  let rows :=
    foldl (fun acc r => insert_sorted r acc) []
          (filter (fun r => row_query r = q) t) in
  if (count <? 0)%Z then rows else take (Z.to_nat count) rows.

(** The table the statements of the connection see. *)
Definition working (c : db_conn) : table := default (committed c) (txn c).

(** What a statement does when the engine accepts it. *)
Definition apply_write (w : sql_write) (c : db_conn) : result db_conn :=
  match w with
  | SqlBegin =>
      match txn c with
      | Some _ => Raise DatabaseError
      | None => Ok (mkConn (committed c) (Some (committed c)))
      end
  | SqlDelete q =>
      Ok (mkConn (committed c)
                 (Some (filter (fun r => row_query r ≠ q) (working c))))
  | SqlInsert row =>
      if bool_decide (Exists (fun r => row_query r = row_query row ∧
                                       image_index r = image_index row)
                             (working c))
      then Raise DatabaseError                 (* UNIQUE(query, image_index) *)
      else Ok (mkConn (committed c) (Some (working c ++ [row])))
  | SqlCommit => Ok (mkConn (working c) None)
  end.

(** [db.rollback()] *)
Definition rollback (c : db_conn) : db_conn := mkConn (committed c) None.

(** ** What a call can be observed to do *)

Inductive event :=
| EvSelect (q : string) (count : Z)
| EvHttpGet (current_query : string)
| EvGenerate (model_name : string)
| EvWrite (w : sql_write)
| EvRollback
| EvClose.

(** ** The image-search API *)

(** [requests.get(...)] raises, or gives a response with a status code and
    a body. The body is [Some results] when [response.json()] is a dict and
    [results] are the values the loop over [data.get('results', [])] takes,
    in order (none when the key is missing). It is [None] when nothing is
    read from it: [json()] raises, the value decoded is no dict, or the
    value under ['results'] has no [len] or cannot be iterated. *)
Inductive http_outcome :=
| HttpRaises
| HttpResponse (status_code : Z) (results : option (list RawCandidate)).

(** Everything [fetch_unsplash_images] reads from outside its arguments:
    the module global, the search API (by attempt and query), the
    generative model and the faults of the cache connection (by position
    of the write statement in the transaction). *)
Record env := mkEnv {
  UNSPLASH_ACCESS_KEY : string;
  requests_get : nat -> string -> http_outcome;
  ai : ai_env;
  db_fault : nat -> bool
}.

(** ** fetch_unsplash_images: the search *)

Definition people_keywords : list string := ["selfie"; "portrait"].

(** [' '.join([word for word in query.lower().split()
               if word not in people_keywords and not word.startswith('-')])] *)
Definition sanitize `{Text} (query : string) : string :=
  str_join " "
    (filter (fun word => (word ∉ people_keywords) ∧ str_startswith "-" word = false)
            (str_split (str_lower query))).

(** [sanitized_query.split()[0] if sanitized_query else query]. A
    non-empty [sanitized_query] is made of words of a split joined by
    single spaces, and Python's [split] gives such words back
    ([split_joins]), so the subscript is in range (lemma
    [sanitize_words_nonempty]) and the last branch is never taken. *)
Definition destination_name_of `{Text} (query sanitized_query : string)
  : string :=
  match str_split sanitized_query with
  | word :: _ => if decide (sanitized_query = "") then query else word
  | [] => query
  end.

(** The list [query_variations]. *)
Definition query_variations_of `{Text} (query : string) : list string :=
  let sanitized_query := sanitize query in
  let destination_name := destination_name_of query sanitized_query in
  let words := str_split sanitized_query in
  let has_india := bool_decide ("india" ∈ words ∨ "indian" ∈ words) in
  let several := bool_decide (1 < len words)%Z in
  [ sanitized_query;
    if several then destination_name +:+ " landmark" else sanitized_query;
    if several then destination_name +:+ " cityscape"
    else sanitized_query +:+ " city";
    if has_india then "india rajasthan heritage"
    else destination_name +:+ " architecture";
    if has_india then "india tourist attraction beautiful"
    else sanitized_query +:+ " travel destination" ].

(** [tag.get('title', '').lower()]: AttributeError when the tag is no
    dict or the title no string. *)
Definition tag_title_lower `{Text} (tag : json) : result string :=
  title <- get_or_empty_str "title" tag ;;;
  match title with
  | JStr s => Ok (str_lower s)
  | _ => Raise AttributeError
  end.

(** [(v or '').lower()] for [v = photo.get(key)] *)
Definition text_lower `{Text} (v : option json) : result string :=
  match (match v with
         | Some x => if truthy x then x else JStr ""
         | None => JStr ""
         end) with
  | JStr s => Ok (str_lower s)
  | _ => Raise AttributeError
  end.

(** The [has_people_focus] flag of one photo, or what the statements that
    compute it raise. *)
Definition has_people_focus `{Text} (photo : RawCandidate) : result bool :=
  match photo with
  | NotADict => Raise AttributeError
  | Photo fields =>
      tag_values <- py_iter (default (JArr []) (tags fields)) ;;;
      tag_titles <- map_result tag_title_lower tag_values ;;;
      alt <- text_lower (alt_description fields) ;;;
      desc <- text_lower (description fields) ;;;
      let text_to_check :=
        str_join " " tag_titles +:+ " " +:+ alt +:+ " " +:+ desc in
      Ok (bool_decide (Exists (fun keyword => str_in keyword text_to_check = true)
                              people_keywords))
  end.

(** The state of the search loop; [stopped] is its [break]. *)
Record search_state := mkSearch {
  raw_photo_data : list RawCandidate;
  filtered_photo_data : list RawCandidate;
  stopped : bool;
  http_calls : list string
}.

(** [for photo in data.get('results', []): ...]: the state after the loop,
    and whether its body raised. A photo is appended to [raw_photo_data]
    before its flag is computed, so the photo at which the body raises
    stays there; the rest of the page is not read. *)
Fixpoint collect `{Text} (results : list RawCandidate) (st : search_state)
  : search_state * bool :=
  match results with
  | [] => (st, false)
  | photo :: results' =>
      let raw := raw_photo_data st ++ [photo] in
      match has_people_focus photo with
      | Ok focus =>
          collect results'
                  (mkSearch raw
                            (if focus then filtered_photo_data st
                             else filtered_photo_data st ++ [photo])
                            (stopped st) (http_calls st))
      | Raise _ =>
          (mkSearch raw (filtered_photo_data st) (stopped st) (http_calls st),
           true)
      end
  end.

(** One turn of [for attempt in range(max_attempts)], the [try] with its
    [except Exception] included: an exception in the loop over the photos
    skips the stop test, and the next attempt goes on with the lists as
    they are. *)
Definition search_attempt `{Text} (get : nat -> string -> http_outcome) (count : Z)
    (query_variations : list string) (st : search_state) (attempt : nat)
  : search_state :=
  if stopped st then st
  else
    let current_query :=
      default (default "" (head query_variations))
              (query_variations !! attempt) in
    let st := mkSearch (raw_photo_data st) (filtered_photo_data st) false
                       (http_calls st ++ [current_query]) in
    match get attempt current_query with
    | HttpResponse status_code body =>
        if decide (status_code = 200%Z) then
          match body with
          | Some results =>
              let '(st, raised) := collect results st in
              if raised then st
              else
                mkSearch (raw_photo_data st) (filtered_photo_data st)
                         (bool_decide
                            (count * 2 ≤ len (filtered_photo_data st))%Z)
                         (http_calls st)
          | None => st
          end
        else st
    | HttpRaises => st
    end.

(** The whole loop, from empty lists. *)
Definition search `{Text} (get : nat -> string -> http_outcome) (count : Z)
    (query_variations : list string) : search_state :=
  let max_attempts := length query_variations in
  foldl (search_attempt get count query_variations)
        (mkSearch [] [] false []) (seq 0 max_attempts).

(** ** fetch_unsplash_images: ranking walk, cache write, padding *)

(** [l[i]] with Python's negative subscripts. *)
Definition py_index {A} (l : list A) (i : Z) : result A :=
  let j := if (i <? 0)%Z then (i + len l)%Z else i in
  if (j <? 0)%Z then Raise IndexError
  else match l !! Z.to_nat j with
       | Some x => Ok x
       | None => Raise IndexError
       end.

(** The three defaults, in the order of the [if] statements. *)
Definition default_params : list (string * string) :=
  [("auto", "format"); ("q", "80"); ("w", "1200")].

(** [if key not in param_dict: param_dict[key] = value] *)
Definition inject (param_dict : list (string * string))
    (kv : string * string) : list (string * string) :=
  if dict_mem kv.1 param_dict then param_dict
  else dict_set kv.1 kv.2 param_dict.

(** [param_dict] after the three [if key not in param_dict] statements, as
    the list [new_params] of its items. *)
Definition new_params (existing_params : list (string * string))
  : list (string * string) :=
  foldl inject (dict_of_pairs existing_params) default_params.

(** [optimized_url] for [base_url]. *)
Definition optimize_url `{Urllib} (base_url : string) : result string :=
  match urlparse base_url with
  | None => Raise ValueError
  | Some parsed =>
      let existing_params := parse_qsl (query parsed) in
      let new_query := urlencode (new_params existing_params) in
      Ok (urlunparse (mkUrl (scheme parsed) (netloc parsed) (path parsed)
                            (params parsed) new_query (fragment parsed)))
  end.

(** The state of the walk over [ranked_indices]. *)
Record acc_state := mkAcc {
  accumulated_images : list ResolvedImage;
  used_photo_ids : gset string;
  used_image_urls : gset string         (* [used_urls] of the function *)
}.

(** The loop body for an [int] subscript [idx]. *)
Definition take_photo `{Urllib} (raw : list RawCandidate) (idx : Z)
    (st : acc_state) : result acc_state :=
  if (idx <? len raw)%Z then
    photo <- py_index raw idx ;;;
    match photo with
    | NotADict => Raise AttributeError
    | Photo photo =>
        if decide (photo_id photo ∈ used_photo_ids st) then Ok st
        else
          base_url <- urls_regular photo ;;;
          optimized_url <- optimize_url base_url ;;;
          if decide (optimized_url ∈ used_image_urls st) then Ok st
          else
            photographer <- user_name photo ;;;
            photographer_url <- user_links_html photo ;;;
            let image_data :=
              mkImage optimized_url photographer photographer_url in
            Ok (mkAcc (accumulated_images st ++ [image_data])
                      ({[photo_id photo]} ∪ used_photo_ids st)
                      ({[optimized_url]} ∪ used_image_urls st))
    end
  else Ok st.

(** The loop body for any element: a [bool] is an [int]; a [float] passes
    the comparison and fails as a subscript; anything else fails at
    [idx < len(raw_photo_data)]. *)
Definition accumulate_step `{Urllib} (raw : list RawCandidate) (idx : json)
    (st : acc_state) : result acc_state :=
  match idx with
  | JInt z => take_photo raw z st
  | JBool b => take_photo raw (if b then 1 else 0)%Z st
  | JFloat f => if float_lt_int f (len raw) then Raise TypeError else Ok st
  | _ => Raise TypeError
  end.

(** [for idx in ranked_indices: ...] with its [break]. *)
Fixpoint accumulate `{Urllib} (count : Z) (raw : list RawCandidate)
    (ranked_indices : list json) (st : acc_state) : result acc_state :=
  match ranked_indices with
  | [] => Ok st
  | idx :: rest =>
      if bool_decide (count ≤ len (accumulated_images st))%Z then Ok st
      else
        st' <- accumulate_step raw idx st ;;;
        accumulate count raw rest st'
  end.

(** The row written for [image_data] under [(query, idx)]. *)
Definition cache_rows (query : string) (images : list ResolvedImage)
  : list cache_row :=
  imap (fun idx image_data =>
          mkRow query (Z.of_nat idx) (url image_data)
                (photographer image_data) (photographer_url image_data))
       images.

(** The statements of the cache replacement, in order. *)
Definition cache_writes (query : string) (images : list ResolvedImage)
  : list sql_write :=
  SqlBegin :: SqlDelete query ::
  (SqlInsert <$> cache_rows query images) ++ [SqlCommit].

(** Run the statements from position [k] on; stops at the first one that
    raises, with the connection as it then is. *)
Fixpoint run_writes (fault : nat -> bool) (k : nat) (ws : list sql_write)
    (c : db_conn) : db_conn * option exn * list event :=
  match ws with
  | [] => (c, None, [])
  | w :: ws' =>
      if fault k then (c, Some DatabaseError, [EvWrite w])
      else match apply_write w c with
           | Ok c' =>
               let '(c'', ex, tr) := run_writes fault (S k) ws' c' in
               (c'', ex, EvWrite w :: tr)
           | Raise ex => (c, Some ex, [EvWrite w])
           end
  end.

(** [try: BEGIN ... commit  except Exception: db.rollback()] *)
Definition update_cache (fault : nat -> bool) (query : string)
    (images : list ResolvedImage) (c : db_conn) : db_conn * list event :=
  match run_writes fault 0 (cache_writes query images) c with
  | (c', None, tr) => (c', tr)
  | (c', Some _, tr) => (rollback c', tr ++ [EvRollback])
  end.

(** [for fallback in fallbacks: ...] with its [break]. *)
Fixpoint pad_with (count : Z) (fallbacks acc : list ResolvedImage)
  : list ResolvedImage :=
  match fallbacks with
  | [] => acc
  | fallback :: rest =>
      if decide (url fallback ∈ url <$> acc) then pad_with count rest acc
      else
        let acc' := acc ++ [fallback] in
        if bool_decide (count ≤ len acc')%Z then acc'
        else pad_with count rest acc'
  end.

(** ** fetch_unsplash_images *)

(** What a call comes to. *)
Record run := mkRun {
  outcome : result (list ResolvedImage);   (* the list returned, or the exception *)
  cache_after : table;                     (* the committed table afterwards *)
  trace : list event
}.

(** The dictionary built from a cached row. *)
Definition to_image (img : cache_row) : ResolvedImage :=
  mkImage (image_url img) (row_photographer img) (row_photographer_url img).

Definition fetch_unsplash_images `{Text} `{Urllib} (e : env) (cache : table)
    (query : string) (count : Z) : run :=
  let cached := select_cached cache query count in
  let tr := [EvSelect query count] in
  if bool_decide (count ≤ len cached)%Z then
    mkRun (Ok (to_image <$> py_take count cached)) cache (tr ++ [EvClose])
  else if decide (UNSPLASH_ACCESS_KEY e = "") then
    mkRun (Ok (get_fallback_images query count)) cache (tr ++ [EvClose])
  else
    let destination_name := destination_name_of query (sanitize query) in
    let found := search (requests_get e) count (query_variations_of query) in
    let tr := tr ++ (EvHttpGet <$> http_calls found) in
    let raw_photo_data :=
      match filtered_photo_data found with
      | [] => raw_photo_data found
      | filtered => filtered
      end in
    match raw_photo_data with
    | [] => mkRun (Ok (get_fallback_images query count)) cache (tr ++ [EvClose])
    | _ =>
        let ranked :=
          select_best_destination_images (ai e) destination_name
                                         raw_photo_data in
        let tr := tr ++ (EvGenerate <$> ranked.2) in
        match (ranked_value <- ranked.1 ;;;
               ranked_indices <- py_iter ranked_value ;;;
               accumulate count raw_photo_data ranked_indices (mkAcc [] ∅ ∅))
        with
        | Raise ex => mkRun (Raise ex) cache tr
        | Ok st =>
            let accumulated := accumulated_images st in
            let written :=
              match accumulated with
              | [] => (mkConn cache None, [])
              | _ => update_cache (db_fault e) query accumulated
                                  (mkConn cache None)
              end in
            let padded :=
              if bool_decide (len accumulated < count)%Z then
                let fallback_needed := (count - len accumulated)%Z in
                pad_with count (get_fallback_images query fallback_needed)
                         accumulated
              else accumulated in
            mkRun (Ok (py_take count padded)) (committed written.1)
                  (tr ++ written.2 ++ [EvClose])
        end
    end.

(** ** A small urllib for the examples

    The theorems below hold for every [Urllib]. The worked examples need
    one that computes: this one splits a URL at the first [#], the first
    [?] and [://], and reads and writes [k=v] pairs separated by [&]; it
    agrees with [urllib.parse] on URLs that hold no percent-escape, no [+]
    and no [;]. *)

(** [s.partition(c)]: the text before the first [c], and the text after it
    when [c] occurs. *)
Fixpoint str_partition (c : ascii) (s : string) : string * option string :=
  match s with
  | EmptyString => ("", None)
  | String c' s' =>
      if decide (c' = c) then ("", Some s')
      else let r := str_partition c s' in (String c' r.1, r.2)
  end.

(** [s.split(c)] *)
Fixpoint str_split_on (c : ascii) (s : string) (cur : string) : list string :=
  match s with
  | EmptyString => [cur]
  | String c' s' =>
      if decide (c' = c) then cur :: str_split_on c s' ""
      else str_split_on c s' (cur +:+ String c' "")
  end.

Definition simple_urlparse (u : string) : option ParseResult :=
  let (before_fragment, frag) := str_partition "#" u in
  let (before_query, qs) := str_partition "?" before_fragment in
  let (sch, rest) := str_partition ":" before_query in
  match rest with
  | Some (String "/" (String "/" after)) =>
      let (host, p) := str_partition "/" after in
      Some (mkUrl (lower_ascii sch) host
                  (match p with Some p => "/" +:+ p | None => "" end)
                  "" (default "" qs) (default "" frag))
  | _ => Some (mkUrl "" "" before_query "" (default "" qs) (default "" frag))
  end.

Definition simple_parse_qsl (qs : string) : list (string * string) :=
  (fun name_value =>
     let (name, value) := str_partition "=" name_value in
     (name, default "" value))
  <$> filter (fun name_value => name_value ≠ "") (str_split_on "&" qs "").

Definition simple_urlencode (l : list (string * string)) : string :=
  str_join "&" ((fun kv => kv.1 +:+ "=" +:+ kv.2) <$> l).

Definition simple_urlunparse (p : ParseResult) : string :=
  (if decide (netloc p = "") then
     (if decide (scheme p = "") then "" else scheme p +:+ ":")
   else scheme p +:+ "://" +:+ netloc p)
  +:+ path p
  +:+ (if decide (params p = "") then "" else ";" +:+ params p)
  +:+ (if decide (query p = "") then "" else "?" +:+ query p)
  +:+ (if decide (fragment p = "") then "" else "#" +:+ fragment p).

Definition simple_urllib : Urllib :=
  {| urlparse := simple_urlparse;
     parse_qsl := simple_parse_qsl;
     urlencode := simple_urlencode;
     urlunparse := simple_urlunparse |}.


(** ** The selection rule in the words of the specification *)

(** The place of a pool in the fixed declaration order. *)
Definition declared_at (t : dest_type) : nat :=
  match t with
  | Nature => 0 | Water => 1 | Urban => 2
  | Heritage => 3 | Desert => 4 | Scenic => 5
  end.

(** "Pick the highest-scoring pool; ties broken by a fixed declaration
    order among pools (nature first). If every pool scores 0, default
    pool = scenic." *)
Definition selects (sc : dest_type → Z) (m : dest_type) : Prop :=
  ((∀ t, sc t = 0%Z) → m = Scenic) ∧
  ((∃ t, (0 < sc t)%Z) →
   (∀ t, (sc t ≤ sc m)%Z) ∧
   (∀ t, declared_at t < declared_at m → (sc t < sc m)%Z)).


(** [existing_params] seen as Python sees it after the dict comprehension:
    the value a key ends up with is the one of its last pair. *)
Definition last_value (key : string) (pairs : list (string * string))
  : option string :=
  snd <$> last (filter (fun kv => kv.1 = key) pairs).

(** [e] with the faults of the cache connection replaced. *)
Definition with_faults (e : env) (fault : nat → bool) : env :=
  mkEnv (UNSPLASH_ACCESS_KEY e) (requests_get e) (ai e) fault.

(** The write statements a trace holds, in order. *)
Definition writes (tr : list event) : list sql_write :=
  omap (fun ev => match ev with EvWrite w => Some w | _ => None end) tr.

(** A search attempt that fails: a transport error or a status other
    than 200. *)
Definition http_failed (o : http_outcome) : Prop :=
  match o with
  | HttpRaises => True
  | HttpResponse status_code _ => status_code ≠ 200%Z
  end.

(** No two cached rows of one query hold the same URL. *)
Definition cache_ok (t : table) : Prop :=
  ∀ q, NoDup (image_url <$> filter (fun r => row_query r = q) t).

(** The tables the application can be in: the empty table of a fresh
    database, changed by calls of [fetch_unsplash_images] only (no other
    code writes [image_cache]). *)
Inductive reachable `{Text} `{Urllib} : table → Prop :=
| reachable_empty : reachable []
| reachable_fetch e cache query count :
    reachable cache →
    reachable (cache_after (fetch_unsplash_images e cache query count)).

(** ** Data for the worked examples *)

(** A photo as the search returns it. *)
Definition photo_jaipur : RawCandidate :=
  Photo
    (mkPhoto "hawa-mahal"
       (Ok "https://images.unsplash.com/photo-1599661046289-e31897846e41?ixid=abc&w=1080")
       (Ok "Ann") (Ok "https://unsplash.com/@ann")
       (Some (JArr [JObj [("title", JStr "palace")];
                    JObj [("title", JStr "jaipur")]]))
       (Some (JStr "pink palace facade")) (Some JNull)).

(** A photo whose URL is the first one of the scenic fallback pool. *)
Definition photo_road : RawCandidate :=
  Photo
    (mkPhoto "road"
       (Ok "https://images.unsplash.com/photo-1469854523086-cc02fe5d8800?auto=format&q=80&w=1200")
       (Ok "Bob") (Ok "https://unsplash.com/@bob")
       (Some (JArr [JObj [("title", JStr "road")];
                    JObj [("title", JStr "travel")]]))
       (Some JNull) (Some JNull)).

(** A photo whose tags are plain strings instead of objects. *)
Definition photo_plain_tags : RawCandidate :=
  Photo
    (mkPhoto "fort"
       (Ok "https://images.unsplash.com/photo-1477587458883-47145ed94245?w=1080")
       (Ok "Cy") (Ok "https://unsplash.com/@cy")
       (Some (JArr [JStr "fort"])) (Some JNull) (Some JNull)).

(** No [GEMINI_API_KEY]. *)
Definition no_ai : ai_env := mkAi false None.

(** The search answers the first attempt with [photos] and every later
    attempt with an empty result page. *)
Definition env_first_page (photos : list RawCandidate) (a : ai_env) : env :=
  mkEnv "access-key"
        (fun attempt _ =>
           match attempt with
           | 0 => HttpResponse 200 (Some photos)
           | _ => HttpResponse 200 (Some [])
           end)
        a (fun _ => false).

(** A generative model that answers [{"ranked_indices": v}]. *)
Definition ai_answering (v : json) : ai_env :=
  mkAi true (Some (fun _ _ => GenJson (JObj [("ranked_indices", v)]))).

(** ** Reading a trace *)

(** The queries of the search requests a trace holds, in order. *)
Definition requests (tr : list event) : list string :=
  omap (fun ev => match ev with EvHttpGet q => Some q | _ => None end) tr.

(** The models called in a trace, in order. *)
Definition model_calls (tr : list event) : list string :=
  omap (fun ev => match ev with EvGenerate m => Some m | _ => None end) tr.

(** ** Notions used in the proofs *)

(** What the two emitting loops keep true of their state. *)
Record emit_inv (count : Z) (st : emit_state) : Prop := {
  emit_nodup : NoDup (url <$> result_images st);
  emit_used : ∀ u, u ∈ url <$> result_images st → u ∈ used_urls st;
  emit_short :
    returned st = false →
    result_images st = [] ∨ (len (result_images st) < count)%Z
}.

(** Every URL of the six pools, once. *)
Definition pool_urls : list string :=
  remove_dups (mjoin (all_fallback_urls <$> dest_type_keys)).

(** What the emitting loops keep true besides [emit_inv], for a count of 1
    or more. *)
Record emit_exact (count : Z) (st : emit_state) : Prop := {
  emit_known : ∀ u, u ∈ used_urls st → u ∈ url <$> result_images st;
  emit_pooled : ∀ u, u ∈ url <$> result_images st → u ∈ pool_urls;
  emit_full : returned st = true → len (result_images st) = count
}.

(** The head of the sorted list is found by one pass that keeps the
    earlier item on ties. *)
Definition pick (b x : dest_type * Z) : dest_type * Z :=
  if (b.2 <? x.2)%Z then x else b.

(** An answer that the loop over the models passes over: the call or the
    decoding raises, there is no text, the value decoded is no object, or
    its [ranked_indices] is falsy or has no length. *)
Definition passed_over (o : gen_outcome) : Prop :=
  match o with
  | GenJson (JObj items) =>
      let ranked :=
        default (JArr []) (dict_get "ranked_indices" (dict_of_pairs items)) in
      truthy ranked && has_len ranked = false
  | _ => True
  end.

(** What the walk over the ranking keeps true of its state. *)
Record acc_inv (st : acc_state) : Prop := {
  acc_nodup : NoDup (url <$> accumulated_images st);
  acc_used : ∀ u, u ∈ url <$> accumulated_images st → u ∈ used_image_urls st
}.

(** A word as [str.split] produces it starts with a character that is not
    white space. *)
Definition starts_word (w : string) : Prop :=
  ∃ c w', w = String c w' ∧ is_space c = false.

(** The columns under [UNIQUE(query, image_index)]. *)
Definition row_key (r : cache_row) : string * Z := (row_query r, image_index r).

(** What the search loop keeps true after [k] turns. *)
Record search_inv `{Text} (count : Z) (qv : list string) (k : nat)
    (st : search_state) : Prop := {
  search_calls : http_calls st `prefix_of` qv;
  search_running : stopped st = false → http_calls st = take k qv;
  search_filtered :
    filtered_photo_data st
    = filter (fun photo => has_people_focus photo = Ok false)
             (raw_photo_data st);
  search_enough :
    stopped st = true → (count * 2 ≤ len (filtered_photo_data st))%Z
}.

(** The written part of a call: nothing for an empty accumulator. *)
Definition written_for (fault : nat → bool) (cache : table) (query : string)
    (acc : list ResolvedImage) : db_conn * list event :=
  match acc with
  | [] => (mkConn cache None, [])
  | _ => update_cache fault query acc (mkConn cache None)
  end.

(** The padded list for the images found. *)
Definition padded_for `{Text} (query : string) (count : Z) (acc : list ResolvedImage)
  : list ResolvedImage :=
  if bool_decide (len acc < count)%Z then
    pad_with count (get_fallback_images query (count - len acc)) acc
  else acc.

(** ** More notions used in the proofs *)

(** What [str.split] and [' '.join] do to each other: the words of a
    split, or some of them in their order, joined by single spaces, split
    into the same words again. *)
Definition split_joins `{Text} : Prop :=
  ∀ s ws, ws `sublist_of` str_split s → str_split (str_join " " ws) = ws.

(** A word without white space in it. *)
Definition spaceless (w : string) : Prop :=
  Forall (fun c => is_space c = false) (list_ascii_of_string w).

(** The primary-key shape of the cache: no two rows share
    [(query, image_index)], and the rows of a query carry the ranks
    [0, 1, ...] without a gap. *)
Definition cache_keyed (t : table) : Prop :=
  NoDup (row_key <$> t) ∧
  ∀ q, ∃ images, select_cached t q (-1) = cache_rows q images.

(** * The retried model calls (utils/ai_engine.py) *)

(** ** retry_with_backoff *)

(** What a call of [retry_with_backoff] can raise. *)
Inductive retry_exn :=
| FuncError (error_msg : string)   (* the exception of [func], re-raised *)
| SleepValueError                  (* [time.sleep] of a negative delay *)
| SleepOverflowError               (* [time.sleep] of a delay beyond [sleep_max] *)
| SleepOSError                     (* [time.sleep] of a delay the system refuses *)
| AttemptsFailed (max_retries : Z).
                                   (* Exception("All {max_retries} retry attempts failed") *)

(** A call of [retry_with_backoff]: what it returned or raised, how often
    it called [func], and the delays it slept, in order. *)
Record retry_run (A : Type) := mkRetry {
  retry_outcome : A + retry_exn;
  func_calls : nat;
  slept : list Z
}.
Arguments mkRetry {A} retry_outcome func_calls slept.
Arguments retry_outcome {A} r.
Arguments func_calls {A} r.
Arguments slept {A} r.

(** ["503" in error_msg or "UNAVAILABLE" in error_msg] *)
Definition overloaded (error_msg : string) : bool :=
  str_in "503" error_msg || str_in "UNAVAILABLE" error_msg.

(** ["429" in error_msg or "RESOURCE_EXHAUSTED" in error_msg] *)
Definition rate_limited (error_msg : string) : bool :=
  str_in "429" error_msg || str_in "RESOURCE_EXHAUSTED" error_msg.

(** The longest delay in seconds [time.sleep] takes: CPython keeps the
    delay as a signed 64-bit count of nanoseconds. *)
Definition sleep_max : Z := 9223372036.

(** Whether the operating system refuses to sleep for this many seconds
    (OSError): it does when the delay takes its monotonic clock past the
    end of the clock's range. *)
Class Clock := { sleep_refused : Z → bool }.

(** A system that refuses every delay it can refuse. *)
Definition strict_clock : Clock := {| sleep_refused := fun _ => true |}.

(** [time.sleep(delay)] for an [int] delay: what it raises, if anything.
    ValueError for a negative delay, OverflowError for one beyond
    [sleep_max]. Between the two the system can refuse a delay that is
    within the reading of its monotonic clock of [sleep_max]; that reading
    is taken to be below two thirds of [sleep_max] (195 years), so a delay
    of up to [sleep_max / 3] is always slept. *)
Definition time_sleep `{Clock} (delay : Z) : option retry_exn :=
  if bool_decide (delay < 0)%Z then Some SleepValueError
  else if bool_decide (sleep_max < delay)%Z then Some SleepOverflowError
  else if bool_decide (sleep_max / 3 < delay)%Z && sleep_refused delay
  then Some SleepOSError
  else None.

(** [time.sleep(delay); continue], with the rest of the loop. *)
Definition sleep_then `{Clock} {A} (delay : Z) (rest : retry_run A)
  : retry_run A :=
  match time_sleep delay with
  | Some ex => mkRetry (inr ex) 1 []
  | None =>
      mkRetry (retry_outcome rest) (S (func_calls rest)) (delay :: slept rest)
  end.

(** [for attempt in range(max_retries): ...], then the final [raise].
    [func k] is what the call of [func()] in attempt [k] returns, or the
    [str(e)] of the exception it raises. *)
Fixpoint retry_loop `{Clock} {A} (func : nat → A + string)
    (max_retries initial_delay : Z) (attempts : list Z) : retry_run A :=
  match attempts with
  | [] => mkRetry (inr (AttemptsFailed max_retries)) 0 []
  | attempt :: attempts' =>
      match func (Z.to_nat attempt) with
      | inl result => mkRetry (inl result) 1 []
      | inr error_msg =>
          if overloaded error_msg
             && bool_decide (attempt < max_retries - 1)%Z
          then sleep_then (initial_delay * 2 ^ attempt)
                 (retry_loop func max_retries initial_delay attempts')
          else if rate_limited error_msg
                  && bool_decide (attempt < max_retries - 1)%Z
          then sleep_then (initial_delay * 3 ^ attempt)
                 (retry_loop func max_retries initial_delay attempts')
          else mkRetry (inr (FuncError error_msg)) 1 []
      end
  end.

Definition retry_with_backoff `{Clock} {A} (func : nat → A + string)
    (max_retries initial_delay : Z) : retry_run A :=
  retry_loop func max_retries initial_delay (py_range (Z.to_nat max_retries)).

(** [sum] of the delays. *)
Definition total (delays : list Z) : Z := foldr Z.add 0%Z delays.

(** An error message the loop retries on. *)
Definition transient (error_msg : string) : Prop :=
  overloaded error_msg = true ∨ rate_limited error_msg = true.

(** ** The generative model outside the image pipeline *)

(** What one [client.models.generate_content] call comes to: it raised,
    with this [str(e)], or it gave a response with this [response.text]. *)
Inductive content_outcome :=
| ContentRaises (error_msg : string)
| ContentText (text : option string).

(** [json.loads]: the decoded value, or the [str(e)] of the error raised. *)
Class Json := { json_loads : string → json + string }.

(** [type(v).__name__] *)
Definition type_name (v : json) : string :=
  match v with
  | JNull => "NoneType"
  | JBool _ => "bool"
  | JInt _ => "int"
  | JFloat _ => "float"
  | JStr _ => "str"
  | JArr _ => "list"
  | JObj _ => "dict"
  end.

(** [str(e)] of the AttributeError of [v.get(...)] on a value that is no
    dict. *)
Definition no_get (v : json) : string :=
  "'" +:+ type_name v +:+ "' object has no attribute 'get'".

(** [AI_AVAILABLE and client] *)
Definition ai_ready (ai : ai_env) : bool :=
  AI_AVAILABLE ai && bool_decide (is_Some (client ai)).

(** ** get_city_tourist_spots *)

(** [make_api_call] of [get_city_tourist_spots], given what the call of
    the model comes to. *)
Definition make_api_call `{Json} (response : content_outcome)
  : json + string :=
  match response with
  | ContentRaises error_msg => inr error_msg
  | ContentText None => inr "Empty response from API"
  | ContentText (Some text) =>
      if decide (text = "") then inr "Empty response from API"
      else
        match json_loads text with
        | inr error_msg => inr error_msg
        | inl (JObj items) =>
            inl (default (JArr [])
                         (dict_get "tourist_spots" (dict_of_pairs items)))
        | inl result => inr (no_get result)
        end
  end.

Definition spot (name description : string) (entry_fee : Z) : json :=
  JObj [("name", JStr name); ("description", JStr description);
        ("entry_fee", JInt entry_fee)].

(** The list returned when the model gives nothing. *)
Definition fallback_spots (destination : string) : json :=
  JArr [ spot (destination +:+ " Fort")
              "Historic fort with panoramic views of the city" 50;
         spot (destination +:+ " Museum")
              "Rich collection of local art and artifacts" 100;
         spot (destination +:+ " Lake/Garden")
              "Scenic spot with natural beauty and relaxation" 30;
         spot (destination +:+ " Temple")
              "Ancient temple with intricate architecture" 0;
         spot "Local Market"
              "Traditional market with local handicrafts and food" 0 ].

(** A call of one of the functions that ask the model through
    [retry_with_backoff]: the value returned, the calls of the model, and
    the delays slept. *)
Record asked (A : Type) := mkAsked {
  answer : A;
  model_requests : nat;
  waited : list Z
}.
Arguments mkAsked {A} answer model_requests waited.
Arguments answer {A} a.
Arguments model_requests {A} a.
Arguments waited {A} a.

(** [generate k] is what call [k] of the model comes to. *)
Definition get_city_tourist_spots `{Json} `{Clock} (ai : ai_env)
    (generate : nat → content_outcome) (destination : string) : asked json :=
  if ai_ready ai then
    let r := retry_with_backoff (fun k => make_api_call (generate k)) 3 3 in
    match retry_outcome r with
    | inl spots => mkAsked spots (func_calls r) (slept r)
    | inr _ => mkAsked (fallback_spots destination) (func_calls r) (slept r)
    end
  else mkAsked (fallback_spots destination) 0 [].

(** ** generate_personalized_budget_insights *)

(** The dict [{'summary': ..., 'tips': [...]}]. *)
Record insights := mkInsights {
  summary : string;
  tips : list string
}.

(** [tip and isinstance(tip, str)] *)
Definition kept_tip (tip : json) : option string :=
  match tip with
  | JStr s => if decide (s = "") then None else Some s
  | _ => None
  end.

(** [generate_ai_insights], given what the call of the model comes to. *)
Definition generate_ai_insights `{Json} (response : content_outcome)
  : insights + string :=
  match response with
  | ContentRaises error_msg => inr error_msg
  | ContentText None => inr "Empty response from AI"
  | ContentText (Some text) =>
      if decide (text = "") then inr "Empty response from AI"
      else
        match json_loads text with
        | inr error_msg => inr error_msg
        | inl (JObj items) =>
            let result := dict_of_pairs items in
            match dict_get "summary" result, dict_get "tips" result with
            | Some (JStr summary), Some (JArr tips) =>
                if decide (tips = []) then inr "No tips provided"
                else inl (mkInsights summary (take 5 (omap kept_tip tips)))
            | _, _ => inr "Invalid response format"
            end
        | inl result => inr (no_get result)
        end
  end.

(** [income <= 0] for a float [income]. *)
Definition float_le_zero (f : pyfloat) : bool :=
  match f with
  | FNan => false
  | FInf negative => negative
  | FFin q => Qle_bool q 0
  end.

(** [needs], [wants] and [savings] only go into the prompt, whose
    formatting of floats cannot fail; the answers of the model are
    [generate]. *)
Definition generate_personalized_budget_insights `{Json} `{Clock} (ai : ai_env)
    (generate : nat → content_outcome) (income : pyfloat)
  : asked (option insights) :=
  if negb (AI_AVAILABLE ai) || negb (bool_decide (is_Some (client ai)))
     || float_le_zero income
  then mkAsked None 0 []
  else
    let r := retry_with_backoff (fun k => generate_ai_insights (generate k))
                                2 1 in
    match retry_outcome r with
    | inl result => mkAsked (Some result) (func_calls r) (slept r)
    | inr _ => mkAsked None (func_calls r) (slept r)
    end.

(** ** create_travel_plan *)

(** How an f-string renders a decoded value ([str]). *)
Class PyStr := { py_str : json → string }.

(** [range(a, b)] *)
Definition py_range_from (a b : Z) : list Z :=
  (fun i => a + Z.of_nat i)%Z <$> seq 0 (Z.to_nat (b - a)).

Definition activities_templates : list (list string) :=
  [ ["Morning: Check-in and freshen up";
     "Afternoon: Visit main city attraction";
     "Evening: Explore local markets and try street food"];
    ["Morning: Heritage site tour";
     "Afternoon: Museum visit and lunch at famous restaurant";
     "Evening: Sunset viewpoint and photography"];
    ["Morning: Adventure activity or nature walk";
     "Afternoon: Shopping for local handicrafts";
     "Evening: Cultural show and departure preparation"] ].

(** The activities of the days after the third. *)
Definition leisure_activities : list string :=
  [ "Morning: Leisure time and local exploration";
    "Afternoon: Visit nearby attractions";
    "Evening: Relaxation and local cuisine" ].

(** The two loops that fill [itinerary], for an [int] [days]: the day
    numbers with their activities. *)
Definition fallback_itinerary (days : Z) : result (list (Z * list string)) :=
  first <- map_result
             (fun day_num =>
                activities <-
                  (if bool_decide (day_num ≤ 3)%Z
                   then py_index activities_templates (day_num - 1)
                   else py_index activities_templates 2) ;;;
                Ok (day_num, activities))
             (py_range_from 1 (Z.min (days + 1) 4)) ;;;
  Ok (first ++
      if bool_decide (days > 3)%Z
      then (fun day_num => (day_num, leisure_activities))
             <$> py_range_from 4 (days + 1)
      else []).

(** [days] as the arithmetic of the loops takes it. A [bool] is an [int].
    For a float, [min(days + 1, 4)] is that float, or [days > 3] holds and
    [days + 1] is one: a float bound of [range] raises TypeError, as does
    [days + 1] on every other decoded value. *)
Definition as_int (days : json) : result Z :=
  match days with
  | JInt z => Ok z
  | JBool b => Ok (if b then 1 else 0)%Z
  | _ => Raise TypeError
  end.

Definition itinerary_entry (e : Z * list string) : json :=
  JObj [("day", JInt e.1); ("activities", JArr (JStr <$> e.2))].

(** The plan of the model: the decoded [response.text], when there is a
    client, the call returns, and the text is not empty and decodes. *)
Definition model_plan `{Json} (ai : ai_env) (response : content_outcome)
  : option json :=
  if ai_ready ai then
    match response with
    | ContentText (Some text) =>
        if decide (text = "") then None
        else match json_loads text with
             | inl result => Some result
             | inr _ => None
             end
    | _ => None
    end
  else None.

(** [data] is the dict of the request. *)
Definition create_travel_plan `{Json} `{PyStr} (ai : ai_env)
    (response : content_outcome) (data : list (string * json))
  : result json :=
  let to_city := default (JStr "Unknown") (dict_get "to" data) in
  let days := default (JInt 3) (dict_get "days" data) in
  match model_plan ai response with
  | Some result => Ok result
  | None =>
      day_count <- as_int days ;;;
      itinerary <- fallback_itinerary day_count ;;;
      Ok (JObj
            [("itinerary", JArr (itinerary_entry <$> itinerary));
             ("summary",
              JStr (py_str to_city +:+
                    " offers a perfect blend of culture, history, and natural beauty. Experience local traditions, visit historic landmarks, and enjoy authentic cuisine during your "
                    +:+ py_str days +:+ "-day journey."));
             ("budget_tip",
              JStr "Book train tickets 60 days in advance for best prices, and eat at local eateries instead of tourist restaurants to save 40-50% on food costs.")])
  end.

(** ** The route /api/fetch-destination-image (app.py) *)

(** [jsonify(...), status] as the route builds it. *)
Record response := mkResponse {
  status : Z;
  success : bool;
  image : option ResolvedImage;
  message : option string
}.

(** The view for a logged-in user; [get_json] is what
    [request.get_json()] returns or raises. The second component is the
    cache afterwards. *)
Definition fetch_destination_image `{Text} `{Urllib} `{PyStr} (e : env)
    (cache : table) (get_json : result json) : response * table :=
  let failed := mkResponse 500 false None (Some "An error occurred") in
  match get_json with
  | Ok (JObj items) =>
      let destination :=
        default (JStr "") (dict_get "destination" (dict_of_pairs items)) in
      if negb (truthy destination)
      then (mkResponse 400 false None (Some "Destination required"), cache)
      else
        let r := fetch_unsplash_images e cache
                   (py_str destination +:+ " landmark tourist attraction") 1 in
        match outcome r with
        | Ok (img :: _) => (mkResponse 200 true (Some img) None, cache_after r)
        | Ok [] =>
            (mkResponse 404 false None (Some "No images found"), cache_after r)
        | Raise _ => (failed, cache_after r)
        end
  | _ => (failed, cache)
  end.

(** * Properties *)

(** ** Python slices *)

Lemma py_take_prefix {A} (n : Z) (l : list A) : py_take n l `prefix_of` l.
Proof. unfold py_take. case_match; apply prefix_take. Qed.

Lemma py_take_all {A} (n : Z) (l : list A) : (len l ≤ n)%Z → py_take n l = l.
Proof.
  unfold py_take, len. intros Hn.
  case_match; [apply take_ge; lia | lia].
Qed.

Lemma NoDup_prefix {A} (l k : list A) : l `prefix_of` k → NoDup k → NoDup l.
Proof. intros [m ->] Hk. by apply NoDup_app in Hk as [? _]. Qed.

Lemma prefix_fmap {A B} (f : A → B) (l k : list A) :
  l `prefix_of` k → (f <$> l) `prefix_of` (f <$> k).
Proof. intros [m ->]. rewrite fmap_app. by eexists. Qed.

Lemma len_app {A} (l k : list A) : len (l ++ k) = (len l + len k)%Z.
Proof. unfold len. rewrite length_app. lia. Qed.

(** ** The fallback selector *)

Lemma emit_inv_init count : emit_inv count (mkEmit [] ∅ false).
Proof. split; simpl; [constructor | set_solver | auto]. Qed.

Lemma emit_urls_returned count urls st :
  returned st = true → emit_urls count urls st = st.
Proof. intros Hr. destruct urls; simpl; [done | by rewrite Hr]. Qed.

Lemma emit_urls_inv count urls st :
  emit_inv count st → emit_inv count (emit_urls count urls st).
Proof.
  revert st. induction urls as [|u urls IH]; intros st Hst; simpl; [done|].
  destruct (returned st) eqn:Hr; [done|].
  case_decide as Hu; [by apply IH|].
  apply IH. destruct Hst as [Hnd Hused _]. split; simpl.
  - rewrite fmap_app. apply NoDup_app. split_and!; [done | | apply NoDup_singleton].
    intros v Hv. simpl. rewrite list_elem_of_singleton. intros ->. auto.
  - intros v. rewrite fmap_app, elem_of_app, elem_of_union. simpl.
    rewrite list_elem_of_singleton, elem_of_singleton. intros [?| ->]; auto.
  - intros Hret. apply bool_decide_eq_false in Hret. right. lia.
Qed.

Lemma emit_urls_prefix count urls st :
  result_images st `prefix_of` result_images (emit_urls count urls st).
Proof.
  revert st. induction urls as [|u urls IH]; intros st; simpl; [done|].
  destruct (returned st); [done|].
  case_decide; [apply IH|].
  etrans; [|apply IH]. simpl. by apply prefix_app_r.
Qed.

Lemma emit_others_inv count matched order st :
  emit_inv count st → emit_inv count (emit_others count matched order st).
Proof.
  revert st. induction order as [|[t s] order IH]; intros st Hst; simpl; [done|].
  destruct (returned st); [done|].
  case_decide; [by apply IH|]. by apply IH, emit_urls_inv.
Qed.

Lemma emit_others_prefix count matched order st :
  result_images st `prefix_of`
  result_images (emit_others count matched order st).
Proof.
  revert st. induction order as [|[t s] order IH]; intros st; simpl; [done|].
  destruct (returned st); [done|].
  case_decide; [apply IH|].
  etrans; [apply (emit_urls_prefix count (all_fallback_urls t))|apply IH].
Qed.

(** Every pool has a first URL. *)
Lemma all_fallback_urls_first t :
  ∃ u rest, all_fallback_urls t = u :: rest.
Proof. destruct t; simpl; eauto. Qed.

Lemma fallback_from_nodup order matched count :
  NoDup (url <$> fallback_from order matched count).
Proof.
  unfold fallback_from.
  pose proof (emit_urls_inv count (all_fallback_urls matched) _
                (emit_inv_init count)) as H1.
  destruct (returned (emit_urls _ _ _)) eqn:Hr1; [apply H1|].
  pose proof (emit_others_inv count matched order _ H1) as H2.
  destruct (returned (emit_others _ _ _ _)) eqn:Hr2; [apply H2|].
  destruct (result_images (emit_others _ _ _ _)) as [|img imgs] eqn:Himgs.
  - apply NoDup_singleton.
  - eapply NoDup_prefix; [|apply (emit_nodup _ _ H2)].
    rewrite Himgs. apply prefix_fmap, py_take_prefix.
Qed.

Lemma fallback_from_first order matched count u rest :
  all_fallback_urls matched = u :: rest →
  ∃ more, fallback_from order matched count = fallback_image u :: more ∧
          ((count ≤ 1)%Z → more = []).
Proof.
  intros Hu. unfold fallback_from. rewrite Hu.
  set (st0 := mkEmit [] ∅ false).
  set (st1 := mkEmit [fallback_image u] ({[u]} ∪ ∅)
                     (bool_decide (count ≤ len [fallback_image u])%Z)).
  assert (Hst1 : emit_urls count (u :: rest) st0 = emit_urls count rest st1
                 ∧ result_images st1 = [fallback_image u]
                 ∧ returned st1 = bool_decide (count ≤ 1)%Z
                 ∧ emit_inv count st1).
  { assert (Hone : emit_urls count [u] st0 = st1)
      by (simpl; by rewrite decide_False by set_solver).
    split_and!; [simpl; by rewrite decide_False by set_solver | done | done |].
    rewrite <-Hone. apply emit_urls_inv, emit_inv_init. }
  destruct Hst1 as (-> & Hres1 & Hret1 & Hinv1). clearbody st1.
  pose proof (emit_urls_prefix count rest st1) as [m1 Hm1].
  pose proof (emit_urls_inv count rest _ Hinv1) as Hinv2.
  rewrite Hres1 in Hm1.
  destruct (decide (count ≤ 1)%Z) as [Hc|Hc].
  - rewrite emit_urls_returned
      by (rewrite Hret1; by apply bool_decide_eq_true).
    rewrite Hret1, bool_decide_eq_true_2 by done. rewrite Hres1. eauto.
  - destruct (returned (emit_urls count rest st1)) eqn:Hr.
    { rewrite Hm1. eexists. split; [done | lia]. }
    set (st2 := emit_urls count rest st1) in *.
    pose proof (emit_others_prefix count matched order st2) as [m2 Hm2].
    pose proof (emit_others_inv count matched order _ Hinv2) as Hinv3.
    rewrite Hm1 in Hm2.
    destruct (returned (emit_others count matched order st2)) eqn:Hr2.
    { rewrite Hm2. simpl. eexists. split; [done | lia]. }
    destruct (emit_short _ _ Hinv3 Hr2) as [Hnil | Hlt].
    { by rewrite Hm2 in Hnil. }
    rewrite Hm2 in *. simpl.
    rewrite py_take_all by (simpl in *; lia).
    eexists. split; [done | lia].
Qed.

Lemma String_app (c : ascii) (s t : string) :
  String c s +:+ t = String c (s +:+ t).
Proof. reflexivity. Qed.

(** The substring test is what it should be. *)
Lemma prefix_spec (k s : string) :
  String.prefix k s = true ↔ ∃ post, s = k +:+ post.
Proof.
  revert s. induction k as [|c k IH]; intros s; simpl.
  - split; [eauto | by destruct s].
  - destruct s as [|c' s']; simpl.
    + split; [done | by intros [? ?]].
    + destruct (Ascii.ascii_dec c c') as [->|Hc].
      * rewrite IH.
        split; intros [post Hp]; exists post; rewrite String_app in *;
          congruence.
      * split; [done | intros [post Hp]; rewrite String_app in Hp; congruence].
Qed.

Lemma str_in_spec (k s : string) :
  str_in k s = true ↔ ∃ pre post, s = pre +:+ k +:+ post.
Proof.
  induction s as [|c s IH]; cbn [str_in].
  - rewrite orb_false_r, prefix_spec. split.
    + intros [post ->]. by exists "", post.
    + intros ([|? pre] & post & Hs); [eauto | done].
  - rewrite orb_true_iff, prefix_spec, IH. split.
    + intros [[post ->] | (pre & post & ->)].
      * by exists "", post.
      * by exists (String c pre), post.
    + intros ([|c' pre] & post & Hs).
      * left. eauto.
      * right. rewrite String_app in Hs. injection Hs as -> ->. eauto.
Qed.

Lemma insert_desc_head x y l :
  head (insert_desc x (y :: l)) = Some (pick y x).
Proof. unfold pick. simpl. by case_match. Qed.

Lemma sorted_desc_head l y acc :
  head (foldl (fun acc x => insert_desc x acc) (y :: acc) l)
  = Some (foldl pick y l).
Proof.
  revert y acc. induction l as [|x l IH]; intros y acc; simpl; [done|].
  unfold pick at 2. destruct (y.2 <? x.2)%Z; apply IH.
Qed.

Lemma sorted_desc_cons y l : head (sorted_desc (y :: l)) = Some (foldl pick y l).
Proof. apply (sorted_desc_head l y []). Qed.

Lemma matched_type_pick (q : string) :
  matched_type q =
  let best :=
    foldl pick (Nature, score q Nature)
          ((fun t => (t, score q t)) <$> [Water; Urban; Heritage; Desert; Scenic]) in
  if (0 <? best.2)%Z then best.1 else Scenic.
Proof.
  unfold matched_type, sorted_types.
  change (scores q) with
    ((Nature, score q Nature) ::
     ((fun t => (t, score q t)) <$> [Water; Urban; Heritage; Desert; Scenic])).
  pose proof (sorted_desc_cons (Nature, score q Nature)
                ((fun t => (t, score q t)) <$> [Water; Urban; Heritage; Desert; Scenic]))
    as Hh.
  destruct (sorted_desc _) as [|[t s] l]; [done|].
  cbv zeta.
  match type of Hh with
  | _ = Some ?b => replace b with (t, s) by (cbn [head] in Hh; congruence)
  end.
  done.
Qed.

Lemma score_nonneg q t : (0 ≤ score q t)%Z.
Proof. unfold score, len. lia. Qed.

Lemma matched_type_selects (q : string) : selects (score q) (matched_type q).
Proof.
  rewrite matched_type_pick. unfold selects, pick. cbn [fmap list_fmap foldl].
  pose proof (score_nonneg q Nature). pose proof (score_nonneg q Water).
  pose proof (score_nonneg q Urban). pose proof (score_nonneg q Heritage).
  pose proof (score_nonneg q Desert). pose proof (score_nonneg q Scenic).
  split.
  - intros Hz.
    rewrite (Hz Nature), (Hz Water), (Hz Urban), (Hz Heritage), (Hz Desert),
      (Hz Scenic). done.
  - intros [t0 Ht0].
    assert (0 < score q Nature ∨ 0 < score q Water ∨ 0 < score q Urban ∨
            0 < score q Heritage ∨ 0 < score q Desert ∨ 0 < score q Scenic)%Z
      as Hpos by (destruct t0; auto 7).
    clear t0 Ht0.
    repeat (cbn [fst snd];
            match goal with
            | |- context [(?a <? ?b)%Z] =>
                lazymatch constr:((a, b)) with
                | context [if _ then _ else _] => fail
                | _ => destruct (Z.ltb_spec a b)
                end
            end);
      cbn [fst snd];
      (split; intros t; destruct t; cbn [declared_at]; lia).
Qed.

(** The rule names one pool only. *)
Lemma selects_unique (sc : dest_type → Z) (m m' : dest_type) :
  (∀ t, 0 ≤ sc t)%Z → selects sc m → selects sc m' → m = m'.
Proof.
  intros Hnn [Hz Hp] [Hz' Hp'].
  assert ((∀ t, sc t = 0%Z) ∨ ∃ t, (0 < sc t)%Z) as [Hall|Hex].
  { destruct (decide (sc Nature = 0%Z));
      [|right; exists Nature; specialize (Hnn Nature); lia].
    destruct (decide (sc Water = 0%Z));
      [|right; exists Water; specialize (Hnn Water); lia].
    destruct (decide (sc Urban = 0%Z));
      [|right; exists Urban; specialize (Hnn Urban); lia].
    destruct (decide (sc Heritage = 0%Z));
      [|right; exists Heritage; specialize (Hnn Heritage); lia].
    destruct (decide (sc Desert = 0%Z));
      [|right; exists Desert; specialize (Hnn Desert); lia].
    destruct (decide (sc Scenic = 0%Z));
      [|right; exists Scenic; specialize (Hnn Scenic); lia].
    left. intros []; done. }
  { by rewrite (Hz Hall), (Hz' Hall). }
  destruct (Hp Hex) as [Hmax Hfirst]. destruct (Hp' Hex) as [Hmax' Hfirst'].
  destruct (decide (declared_at m < declared_at m')) as [Hlt|Hge].
  { specialize (Hfirst' _ Hlt). specialize (Hmax m'). lia. }
  destruct (decide (declared_at m' < declared_at m)) as [Hlt'|Hge'].
  { specialize (Hfirst _ Hlt'). specialize (Hmax' m). lia. }
  destruct m, m'; simpl in *; done || lia.
Qed.

Lemma get_fallback_images_head `{Text} (query : string) (count : Z) :
  head (url <$> get_fallback_images query count)
  = head (all_fallback_urls (matched_type (str_lower query))).
Proof.
  destruct (all_fallback_urls_first (matched_type (str_lower query)))
    as (u & rest & Hu).
  destruct (fallback_from_first (sorted_types (str_lower query)) _ count
              u rest Hu) as (more & Hf & _).
  unfold get_fallback_images. cbv zeta. by rewrite Hf, Hu.
Qed.

(** C6: the fallback selector lower-cases the query, gives every pool one
    point for each of its keywords that occurs in the lower-cased text, and
    picks the pool with the highest score, the earlier declared one on ties
    and scenic when all scores are 0; its first image is the first URL of
    that pool. For "desert canyon trip" the desert pool wins with two
    points against none for scenic. The lower-casing decides: "Desert
    CANYON Trip" as typed holds no keyword, which would give scenic, and
    the selector answers with the desert pool, whose first URL is not the
    scenic one. *)
Theorem fallback_pool_selection `{Text} (query : string) (count : Z) :
  let query_lower := str_lower query in
  let matched := matched_type query_lower in
  (∀ t, score query_lower t =
        len (filter (fun keyword => str_in keyword query_lower = true)
                    (destination_types t))) ∧
  (∀ keyword, str_in keyword query_lower = true ↔
              ∃ pre post, query_lower = pre +:+ keyword +:+ post) ∧
  selects (score query_lower) matched ∧
  head (url <$> get_fallback_images query count)
    = head (all_fallback_urls matched) ∧
  matched_type (lower_ascii "desert canyon trip") = Desert ∧
  score (lower_ascii "desert canyon trip") Desert = 2%Z ∧
  score (lower_ascii "desert canyon trip") Scenic = 0%Z ∧
  lower_ascii "Desert CANYON Trip" = "desert canyon trip" ∧
  matched_type "Desert CANYON Trip" = Scenic ∧
  head (url <$> @get_fallback_images ascii_text "Desert CANYON Trip" count)
    = head (all_fallback_urls Desert) ∧
  head (all_fallback_urls Desert) ≠ head (all_fallback_urls Scenic).
Proof.
  intros query_lower matched. split_and!.
  - done.
  - intros keyword. apply str_in_spec.
  - apply matched_type_selects.
  - apply get_fallback_images_head.
  - by vm_compute.
  - by vm_compute.
  - by vm_compute.
  - by vm_compute.
  - by vm_compute.
  - rewrite (@get_fallback_images_head ascii_text). by vm_compute.
  - by vm_compute.
Qed.

(** C10: [get_fallback_images] never returns an empty list; for a count
    of 0 or less it returns one image, the first URL of the winning pool,
    because the length test comes after the first append. *)
Theorem get_fallback_images_nonempty `{Text} (query : string) (count : Z) :
  get_fallback_images query count ≠ [] ∧
  ((count ≤ 0)%Z →
   ∃ u, head (all_fallback_urls (matched_type (str_lower query))) = Some u ∧
        get_fallback_images query count = [fallback_image u]).
Proof.
  destruct (all_fallback_urls_first (matched_type (str_lower query)))
    as (u & rest & Hu).
  destruct (fallback_from_first (sorted_types (str_lower query)) _ count
              u rest Hu) as (more & Hf & Hone).
  unfold get_fallback_images. rewrite Hf. split; [done|].
  intros Hc. exists u. rewrite Hu. split; [done|].
  by rewrite Hone by lia.
Qed.

(** For a count of -3 and a water query: the first water image alone. *)
Lemma get_fallback_images_nonempty_witness :
  @get_fallback_images ascii_text "beach holiday" (-3) =
  [fallback_image
     "https://images.unsplash.com/photo-1507525428034-b723cf961d3e?auto=format&q=80&w=1200"].
Proof.
  destruct (proj2 (@get_fallback_images_nonempty ascii_text "beach holiday" (-3)))
    as (u & Hu & ->); [lia|].
  vm_compute in Hu. by injection Hu as <-.
Defined.

(** ** URL normalization *)

Lemma dict_get_set_eq {V} (k : string) (v : V) d :
  dict_get k (dict_set k v d) = Some v.
Proof.
  induction d as [|[k' v'] d IH]; simpl.
  - by rewrite decide_True.
  - case_decide; simpl; [by rewrite decide_True | by rewrite decide_False].
Qed.

Lemma dict_get_set_ne {V} (k k' : string) (v : V) d :
  k ≠ k' → dict_get k' (dict_set k v d) = dict_get k' d.
Proof.
  intros Hne. induction d as [|[k0 v0] d IH]; simpl.
  - by rewrite decide_False.
  - destruct (decide (k0 = k)) as [->|]; simpl.
    + by rewrite !decide_False.
    + by rewrite IH.
Qed.

Lemma dict_set_keys {V} (k : string) (v : V) d :
  (dict_set k v d).*1 = if decide (k ∈ d.*1) then d.*1 else d.*1 ++ [k].
Proof.
  induction d as [|[k0 v0] d IH].
  - destruct (decide (k ∈ [].*1)) as [Hin|]; [by apply elem_of_nil in Hin|done].
  - cbn [dict_set]. destruct (decide (k0 = k)) as [->|Hne].
    + rewrite decide_True by (rewrite fmap_cons; set_solver). done.
    + rewrite !fmap_cons, IH. cbn [fst].
      destruct (decide (k ∈ d.*1)).
      * by rewrite decide_True by set_solver.
      * by rewrite decide_False by set_solver.
Qed.

Lemma dict_get_is_Some {V} (k : string) (d : list (string * V)) :
  is_Some (dict_get k d) ↔ k ∈ d.*1.
Proof.
  induction d as [|[k0 v0] d IH]; simpl.
  - split; [by intros [? ?] | by intros ?%elem_of_nil].
  - case_decide as Hk; simplify_eq.
    + split; [set_solver | eauto].
    + rewrite IH. set_solver.
Qed.

Lemma dict_of_pairs_snoc {V} (l : list (string * V)) kv :
  dict_of_pairs (l ++ [kv]) = dict_set kv.1 kv.2 (dict_of_pairs l).
Proof. unfold dict_of_pairs. by rewrite foldl_app. Qed.

Lemma dict_of_pairs_keys_nodup {V} (l : list (string * V)) :
  NoDup (dict_of_pairs l).*1.
Proof.
  induction l as [|kv l IH] using rev_ind; [constructor|].
  rewrite dict_of_pairs_snoc, dict_set_keys. case_decide; [done|].
  apply NoDup_app. split_and!; [done | set_solver | apply NoDup_singleton].
Qed.

Lemma dict_of_pairs_keys {V} (l : list (string * V)) k :
  k ∈ (dict_of_pairs l).*1 ↔ k ∈ l.*1.
Proof.
  induction l as [|kv l IH] using rev_ind; [done|].
  rewrite dict_of_pairs_snoc, dict_set_keys, fmap_app. simpl.
  case_decide; set_solver.
Qed.

Lemma dict_get_of_pairs (l : list (string * string)) k :
  dict_get k (dict_of_pairs l) = last_value k l.
Proof.
  unfold last_value.
  induction l as [|[k0 v0] l IH] using rev_ind; [done|].
  rewrite dict_of_pairs_snoc, filter_app. simpl.
  destruct (decide (k0 = k)) as [->|Hne].
  - rewrite dict_get_set_eq, filter_cons_True, filter_nil by done.
    by rewrite last_snoc.
  - rewrite dict_get_set_ne, filter_cons_False, filter_nil by done.
    by rewrite app_nil_r.
Qed.

Lemma inject_get d kv k :
  dict_get k (inject d kv) =
  match dict_get k d with
  | Some v => Some v
  | None => if decide (kv.1 = k) then Some kv.2 else None
  end.
Proof.
  unfold inject, dict_mem. case_bool_decide as Hm.
  - destruct (dict_get k d) eqn:Hk; [done|].
    case_decide; [|done]. subst. rewrite Hk in Hm. by destruct Hm.
  - destruct (decide (kv.1 = k)) as [<-|Hne].
    + rewrite dict_get_set_eq. destruct (dict_get kv.1 d) eqn:Hk; [|done].
      destruct Hm. eauto.
    + rewrite dict_get_set_ne by done. by destruct (dict_get k d).
Qed.

Lemma inject_keys d kv :
  NoDup d.*1 → NoDup (inject d kv).*1 ∧
  ∀ k, k ∈ (inject d kv).*1 ↔ k ∈ d.*1 ∨ k = kv.1.
Proof.
  intros Hnd. unfold inject, dict_mem. case_bool_decide as Hm.
  - apply dict_get_is_Some in Hm. split; [done | set_solver].
  - rewrite dict_get_is_Some in Hm. rewrite dict_set_keys, decide_False by done.
    split; [|set_solver].
    apply NoDup_app. split_and!; [done | set_solver | apply NoDup_singleton].
Qed.

Lemma new_params_get existing k :
  dict_get k (new_params existing) =
  match last_value k existing with
  | Some v => Some v
  | None => dict_get k default_params
  end.
Proof.
  unfold new_params, default_params. cbn [foldl].
  rewrite !inject_get, dict_get_of_pairs. cbn [fst snd dict_get].
  destruct (last_value k existing); [done|].
  repeat case_decide; congruence.
Qed.

Lemma new_params_keys existing :
  NoDup (new_params existing).*1 ∧
  ∀ k, k ∈ (new_params existing).*1 ↔ k ∈ existing.*1 ∨ k ∈ default_params.*1.
Proof.
  unfold new_params, default_params. cbn [foldl].
  pose proof (dict_of_pairs_keys_nodup existing) as H0.
  destruct (inject_keys _ ("auto", "format") H0) as [H1 K1].
  destruct (inject_keys _ ("q", "80") H1) as [H2 K2].
  destruct (inject_keys _ ("w", "1200") H2) as [H3 K3].
  split; [done|]. intros k.
  rewrite K3, K2, K1, dict_of_pairs_keys. cbn [fst fmap list_fmap].
  set_solver.
Qed.

Lemma last_value_is_Some key (pairs : list (string * string)) :
  is_Some (last_value key pairs) ↔ key ∈ pairs.*1.
Proof.
  rewrite <-dict_get_of_pairs, dict_get_is_Some. apply dict_of_pairs_keys.
Qed.

(** C7 (as amended): the normalized URL is the original with its query
    string rebuilt from [new_params]; there every key of the original query
    appears once, with the value of its last occurrence, each of auto, q and
    w that the original lacks is added with its default (format, 80, 1200),
    one that the original has keeps the original's value, and no other key
    is added. *)
Theorem normalized_params `{Urllib} (base_url : string) (parsed : ParseResult) :
  urlparse base_url = Some parsed →
  let existing_params := parse_qsl (query parsed) in
  let new := new_params existing_params in
  optimize_url base_url =
    Ok (urlunparse (mkUrl (scheme parsed) (netloc parsed) (path parsed)
                          (params parsed) (urlencode new) (fragment parsed))) ∧
  NoDup new.*1 ∧
  (∀ key, key ∈ existing_params.*1 →
          is_Some (last_value key existing_params) ∧
          dict_get key new = last_value key existing_params) ∧
  (∀ key value, (key, value) ∈ default_params →
                key ∉ existing_params.*1 → dict_get key new = Some value) ∧
  (∀ key, key ∈ new.*1 → key ∈ existing_params.*1 ∨ key ∈ default_params.*1).
Proof.
  intros Hp existing_params new.
  destruct (new_params_keys existing_params) as [Hnd Hkeys].
  split_and!.
  - unfold optimize_url. by rewrite Hp.
  - done.
  - intros key Hkey. apply last_value_is_Some in Hkey as Hsome.
    split; [done|]. unfold new. rewrite new_params_get.
    by destruct Hsome as [v ->].
  - intros key value Hdef Hnot. unfold new. rewrite new_params_get.
    destruct (last_value key existing_params) eqn:Hl.
    { destruct Hnot. apply last_value_is_Some. eauto. }
    unfold default_params in *.
    repeat (apply elem_of_cons in Hdef as [Hdef|Hdef]; [by simplify_eq|]).
    by apply elem_of_nil in Hdef.
  - intros key. apply Hkeys.
Qed.

(** A URL with [w] set and [auto], [q] missing. *)
Lemma normalized_params_witness :
  @optimize_url simple_urllib
    "https://images.unsplash.com/photo-1599661046289-e31897846e41?ixid=abc&w=1080"
  = Ok "https://images.unsplash.com/photo-1599661046289-e31897846e41?ixid=abc&w=1080&auto=format&q=80".
Proof.
  destruct (@normalized_params simple_urllib
              "https://images.unsplash.com/photo-1599661046289-e31897846e41?ixid=abc&w=1080"
              (mkUrl "https" "images.unsplash.com"
                     "/photo-1599661046289-e31897846e41" "" "ixid=abc&w=1080" "")
              eq_refl) as [-> _].
  reflexivity.
Defined.

(** C7 as stated fails on a repeated key: of [a=1&a=2] only [a=2] is left
    in the normalized URL. *)
Lemma normalize_drops_repeated_key :
  let existing_params := [("a", "1"); ("a", "2")] in
  ("a", "1") ∈ existing_params ∧
(("a", "1") ∉ new_params existing_params) ∧
  @parse_qsl simple_urllib "a=1&a=2" = existing_params ∧
  @optimize_url simple_urllib "https://example.com/p?a=1&a=2"
  = Ok "https://example.com/p?a=2&auto=format&q=80&w=1200".
Proof.
  split_and!; [set_solver | | reflexivity | reflexivity].
  vm_compute. intros Hin.
  repeat (apply elem_of_cons in Hin as [Hin|Hin]; [discriminate|]).
  by apply elem_of_nil in Hin.
Qed.

(** ** The ranker *)

Lemma ranker_identity_when_disabled ai destination image_candidates :
  AI_AVAILABLE ai = false ∨ client ai = None ∨ image_candidates = [] →
  select_best_destination_images ai destination image_candidates
  = (Ok (identity_order image_candidates), []).
Proof.
  unfold select_best_destination_images.
  intros [Hd | [Hd | Hd]]; destruct (client ai); try done.
  - by rewrite Hd.
  - subst. by rewrite orb_true_r.
Qed.

Lemma try_models_all_passed cl prompt models :
  (∀ m, passed_over (cl m prompt)) →
  try_models cl prompt models = (None, models).
Proof.
  intros Hall. induction models as [|m models IH]; simpl; [done|].
  rewrite IH. specialize (Hall m).
  destruct (cl m prompt) as [| | |[]]; simpl in *; try done.
  by rewrite Hall.
Qed.

Lemma ranker_identity_when_all_fail ai cl destination image_candidates infos :
  client ai = Some cl →
  map_result describe image_candidates = Ok infos →
  (∀ m p, passed_over (cl m p)) →
  (select_best_destination_images ai destination image_candidates).1
  = Ok (identity_order image_candidates).
Proof.
  intros Hcl Hinfos Hall. unfold select_best_destination_images.
  rewrite Hcl, Hinfos.
  case_match; [done|]. by rewrite try_models_all_passed.
Qed.

(** C8 fails where the model answers with a [ranked_indices] that is no
    list but has a length: the ranker hands the string "0" back as it is,
    and the walk over the ranking in [fetch_unsplash_images] then raises
    at [idx < len(raw_photo_data)]. A number is not handed back: the log
    call raises on it and the identity ordering is returned. The ranker
    also raises to its caller when a candidate's tags are no dicts: the
    descriptions are built before the [try]. *)
Theorem ranker_returns_non_list :
  select_best_destination_images (ai_answering (JStr "0")) "jaipur"
                                 [photo_jaipur]
  = (Ok (JStr "0"), ["gemini-2.5-flash"]) ∧
  outcome (@fetch_unsplash_images ascii_text simple_urllib
             (env_first_page [photo_jaipur] (ai_answering (JStr "0")))
             [] "jaipur palace" 1)
  = Raise TypeError ∧
  select_best_destination_images (ai_answering (JInt 7)) "jaipur"
                                 [photo_jaipur]
  = (Ok (JArr [JInt 0]), ["gemini-2.5-flash"; "gemini-2.0-flash-exp"]) ∧
  select_best_destination_images (ai_answering (JArr [JInt 0])) "jaipur"
                                 [photo_plain_tags]
  = (Raise AttributeError, []).
Proof. split_and!; by vm_compute. Qed.

(** ** The walk over the ranking *)

(** C9 fails on an index below [-len(raw_photo_data)]: the test
    [idx < len(raw_photo_data)] lets it through and the subscript raises. *)
Theorem accumulate_negative_index_raises :
  @accumulate simple_urllib 1 [photo_jaipur] [JInt (-2)] (mkAcc [] ∅ ∅)
  = Raise IndexError ∧
  outcome (@fetch_unsplash_images ascii_text simple_urllib
             (env_first_page [photo_jaipur] (ai_answering (JArr [JInt (-2)])))
             [] "jaipur palace" 1)
  = Raise IndexError.
Proof. split; by vm_compute. Qed.

(** ** The cache lookup *)

Lemma insert_sorted_perm r l : insert_sorted r l ≡ₚ r :: l.
Proof.
  induction l as [|r' l IH]; simpl; [done|].
  case_match; [done|]. rewrite IH. apply Permutation_swap.
Qed.

Lemma sort_rows_perm l acc :
  foldl (fun acc r => insert_sorted r acc) acc l ≡ₚ acc ++ l.
Proof.
  revert acc. induction l as [|r l IH]; intros acc; simpl.
  - by rewrite app_nil_r.
  - rewrite IH, insert_sorted_perm. simpl. apply Permutation_middle.
Qed.

Lemma select_cached_from_sorted t q count :
  ∃ rows, rows ≡ₚ filter (fun r => row_query r = q) t ∧
          select_cached t q count `prefix_of` rows.
Proof.
  unfold select_cached.
  exists (foldl (fun acc r => insert_sorted r acc) []
                (filter (fun r => row_query r = q) t)).
  split; [apply (sort_rows_perm _ [])|].
  case_match; [done | apply prefix_take].
Qed.

Lemma select_cached_nodup t q count :
  cache_ok t → NoDup (image_url <$> select_cached t q count).
Proof.
  intros Hok. destruct (select_cached_from_sorted t q count) as (rows & Hp & Hpre).
  eapply NoDup_prefix; [by apply prefix_fmap|].
  rewrite Hp. apply Hok.
Qed.

Lemma to_image_url (rows : list cache_row) : url <$>
    (to_image <$> rows) = image_url <$> rows.
Proof. by rewrite <-list_fmap_compose. Qed.

(** C3: when the lookup for [(query, c)] yields at least [c] rows, the
    call returns [cached[:c]] as images, which for [c >= 0] are the first
    [c] rows of the lookup, ordered by rank index; it leaves the cache as it
    was and does nothing but the lookup and the closing of the connection:
    no search request, no call of the generative model, no write. *)
Theorem cache_hit_served_from_cache `{Text} `{Urllib} (e : env) (cache : table)
    (query : string) (c : Z) :
  (c ≤ len (select_cached cache query c))%Z →
  let cached := select_cached cache query c in
  let r := fetch_unsplash_images e cache query c in
  outcome r = Ok (to_image <$> py_take c cached) ∧
  ((0 ≤ c)%Z → py_take c cached = take (Z.to_nat c) cached ∧
               len (to_image <$> py_take c cached) = c) ∧
  cache_after r = cache ∧
  trace r = [EvSelect query c; EvClose].
Proof.
  intros Hhit cached r. unfold r, fetch_unsplash_images.
  rewrite bool_decide_eq_true_2 by done. simpl.
  split_and!; try done.
  intros Hc. unfold py_take. rewrite (proj2 (Z.leb_le 0 c)) by done.
  split; [done|].
  unfold len, cached in *. rewrite length_fmap, length_take. lia.
Qed.

(** Two cached rows of the query, stored out of order, for a count of 2. *)
Lemma cache_hit_served_from_cache_witness :
  outcome (@fetch_unsplash_images ascii_text simple_urllib
             (env_first_page [photo_jaipur] no_ai)
             [mkRow "jaipur" 1 "https://example.com/b" "B" "https://example.com/@b";
              mkRow "agra" 0 "https://example.com/c" "C" "https://example.com/@c";
              mkRow "jaipur" 0 "https://example.com/a" "A" "https://example.com/@a"]
             "jaipur" 2)
  = Ok [mkImage "https://example.com/a" "A" "https://example.com/@a";
        mkImage "https://example.com/b" "B" "https://example.com/@b"].
Proof.
  destruct (@cache_hit_served_from_cache ascii_text simple_urllib
              (env_first_page [photo_jaipur] no_ai)
              [mkRow "jaipur" 1 "https://example.com/b" "B" "https://example.com/@b";
               mkRow "agra" 0 "https://example.com/c" "C" "https://example.com/@c";
               mkRow "jaipur" 0 "https://example.com/a" "A" "https://example.com/@a"]
              "jaipur" 2) as [-> _]; [by vm_compute | reflexivity].
Defined.

(** ** The search *)

Lemma search_attempt_failed `{Text} get count qv st attempt :
  stopped st = false →
  (∀ q, http_failed (get attempt q)) →
  search_attempt get count qv st attempt
  = mkSearch (raw_photo_data st) (filtered_photo_data st) false
             (http_calls st ++
              [default (default "" (head qv)) (qv !! attempt)]).
Proof.
  intros Hst Hfail. unfold search_attempt. rewrite Hst.
  specialize (Hfail (default (default "" (head qv)) (qv !! attempt))).
  destruct (get attempt _) as [|code body]; [done|].
  simpl in Hfail. by rewrite decide_False.
Qed.

Lemma search_all_failed_from `{Text} get count qv n k :
  (∀ attempt q, http_failed (get attempt q)) →
  k + n = length qv →
  foldl (search_attempt get count qv) (mkSearch [] [] false (take k qv))
        (seq k n)
  = mkSearch [] [] false qv.
Proof.
  intros Hfail. revert k. induction n as [|n IH]; intros k Hk; simpl.
  - by rewrite take_ge by lia.
  - rewrite search_attempt_failed by done. simpl.
    destruct (lookup_lt_is_Some_2 qv k) as [x Hx]; [lia|].
    rewrite Hx. simpl. rewrite <-(take_S_r _ _ _ Hx). apply IH. lia.
Qed.

Lemma search_all_failed `{Text} get count qv :
  (∀ attempt q, http_failed (get attempt q)) →
  search get count qv = mkSearch [] [] false qv.
Proof. intros Hfail. by apply (search_all_failed_from get count qv _ 0). Qed.

(** C5: a search attempt whose request fails (transport error or a status
    other than 200) adds no photo and does not stop the loop; when every
    attempt fails, all variations have been requested, both photo lists are
    empty, and the call returns what [get_fallback_images] gives for the
    query and the count, without raising and without touching the cache. *)
Theorem failed_search_falls_back `{Text} `{Urllib} (e : env) (cache : table)
    (query : string) (count : Z) :
  (∀ qv st attempt,
     stopped st = false →
     (∀ q, http_failed (requests_get e attempt q)) →
     let st' := search_attempt (requests_get e) count qv st attempt in
     raw_photo_data st' = raw_photo_data st ∧
     filtered_photo_data st' = filtered_photo_data st ∧
     stopped st' = false ∧
     length (http_calls st') = S (length (http_calls st))) ∧
  ((∀ attempt q, http_failed (requests_get e attempt q)) →
   let found := search (requests_get e) count (query_variations_of query) in
   raw_photo_data found = [] ∧
   filtered_photo_data found = [] ∧
   http_calls found = query_variations_of query ∧
   ((len (select_cached cache query count) < count)%Z →
    UNSPLASH_ACCESS_KEY e ≠ "" →
    let r := fetch_unsplash_images e cache query count in
    outcome r = Ok (get_fallback_images query count) ∧
    cache_after r = cache ∧
    trace r = EvSelect query count ::
              (EvHttpGet <$> query_variations_of query) ++ [EvClose])).
Proof.
  split.
  - intros qv st attempt Hst Hfail st'. unfold st'.
    rewrite search_attempt_failed by done. simpl.
    rewrite length_app. simpl. split_and!; try done. lia.
  - intros Hfail found. unfold found.
    rewrite search_all_failed by done.
    cbn [raw_photo_data filtered_photo_data http_calls].
    do 3 (split; [done|]).
    intros Hmiss Hkey. unfold fetch_unsplash_images.
    rewrite bool_decide_eq_false_2 by lia.
    rewrite decide_False by done.
    rewrite search_all_failed by done.
    cbn [raw_photo_data filtered_photo_data http_calls outcome cache_after trace].
    done.
Qed.

(** Every request answered with status 503. *)
Lemma failed_search_falls_back_witness :
  outcome (@fetch_unsplash_images ascii_text simple_urllib
             (mkEnv "access-key" (fun _ _ => HttpResponse 503 None) no_ai
                    (fun _ => false))
             [] "Goa beach" 2)
  = Ok (@get_fallback_images ascii_text "Goa beach" 2).
Proof.
  destruct (@failed_search_falls_back ascii_text simple_urllib
              (mkEnv "access-key" (fun _ _ => HttpResponse 503 None) no_ai
                     (fun _ => false))
              [] "Goa beach" 2) as [_ Hall].
  destruct Hall as (_ & _ & _ & Hfetch); [by intros ? ?|].
  destruct Hfetch as [-> _]; [by vm_compute | done | reflexivity].
Defined.

(** ** The walk over the ranking: what it keeps true *)

Lemma acc_inv_init : acc_inv (mkAcc [] ∅ ∅).
Proof. split; simpl; [constructor | set_solver]. Qed.

Lemma take_photo_inv `{Urllib} raw idx st st' :
  acc_inv st → take_photo raw idx st = Ok st' → acc_inv st'.
Proof.
  intros [Hnd Hused]. unfold take_photo.
  case_match; [|by intros [= <-]].
  destruct (py_index raw idx) as [[photo|]|]; simpl; [|done..].
  case_decide; [by intros [= <-]|].
  destruct (urls_regular photo) as [base_url|]; simpl; [|done].
  destruct (optimize_url base_url) as [u|]; simpl; [|done].
  case_decide as Hu; [by intros [= <-]|].
  destruct (user_name photo) as [name|]; simpl; [|done].
  destruct (user_links_html photo) as [html|]; simpl; [|done].
  intros [= <-]. split; simpl.
  - rewrite fmap_app. apply NoDup_app. split_and!; [done| |apply NoDup_singleton].
    intros v Hv. simpl. rewrite list_elem_of_singleton. intros ->. auto.
  - intros v. rewrite fmap_app, elem_of_app, elem_of_union. simpl.
    rewrite list_elem_of_singleton, elem_of_singleton. intros [?| ->]; auto.
Qed.

Lemma take_photo_length `{Urllib} raw idx st st' :
  take_photo raw idx st = Ok st' →
  (len (accumulated_images st) ≤ len (accumulated_images st')
   ≤ len (accumulated_images st) + 1)%Z.
Proof.
  unfold take_photo.
  case_match; [|intros [= <-]; lia].
  destruct (py_index raw idx) as [[photo|]|]; simpl; [|done..].
  case_decide; [intros [= <-]; lia|].
  destruct (urls_regular photo) as [base_url|]; simpl; [|done].
  destruct (optimize_url base_url) as [u|]; simpl; [|done].
  case_decide as Hu; [intros [= <-]; lia|].
  destruct (user_name photo) as [name|]; simpl; [|done].
  destruct (user_links_html photo) as [html|]; simpl; [|done].
  intros [= <-]. simpl. rewrite len_app. unfold len. simpl. lia.
Qed.

Lemma accumulate_step_inv `{Urllib} raw idx st st' :
  acc_inv st → accumulate_step raw idx st = Ok st' →
  acc_inv st' ∧
  (len (accumulated_images st) ≤ len (accumulated_images st')
   ≤ len (accumulated_images st) + 1)%Z.
Proof.
  intros Hinv. destruct idx as [|b|z|f|s|l|items]; simpl; try done.
  - intros Hs. split; [by eapply take_photo_inv | by eapply take_photo_length].
  - intros Hs. split; [by eapply take_photo_inv | by eapply take_photo_length].
  - case_match; [done|]. intros [= <-]. split; [done | lia].
Qed.

Lemma accumulate_inv `{Urllib} count raw ranked st st' :
  acc_inv st → accumulate count raw ranked st = Ok st' →
  acc_inv st' ∧
  (len (accumulated_images st') ≤ Z.max (len (accumulated_images st)) count)%Z.
Proof.
  revert st. induction ranked as [|idx ranked IH]; intros st Hinv; simpl.
  - intros [= <-]. split; [done | lia].
  - case_bool_decide as Hfull; [intros [= <-]; split; [done | lia]|].
    destruct (accumulate_step raw idx st) as [st1|] eqn:Hstep; simpl; [|done].
    intros Hrest.
    destruct (accumulate_step_inv _ _ _ _ Hinv Hstep) as [Hinv1 Hlen1].
    destruct (IH _ Hinv1 Hrest) as [Hinv' Hlen']. split; [done | lia].
Qed.

(** With indices that are integers from [-len(raw_photo_data)] on, and
    photos that are JSON objects holding the three values the walk
    subscripts, with a URL that [urlparse] accepts, the walk raises
    nothing. *)
Lemma accumulate_total `{Urllib} count raw ranked st :
  Forall (fun idx => ∃ z, idx = JInt z ∧ (- len raw ≤ z)%Z) ranked →
  Forall (fun photo =>
            ∃ fields base_url photographer photographer_url,
              photo = Photo fields ∧
              urls_regular fields = Ok base_url ∧
              is_Some (urlparse base_url) ∧
              user_name fields = Ok photographer ∧
              user_links_html fields = Ok photographer_url) raw →
  ∃ st', accumulate count raw ranked st = Ok st'.
Proof.
  intros Hidx Hurl. revert st.
  induction Hidx as [|idx ranked (z & -> & Hz) _ IH]; intros st; simpl; [eauto|].
  case_bool_decide; [eauto|].
  assert (∃ st1, take_photo raw z st = Ok st1) as [st1 ->]; [|apply IH].
  unfold take_photo. destruct (Z.ltb_spec z (len raw)); [|eauto].
  assert (∃ photo, py_index raw z = Ok photo ∧ photo ∈ raw) as (photo & -> & Hin).
  { unfold py_index.
    set (j := if (z <? 0)%Z then (z + len raw)%Z else z).
    assert (0 ≤ j < len raw)%Z as Hj by (unfold j; case_match; lia).
    rewrite (proj2 (Z.ltb_ge j 0)) by lia.
    destruct (lookup_lt_is_Some_2 raw (Z.to_nat j)) as [photo Hp];
      [unfold len in Hj; lia|].
    rewrite Hp. eexists. split; [done|]. by eapply list_elem_of_lookup_2. }
  rewrite Forall_forall in Hurl.
  destruct (Hurl _ Hin)
    as (fields & base_url & name & html & -> & Hu & [parsed Hparsed] & Hn & Hh).
  simpl. case_decide; [eauto|]. rewrite Hu. simpl.
  unfold optimize_url. rewrite Hparsed. simpl. case_decide; [eauto|].
  rewrite Hn, Hh. simpl. eauto.
Qed.

(** ** The padding *)

Lemma pad_with_nodup count fallbacks acc :
  NoDup (url <$> acc) → NoDup (url <$> pad_with count fallbacks acc).
Proof.
  revert acc. induction fallbacks as [|fb fallbacks IH]; intros acc Hnd; simpl;
    [done|].
  case_decide as Hin; [by apply IH|].
  assert (NoDup (url <$> acc ++ [fb])) as Hnd'.
  { rewrite fmap_app. apply NoDup_app. split_and!; [done| |apply NoDup_singleton].
    intros v Hv. simpl. rewrite list_elem_of_singleton. by intros ->. }
  case_bool_decide; [done | by apply IH].
Qed.

(** ** The cache replacement *)

Lemma apply_write_committed w c c' :
  w ≠ SqlCommit → apply_write w c = Ok c' → committed c' = committed c.
Proof.
  destruct w; simpl; try done.
  - destruct (txn c); [done|]. by intros _ [= <-].
  - by intros _ [= <-].
  - case_bool_decide; [done|]. by intros _ [= <-].
Qed.

(** A transaction that raises before or at its commit leaves the committed
    table alone. *)
Lemma run_writes_failed fault k body c c' ex tr :
  Forall (fun w => w ≠ SqlCommit) body →
  run_writes fault k (body ++ [SqlCommit]) c = (c', Some ex, tr) →
  committed c' = committed c.
Proof.
  intros Hbody. revert k c tr.
  induction Hbody as [|w body Hw _ IH]; intros k c tr; simpl.
  - destruct (fault k); [by intros [= <- _ _]|]. by intros [= _ ? _].
  - destruct (fault k); [by intros [= <- _ _]|].
    destruct (apply_write w c) as [c1|] eqn:Hw1; [|by intros [= <- _ _]].
    destruct (run_writes fault (S k) (body ++ [SqlCommit]) c1)
      as [[c2 ex2] tr2] eqn:Hrest.
    intros [= <- -> _]. rewrite (IH _ _ _ Hrest).
    by eapply apply_write_committed.
Qed.

(** A transaction that gets through has put the rows behind those it
    started with. *)
Lemma run_inserts_done fault k rows c c' tr :
  run_writes fault k ((SqlInsert <$> rows) ++ [SqlCommit]) c = (c', None, tr) →
  committed c' = working c ++ rows.
Proof.
  revert k c tr. induction rows as [|r rows IH]; intros k c tr; simpl.
  - destruct (fault k); [done|]. intros [= <- _]. simpl. by rewrite app_nil_r.
  - destruct (fault k); [done|].
    case_bool_decide; [done|].
    destruct (run_writes fault (S k) _ _) as [[c2 ex2] tr2] eqn:Hrest.
    intros [= <- -> _]. rewrite (IH _ _ _ Hrest).
    unfold working at 1. simpl. by rewrite <-app_assoc.
Qed.

Lemma cache_writes_body query images :
  cache_writes query images
  = (SqlBegin :: SqlDelete query :: (SqlInsert <$> cache_rows query images))
    ++ [SqlCommit]
  ∧ Forall (fun w => w ≠ SqlCommit)
           (SqlBegin :: SqlDelete query :: (SqlInsert <$> cache_rows query images)).
Proof.
  split; [done|]. repeat (constructor; [done|]).
  apply Forall_fmap, Forall_true. done.
Qed.

(** The committed table after [update_cache]: the old one, or the old one
    with the rows of the query replaced. *)
Lemma update_cache_committed fault query images cache :
  let c' := (update_cache fault query images (mkConn cache None)).1 in
  committed c' = cache ∨
  committed c' = filter (fun r => row_query r ≠ query) cache
                 ++ cache_rows query images.
Proof.
  unfold update_cache.
  destruct (run_writes fault 0 (cache_writes query images) (mkConn cache None))
    as [[c1 [ex|]] tr] eqn:Hrun; simpl.
  - left. destruct (cache_writes_body query images) as [Heq Hbody].
    rewrite Heq in Hrun. by rewrite (run_writes_failed _ _ _ _ _ _ _ Hbody Hrun).
  - right. unfold cache_writes in Hrun. simpl in Hrun.
    destruct (fault 0); [done|]. destruct (fault 1); [done|].
    destruct (run_writes fault 2 _ _) as [[c2 ex2] tr2] eqn:Hrest.
    injection Hrun as <- -> _.
    by rewrite (run_inserts_done _ _ _ _ _ _ Hrest).
Qed.

Lemma writes_app tr1 tr2 : writes (tr1 ++ tr2) = writes tr1 ++ writes tr2.
Proof. apply omap_app. Qed.

Lemma writes_http l : writes (EvHttpGet <$> l) = [].
Proof. by induction l. Qed.

Lemma writes_generate l : writes (EvGenerate <$> l) = [].
Proof. by induction l. Qed.

(** A fault at a statement that the transaction gets to makes it raise. *)
Lemma run_writes_faulty fault k ws c j :
  j < length (writes (run_writes (fun _ => false) k ws c).2) →
  fault (k + j) = true →
  ∃ ex, (run_writes fault k ws c).1.2 = Some ex.
Proof.
  revert k c j. induction ws as [|w ws IH]; intros k c j; simpl; [lia|].
  destruct (fault k) eqn:Hk; [eauto|].
  destruct (apply_write w c) as [c1|]; simpl.
  - specialize (IH (S k) c1).
    destruct (run_writes (fun _ => false) (S k) ws c1) as [[cs exs] trs].
    destruct (run_writes fault (S k) ws c1) as [[cf exf] trf]. simpl in *.
    destruct j as [|j]; [rewrite Nat.add_0_r; congruence|].
    intros Hj Hf. apply (IH j); [lia|].
    by replace (S (k + j)) with (k + S j) by lia.
  - destruct j as [|j]; [rewrite Nat.add_0_r; congruence | lia].
Qed.

Lemma update_cache_faulty fault query images cache j :
  j < length (writes (update_cache (fun _ => false) query images
                                   (mkConn cache None)).2) →
  fault j = true →
  let w := update_cache fault query images (mkConn cache None) in
  committed w.1 = cache ∧ EvRollback ∈ w.2.
Proof.
  unfold update_cache. intros Hj Hf.
  destruct (run_writes_faulty fault 0 (cache_writes query images)
              (mkConn cache None) j) as [ex Hex]; [|done|].
  { destruct (run_writes (fun _ => false) 0 _ _) as [[cs [exs|]] trs];
      simpl in *; [|done].
    by rewrite writes_app, app_nil_r in Hj. }
  destruct (run_writes fault 0 _ _) as [[c1 ex1] tr1] eqn:Hrun.
  simpl in Hex. subst ex1. simpl.
  destruct (cache_writes_body query images) as [Heq Hbody].
  rewrite Heq in Hrun.
  rewrite (run_writes_failed _ _ _ _ _ _ _ Hbody Hrun). split; [done|].
  set_solver.
Qed.

(** The two shapes a call can have, for every behaviour of the cache
    connection: either nothing is written, or the images found by the
    search are written and the result is those images, padded. *)
Lemma fetch_shape `{Text} `{Urllib} (e : env) (cache : table) (query : string)
    (count : Z) :
  (∃ out tr,
     writes tr = [] ∧
     (∀ imgs, out = Ok imgs → cache_ok cache → NoDup (url <$> imgs)) ∧
     ∀ fault, fetch_unsplash_images (with_faults e fault) cache query count
              = mkRun out cache tr) ∨
  (∃ acc padded tr1,
     acc ≠ [] ∧ NoDup (url <$> acc) ∧ NoDup (url <$> padded) ∧
     writes tr1 = [] ∧
     ∀ fault, fetch_unsplash_images (with_faults e fault) cache query count
              = mkRun (Ok (py_take count padded))
                      (committed (update_cache fault query acc
                                               (mkConn cache None)).1)
                      (tr1 ++ (update_cache fault query acc
                                            (mkConn cache None)).2
                           ++ [EvClose])).
Proof.
  unfold fetch_unsplash_images.
  cbn [with_faults UNSPLASH_ACCESS_KEY requests_get ai db_fault].
  set (found := search (requests_get e) count (query_variations_of query)).
  generalize (match filtered_photo_data found with
              | [] => raw_photo_data found
              | r :: l => r :: l
              end).
  intros raw.
  set (ranked := select_best_destination_images (ai e)
                   (destination_name_of query (sanitize query)) raw).
  clearbody found ranked.
  case_bool_decide as Hhit.
  { left. eexists _, _. split_and!; [| |intros fault; reflexivity].
    - done.
    - intros imgs [= <-] Hok. rewrite to_image_url.
      eapply NoDup_prefix; [apply prefix_fmap, py_take_prefix|].
      by apply select_cached_nodup. }
  case_decide as Hkey.
  { left. eexists _, _. split_and!; [| |intros fault; reflexivity].
    - done.
    - intros imgs [= <-] _. apply fallback_from_nodup. }
  destruct raw as [|photo raw].
  { left. eexists _, _. split_and!; [| |intros fault; reflexivity].
    - by rewrite !writes_app, writes_http.
    - intros imgs [= <-] _. apply fallback_from_nodup. }
  destruct (bind ranked.1 _) as [st|ex] eqn:Hwalk.
  2:{ left. eexists _, _. split_and!; [| |intros fault; reflexivity].
      - by rewrite !writes_app, writes_http, writes_generate.
      - done. }
  assert (acc_inv st) as [Hnd _].
  { unfold bind in Hwalk. destruct ranked.1 as [ranked_value|]; [|done].
    destruct (py_iter ranked_value); [|done].
    by apply accumulate_inv in Hwalk as [? _]; [|apply acc_inv_init]. }
  assert (NoDup (url <$>
            (if bool_decide (len (accumulated_images st) < count)%Z
             then pad_with count
                    (get_fallback_images query
                       (count - len (accumulated_images st)))
                    (accumulated_images st)
             else accumulated_images st))) as Hpad.
  { case_bool_decide; [by apply pad_with_nodup | done]. }
  destruct (accumulated_images st) as [|img acc] eqn:Hacc.
  - left. eexists _, _. split_and!; [| |intros fault; reflexivity].
    + by rewrite !writes_app, writes_http, writes_generate.
    + intros imgs [= <-] _.
      eapply NoDup_prefix; [apply prefix_fmap, py_take_prefix | done].
  - right. eexists (img :: acc), _, _.
    split_and!; [done | done | exact Hpad | | intros fault; reflexivity].
    by rewrite !writes_app, writes_http, writes_generate.
Qed.

(** C2: whatever statement of the cache replacement raises, the call
    returns what it returns when nothing fails; and when a statement that
    the transaction gets to does raise, the call still returns a list, the
    rollback is performed and the committed cache is the one before the
    call. *)
Theorem cache_write_failure_contained `{Text} `{Urllib} (e : env) (cache : table)
    (query : string) (count : Z) (fault : nat → bool) :
  let safe :=
    fetch_unsplash_images (with_faults e (fun _ => false)) cache query count in
  let r := fetch_unsplash_images (with_faults e fault) cache query count in
  outcome r = outcome safe ∧
  (∀ k, k < length (writes (trace safe)) → fault k = true →
        cache_after r = cache ∧
        EvRollback ∈ trace r ∧
        ∃ imgs, outcome r = Ok imgs).
Proof.
  intros safe r. unfold safe, r.
  destruct (fetch_shape e cache query count)
    as [(out & tr & Hw & _ & Hrun) | (acc & padded & tr1 & _ & _ & _ & Hw & Hrun)];
    rewrite !Hrun; simpl.
  - split; [done|]. rewrite Hw. simpl. lia.
  - split; [done|]. intros k.
    rewrite !writes_app, Hw, app_nil_r. simpl. intros Hk Hf.
    destruct (update_cache_faulty fault query acc cache k Hk Hf) as [Hc Hr].
    split_and!; [done | set_solver | eauto].
Qed.

(** The first [INSERT] (statement 2) raises: the old row is still there. *)
Lemma cache_write_failure_contained_witness :
  let old := [mkRow "jaipur palace" 0 "https://example.com/old" "Old"
                    "https://example.com/@old"] in
  cache_after (@fetch_unsplash_images ascii_text simple_urllib
                 (with_faults (env_first_page [photo_jaipur] no_ai)
                              (fun k => bool_decide (k = 2)))
                 old "jaipur palace" 2)
  = old.
Proof.
  intros old.
  destruct (@cache_write_failure_contained ascii_text simple_urllib
              (env_first_page [photo_jaipur] no_ai) old "jaipur palace" 2
              (fun k => bool_decide (k = 2))) as [_ Hfail].
  destruct (Hfail 2) as [Hc _]; [vm_compute; lia | reflexivity | exact Hc].
Defined.

(** ** Distinct URLs *)

Lemma cache_rows_query query images :
  Forall (fun r => row_query r = query) (cache_rows query images).
Proof.
  unfold cache_rows. apply Forall_forall. intros r Hr.
  apply elem_of_lookup_imap_1 in Hr as (i & img & -> & _). done.
Qed.


Lemma filter_all {A} (P : A → Prop) `{∀ x, Decision (P x)} (l : list A) :
  Forall P l → filter P l = l.
Proof.
  induction 1 as [|x l Hx _ IH]; [done|].
  by rewrite filter_cons_True, IH.
Qed.

Lemma filter_none {A} (P : A → Prop) `{∀ x, Decision (P x)} (l : list A) :
  Forall (fun x => ¬ P x) l → filter P l = [].
Proof.
  induction 1 as [|x l Hx _ IH]; [done|].
  by rewrite filter_cons_False, IH.
Qed.








(** C1 fails when a search result shares its URL with the fallback the
    padding asks for: with one photo found for a count of 2, the one
    fallback requested is the photo's own URL, it is skipped, and the call
    returns one image, though the pools hold 22 other URLs. *)
Theorem padding_falls_short :
  let r := @fetch_unsplash_images ascii_text simple_urllib
             (env_first_page [photo_road] no_ai) [] "road trip" 2 in
  outcome r
    = Ok [mkImage "https://images.unsplash.com/photo-1469854523086-cc02fe5d8800?auto=format&q=80&w=1200"
                  "Bob" "https://unsplash.com/@bob"] ∧
  @get_fallback_images ascii_text "road trip" (2 - 1)
    = [fallback_image "https://images.unsplash.com/photo-1469854523086-cc02fe5d8800?auto=format&q=80&w=1200"] ∧
  length (@get_fallback_images ascii_text "road trip" 23) = 23 ∧
  NoDup (url <$> @get_fallback_images ascii_text "road trip" 23).
Proof.
  split_and!; [by vm_compute | by vm_compute | by vm_compute |].
  apply fallback_from_nodup.
Qed.

(** ** Side conditions of the embedding *)

Lemma starts_word_snoc cur c :
  cur = "" ∨ starts_word cur → is_space c = false →
  starts_word (cur +:+ String c "").
Proof.
  intros [-> | (c0 & w' & -> & Hc0)] Hc.
  - by exists c, "".
  - exists c0, (w' +:+ String c ""). by rewrite String_app.
Qed.

Lemma str_split_go_words s cur :
  cur = "" ∨ starts_word cur → Forall starts_word (str_split_go s cur).
Proof.
  revert cur. induction s as [|c s IH]; intros cur Hcur; simpl.
  - case_decide; [constructor|]. constructor; [|constructor].
    by destruct Hcur.
  - destruct (is_space c) eqn:Hc.
    + case_decide; [by apply IH; left|].
      constructor; [by destruct Hcur | by apply IH; left].
    + apply IH. right. by apply starts_word_snoc.
Qed.

Lemma str_split_go_nonempty s cur : cur ≠ "" → str_split_go s cur ≠ [].
Proof.
  revert cur. induction s as [|c s IH]; intros cur Hcur; simpl.
  - by rewrite decide_False.
  - destruct (is_space c); [by rewrite decide_False|].
    apply IH. by destruct cur.
Qed.

(** The subscript in [sanitized_query.split()[0] if sanitized_query else
    query] is in range: a non-empty [sanitized_query] has a first word. *)
Lemma sanitize_words_nonempty `{Text} (query : string) :
  split_joins →
  sanitize query ≠ "" → str_split (sanitize query) ≠ [].
Proof.
  intros Hlaw. unfold sanitize.
  rewrite (Hlaw (str_lower query)) by apply sublist_filter.
  by destruct (filter _ _).
Qed.

(** ** More on the walk over the ranking *)

(** An index of [len(raw_photo_data)] or more is passed over. *)
Lemma take_photo_out_of_range `{Urllib} raw idx st :
  (len raw ≤ idx)%Z → take_photo raw idx st = Ok st.
Proof.
  intros Hidx. unfold take_photo. by rewrite (proj2 (Z.ltb_ge idx (len raw))).
Qed.

(** So is a photo whose id has been used. *)
Lemma take_photo_repeated_id `{Urllib} raw idx st photo :
  (idx < len raw)%Z → py_index raw idx = Ok (Photo photo) →
  photo_id photo ∈ used_photo_ids st →
  take_photo raw idx st = Ok st.
Proof.
  intros Hidx Hphoto Hid. unfold take_photo.
  rewrite (proj2 (Z.ltb_lt idx (len raw))) by done. rewrite Hphoto. simpl.
  by rewrite decide_True.
Qed.

(** And one whose normalized URL has been used. *)
Lemma take_photo_repeated_url `{Urllib} raw idx st photo base_url
    optimized_url :
  (idx < len raw)%Z → py_index raw idx = Ok (Photo photo) →
  urls_regular photo = Ok base_url →
  optimize_url base_url = Ok optimized_url →
  optimized_url ∈ used_image_urls st →
  take_photo raw idx st = Ok st.
Proof.
  intros Hidx Hphoto Hbase Hurl Hused. unfold take_photo.
  rewrite (proj2 (Z.ltb_lt idx (len raw))) by done. rewrite Hphoto. simpl.
  case_decide; [done|]. rewrite Hbase. simpl. rewrite Hurl. simpl.
  by rewrite decide_True.
Qed.

(** From an empty accumulator the walk ends with at most [count] images
    (none when [count] is 0 or less). *)
Lemma accumulate_at_most_count `{Urllib} count raw ranked st' :
  accumulate count raw ranked (mkAcc [] ∅ ∅) = Ok st' →
  (len (accumulated_images st') ≤ Z.max 0 count)%Z ∧
  NoDup (url <$> accumulated_images st').
Proof.
  intros Hwalk.
  destruct (accumulate_inv _ _ _ _ _ acc_inv_init Hwalk) as [[Hnd _] Hlen].
  done.
Qed.

(** ** The cache replacement when nothing fails *)

Lemma cache_rows_lookup query images i r :
  cache_rows query images !! i = Some r →
  row_query r = query ∧ image_index r = Z.of_nat i.
Proof.
  unfold cache_rows. rewrite list_lookup_imap.
  destruct (images !! i); simpl; [|done]. by intros [= <-].
Qed.

Lemma cache_rows_keys_nodup query images :
  NoDup (row_key <$> cache_rows query images).
Proof.
  apply NoDup_alt. intros i j key.
  rewrite !list_lookup_fmap.
  destruct (cache_rows query images !! i) as [ri|] eqn:Hi; simpl; [|done].
  destruct (cache_rows query images !! j) as [rj|] eqn:Hj; simpl; [|done].
  apply cache_rows_lookup in Hi as [Hqi Hii].
  apply cache_rows_lookup in Hj as [Hqj Hij].
  unfold row_key. intros [= <-] [= Hq Hidx]. lia.
Qed.

Lemma run_inserts_ok fault k rows c :
  (∀ j, fault j = false) →
  NoDup (row_key <$> rows) →
  (∀ r r', r ∈ rows → r' ∈ working c → row_key r ≠ row_key r') →
  run_writes fault k ((SqlInsert <$> rows) ++ [SqlCommit]) c
  = (mkConn (working c ++ rows) None, None,
     EvWrite <$> ((SqlInsert <$> rows) ++ [SqlCommit])).
Proof.
  intros Hfault. revert k c.
  induction rows as [|r rows IH]; intros k c Hnd Hfresh; simpl.
  - rewrite Hfault. simpl. by rewrite app_nil_r.
  - rewrite Hfault. rewrite bool_decide_eq_false_2.
    2:{ rewrite Exists_exists. intros (r' & Hr' & Hq & Hi).
        apply (Hfresh r r'); [set_solver | done |].
        unfold row_key. congruence. }
    apply NoDup_cons in Hnd as [Hr Hnd].
    rewrite IH; [| done |].
    + unfold working at 1. simpl. by rewrite <-app_assoc.
    + intros r1 r' Hr1. unfold working. simpl.
      rewrite elem_of_app, list_elem_of_singleton. intros [Hr'| ->].
      * apply Hfresh; [set_solver | done].
      * intros Heq. apply Hr. rewrite <-Heq. by apply list_elem_of_fmap_2.
Qed.

(** With no fault the replacement commits: the rows of the query are the
    new ones, the rows of other queries stay, and no rollback happens. *)
Lemma update_cache_succeeds fault query images cache :
  (∀ j, fault j = false) →
  update_cache fault query images (mkConn cache None)
  = (mkConn (filter (fun r => row_query r ≠ query) cache
             ++ cache_rows query images) None,
     EvWrite <$> cache_writes query images).
Proof.
  intros Hfault. unfold update_cache, cache_writes. simpl.
  rewrite !Hfault.
  rewrite run_inserts_ok; [done | done | apply cache_rows_keys_nodup |].
  intros r r' Hr. unfold working. simpl. intros Hr'%list_elem_of_filter.
  pose proof (cache_rows_query query images) as Hq.
  rewrite Forall_forall in Hq. specialize (Hq _ Hr).
  unfold row_key. intros [= Heq _]. destruct Hr' as [Hne _]. congruence.
Qed.

Lemma insert_sorted_last r l :
  Forall (fun r' => (image_index r' ≤ image_index r)%Z) l →
  insert_sorted r l = l ++ [r].
Proof.
  induction 1 as [|r' l Hr' _ IH]; simpl; [done|].
  rewrite (proj2 (Z.ltb_ge _ _)) by done. by rewrite IH.
Qed.

Lemma cache_rows_snoc query images img :
  cache_rows query (images ++ [img])
  = cache_rows query images
    ++ [mkRow query (Z.of_nat (length images)) (url img) (photographer img)
              (photographer_url img)].
Proof.
  unfold cache_rows. rewrite imap_app. simpl. by rewrite Nat.add_0_r.
Qed.

Lemma sort_cache_rows query images :
  foldl (fun acc r => insert_sorted r acc) [] (cache_rows query images)
  = cache_rows query images.
Proof.
  induction images as [|img images IH] using rev_ind; [done|].
  rewrite cache_rows_snoc, foldl_app, IH. simpl.
  apply insert_sorted_last, Forall_forall. intros r Hr.
  apply list_elem_of_lookup in Hr as [i Hi].
  pose proof (lookup_lt_Some _ _ _ Hi) as Hlt.
  apply cache_rows_lookup in Hi as [_ ->].
  unfold cache_rows in Hlt. rewrite length_imap in Hlt. simpl. lia.
Qed.

(** After a replacement that committed, the lookup for the query gives the
    new images in their order, as many as asked for. *)
Lemma lookup_after_replace cache query images count :
  (0 ≤ count)%Z →
  to_image <$> select_cached (filter (fun r => row_query r ≠ query) cache
                              ++ cache_rows query images) query count
  = take (Z.to_nat count) images.
Proof.
  intros Hc. unfold select_cached.
  rewrite filter_app.
  rewrite (filter_none _ (filter _ cache)).
  2:{ apply Forall_forall. intros r Hr%list_elem_of_filter. tauto. }
  rewrite filter_all by apply cache_rows_query. simpl.
  rewrite sort_cache_rows, (proj2 (Z.ltb_ge count 0)) by done.
  rewrite fmap_take. f_equal.
  unfold cache_rows. rewrite fmap_imap.
  rewrite <-(list_fmap_id images) at 2. rewrite <-(imap_const id).
  apply imap_ext. intros i [] _. done.
Qed.

(** ** How many images the fallback selector returns *)

Lemma pool_urls_length : length pool_urls = 23.
Proof. by vm_compute. Qed.

Lemma dest_type_keys_all t : t ∈ dest_type_keys.
Proof. apply list_elem_of_In. destruct t; simpl; tauto. Qed.

Lemma elem_of_pool_urls u : u ∈ pool_urls ↔ ∃ t, u ∈ all_fallback_urls t.
Proof.
  unfold pool_urls. rewrite elem_of_remove_dups, list_elem_of_join. split.
  - intros (l & Hu & Hl). apply list_elem_of_fmap in Hl as (t & -> & _). eauto.
  - intros [t Ht]. exists (all_fallback_urls t). split; [done|].
    apply list_elem_of_fmap_2, dest_type_keys_all.
Qed.

Lemma emit_urls_exact count urls st :
  (1 ≤ count)%Z → (∀ u, u ∈ urls → u ∈ pool_urls) →
  emit_inv count st → emit_exact count st →
  emit_exact count (emit_urls count urls st).
Proof.
  intros Hc. revert st.
  induction urls as [|u urls IH]; intros st Hurls Hinv Hex; simpl; [done|].
  assert (∀ v, v ∈ urls → v ∈ pool_urls) as Hrest
    by (intros v Hv; apply Hurls; by right).
  assert (u ∈ pool_urls) as Hu0 by (apply Hurls; by left).
  destruct (returned st) eqn:Hr; [done|].
  case_decide as Hu; [by apply IH|].
  pose proof (emit_urls_inv count [u] st Hinv) as Hinv'.
  simpl in Hinv'. rewrite Hr, decide_False in Hinv' by done.
  apply IH; [done | done |].
  destruct Hex as [Hknown Hpooled _]. split; simpl.
  - intros v. rewrite fmap_app, elem_of_app, elem_of_union, elem_of_singleton.
    simpl. rewrite list_elem_of_singleton. intros [->|?]; auto.
  - intros v. rewrite fmap_app, elem_of_app. simpl.
    rewrite list_elem_of_singleton. intros [?| ->]; auto.
  - intros Hret%bool_decide_eq_true.
    destruct (emit_short _ _ Hinv Hr) as [Hnil|Hlt].
    + rewrite Hnil in *. unfold len in *. simpl in *. lia.
    + rewrite len_app in *. unfold len in *. simpl in *. lia.
Qed.

Lemma emit_urls_used_mono count urls st u :
  u ∈ used_urls st → u ∈ used_urls (emit_urls count urls st).
Proof.
  revert st. induction urls as [|v urls IH]; intros st Hu; simpl; [done|].
  destruct (returned st); [done|].
  case_decide; [by apply IH|]. apply IH. simpl. set_solver.
Qed.

(** A loop that did not return has emitted all of its URLs. *)
Lemma emit_urls_covers count urls st u :
  returned (emit_urls count urls st) = false →
  u ∈ urls → u ∈ used_urls (emit_urls count urls st).
Proof.
  revert st. induction urls as [|v urls IH]; intros st Hret Hu; simpl in *.
  { by apply elem_of_nil in Hu. }
  destruct (returned st) eqn:Hr; [congruence|].
  apply elem_of_cons in Hu as [->|Hu].
  - case_decide; apply emit_urls_used_mono; [done | simpl; set_solver].
  - case_decide; by apply IH.
Qed.

Lemma emit_others_exact count matched order st :
  (1 ≤ count)%Z → emit_inv count st → emit_exact count st →
  emit_exact count (emit_others count matched order st).
Proof.
  intros Hc. revert st.
  induction order as [|[t s] order IH]; intros st Hinv Hex; simpl; [done|].
  destruct (returned st); [done|].
  case_decide; [by apply IH|].
  apply IH; [by apply emit_urls_inv|].
  apply emit_urls_exact; try done.
  intros u Hu. apply elem_of_pool_urls. eauto.
Qed.

Lemma emit_others_used_mono count matched order st u :
  u ∈ used_urls st → u ∈ used_urls (emit_others count matched order st).
Proof.
  revert st. induction order as [|[t s] order IH]; intros st Hu; simpl; [done|].
  destruct (returned st); [done|].
  case_decide; [by apply IH|]. by apply IH, emit_urls_used_mono.
Qed.

Lemma emit_others_returned count matched order st :
  returned st = true → emit_others count matched order st = st.
Proof. intros Hr. destruct order as [|[t s] order]; simpl; [done | by rewrite Hr]. Qed.

Lemma emit_others_covers count matched order st t u :
  returned (emit_others count matched order st) = false →
  t ∈ order.*1 → t ≠ matched → u ∈ all_fallback_urls t →
  u ∈ used_urls (emit_others count matched order st).
Proof.
  revert st. induction order as [|[t' s] order IH]; intros st Hret Ht Hne Hu;
    simpl in *.
  { by apply elem_of_nil in Ht. }
  destruct (returned st) eqn:Hr; [congruence|].
  apply elem_of_cons in Ht as [->|Ht].
  - rewrite decide_False in * by done.
    apply emit_others_used_mono, emit_urls_covers; [|done].
    destruct (returned (emit_urls count (all_fallback_urls t') st)) eqn:Hr1;
      [|done].
    rewrite emit_others_returned in Hret by done. congruence.
  - case_decide; by apply IH.
Qed.

Lemma insert_desc_perm x l : insert_desc x l ≡ₚ x :: l.
Proof.
  induction l as [|y l IH]; simpl; [done|].
  case_match; [done|]. rewrite IH. apply Permutation_swap.
Qed.

Lemma sorted_desc_perm l : sorted_desc l ≡ₚ l.
Proof.
  unfold sorted_desc. rewrite <-(app_nil_l l) at 2.
  generalize (@nil (dest_type * Z)). induction l as [|x l IH]; intros acc; simpl.
  - by rewrite app_nil_r.
  - rewrite IH, insert_desc_perm. simpl. apply Permutation_middle.
Qed.

Lemma sorted_types_all q t : t ∈ (sorted_types q).*1.
Proof.
  unfold sorted_types. rewrite sorted_desc_perm. unfold scores.
  rewrite <-list_fmap_compose.
  apply list_elem_of_fmap. exists t. split; [done | apply dest_type_keys_all].
Qed.

Lemma length_le_of_incl (l k : list string) :
  NoDup l → (∀ u, u ∈ l → u ∈ k) → (length l ≤ length k)%nat.
Proof. intros Hnd Hsub. by apply submseteq_length, NoDup_submseteq. Qed.

(** For a count of 1 or more the selector returns exactly [count] images,
    up to the 23 distinct URLs the pools hold. *)
Lemma fallback_from_length order matched count :
  (∀ t, t ∈ order.*1) → (1 ≤ count)%Z →
  len (fallback_from order matched count) = Z.min count 23.
Proof.
  intros Hall Hc. unfold fallback_from.
  set (st0 := mkEmit [] ∅ false).
  assert (emit_exact count st0) as Hex0.
  { split; simpl; [by intros u ?%not_elem_of_empty
                  | by intros u ?%elem_of_nil | done]. }
  pose proof (emit_inv_init count) as Hinv0. fold st0 in Hinv0.
  set (st1 := emit_urls count (all_fallback_urls matched) st0).
  assert (emit_inv count st1) as Hinv1 by by apply emit_urls_inv.
  assert (emit_exact count st1) as Hex1.
  { apply emit_urls_exact; try done. intros u Hu. apply elem_of_pool_urls. eauto. }
  set (st2 := emit_others count matched order st1).
  assert (emit_inv count st2) as Hinv2 by by apply emit_others_inv.
  assert (emit_exact count st2) as Hex2 by by apply emit_others_exact.
  assert (∀ st, emit_inv count st → emit_exact count st →
                (len (result_images st) ≤ 23)%Z) as Hbound.
  { intros st Hinv Hex.
    assert (length (url <$> result_images st) ≤ length pool_urls)%nat as Hle
      by (apply length_le_of_incl; [apply Hinv | apply Hex]).
    rewrite length_fmap, pool_urls_length in Hle. unfold len. lia. }
  destruct (returned st1) eqn:Hr1.
  { specialize (Hbound _ Hinv1 Hex1). rewrite (emit_full _ _ Hex1 Hr1) in *. lia. }
  destruct (returned st2) eqn:Hr2.
  { specialize (Hbound _ Hinv2 Hex2). rewrite (emit_full _ _ Hex2 Hr2) in *. lia. }
  assert (len (result_images st2) = 23%Z) as Hlen.
  { specialize (Hbound _ Hinv2 Hex2).
    assert (length pool_urls ≤ length (url <$> result_images st2))%nat as Hge.
    { apply length_le_of_incl; [apply NoDup_remove_dups|].
      intros u [t Hu]%elem_of_pool_urls. apply (emit_known _ _ Hex2).
      destruct (decide (t = matched)) as [->|Hne].
      - apply emit_others_used_mono. by apply emit_urls_covers.
      - by eapply emit_others_covers. }
    rewrite length_fmap, pool_urls_length in Hge. unfold len in *. lia. }
  destruct (emit_short _ _ Hinv2 Hr2) as [Hnil|Hlt].
  { rewrite Hnil in Hlen. done. }
  destruct (result_images st2) as [|img imgs] eqn:Himgs; [done|].
  rewrite py_take_all by lia. lia.
Qed.

Lemma get_fallback_images_length `{Text} query count :
  (1 ≤ count)%Z → len (get_fallback_images query count) = Z.min count 23.
Proof. intros Hc. apply fallback_from_length; [apply sorted_types_all | done]. Qed.

(** Every image of the selector carries the fixed attribution. *)
Lemma emit_urls_attribution count urls st :
  Forall (fun img => img = fallback_image (url img)) (result_images st) →
  Forall (fun img => img = fallback_image (url img))
         (result_images (emit_urls count urls st)).
Proof.
  revert st. induction urls as [|u urls IH]; intros st Hst; simpl; [done|].
  destruct (returned st); [done|].
  case_decide; [by apply IH|]. apply IH. simpl.
  apply Forall_app. split; [done|]. by constructor.
Qed.

Lemma emit_others_attribution count matched order st :
  Forall (fun img => img = fallback_image (url img)) (result_images st) →
  Forall (fun img => img = fallback_image (url img))
         (result_images (emit_others count matched order st)).
Proof.
  revert st. induction order as [|[t s] order IH]; intros st Hst; simpl; [done|].
  destruct (returned st); [done|].
  case_decide; [by apply IH|]. by apply IH, emit_urls_attribution.
Qed.

Lemma get_fallback_images_attribution `{Text} query count :
  Forall (fun img => photographer img = "Unsplash" ∧
                     photographer_url img = "https://unsplash.com")
         (get_fallback_images query count).
Proof.
  assert (Forall (fun img => img = fallback_image (url img))
                 (get_fallback_images query count)) as Hattr.
  { unfold get_fallback_images, fallback_from.
    set (st1 := emit_urls _ _ _).
    assert (Forall (fun img => img = fallback_image (url img))
                   (result_images st1)) as H1
      by (apply emit_urls_attribution; constructor).
    destruct (returned st1); [done|].
    set (st2 := emit_others _ _ _ _).
    assert (Forall (fun img => img = fallback_image (url img))
                   (result_images st2)) as H2
      by by apply emit_others_attribution.
    destruct (returned st2); [done|].
    destruct (result_images st2) as [|img imgs] eqn:Himgs.
    - by repeat constructor.
    - destruct (py_take_prefix count (img :: imgs)) as [rest Hrest].
      rewrite Hrest in H2. by apply Forall_app in H2 as [? _]. }
  eapply Forall_impl; [done|]. simpl. by intros img ->.
Qed.

(** Without a search credential a call that misses the cache returns
    exactly [count] fallback images (23 at most), with the fixed
    attribution. *)
Lemma fetch_without_key `{Text} `{Urllib} e cache query count :
  UNSPLASH_ACCESS_KEY e = "" →
  (1 ≤ count)%Z →
  (len (select_cached cache query count) < count)%Z →
  ∃ imgs, outcome (fetch_unsplash_images e cache query count) = Ok imgs ∧
          len imgs = Z.min count 23 ∧
          Forall (fun img => photographer img = "Unsplash" ∧
                             photographer_url img = "https://unsplash.com") imgs.
Proof.
  intros Hkey Hc Hmiss. unfold fetch_unsplash_images.
  rewrite bool_decide_eq_false_2 by lia. rewrite decide_True by done. simpl.
  eexists. split_and!; [done | by apply get_fallback_images_length
                       | apply get_fallback_images_attribution].
Qed.

(** A keyword that occurs twice still counts once. *)
Lemma score_counts_keywords_once :
  score (lower_ascii "Beach beach") Water = 1%Z.
Proof. by vm_compute. Qed.

(** The padding passes over a fallback whose URL is already there. *)
Lemma pad_with_skips count fallback rest acc :
  url fallback ∈ url <$> acc →
  pad_with count (fallback :: rest) acc = pad_with count rest acc.
Proof. intros Hin. simpl. by rewrite decide_True. Qed.

(** ** When the padding does reach the count *)

Lemma pad_with_length count fallbacks acc :
  NoDup (url <$> fallbacks) →
  (∀ fallback, fallback ∈ fallbacks → url fallback ∉ url <$> acc) →
  (len acc < count)%Z →
  len (pad_with count fallbacks acc) = Z.min count (len acc + len fallbacks).
Proof.
  revert acc. induction fallbacks as [|fb fallbacks IH]; intros acc Hnd Hnew Hlt.
  { simpl. unfold len at 3. simpl. lia. }
  rewrite fmap_cons in Hnd. apply NoDup_cons in Hnd as [Hfb Hnd].
  cbn [pad_with]. rewrite decide_False by (apply Hnew; by left).
  assert (len (fb :: fallbacks) = 1 + len fallbacks)%Z as ->
    by (unfold len; simpl; lia).
  assert (len (acc ++ [fb]) = len acc + 1)%Z as Hlen
    by (rewrite len_app; unfold len; simpl; lia).
  assert (0 ≤ len fallbacks)%Z as Hnn by (unfold len; lia).
  case_bool_decide as Hfull; [lia|].
  rewrite IH; [lia | done | | lia].
  intros fb' Hfb'. rewrite fmap_app, elem_of_app. simpl.
  rewrite list_elem_of_singleton. intros [Hin|Heq].
  - by apply (Hnew fb'); [right|].
  - apply Hfb. rewrite <-Heq. by apply list_elem_of_fmap_2.
Qed.

(** With fewer than [count] images found, a deficit the pools can cover,
    and no requested fallback already among the images found, the padded
    list has exactly [count] images. *)
Lemma padding_reaches_count `{Text} query count acc :
  (len acc < count)%Z → (count - len acc ≤ 23)%Z →
  (∀ fallback, fallback ∈ get_fallback_images query (count - len acc) →
               url fallback ∉ url <$> acc) →
  len (py_take count
         (pad_with count (get_fallback_images query (count - len acc)) acc))
  = count.
Proof.
  intros Hlt Hpool Hnew.
  pose proof (get_fallback_images_length query (count - len acc)) as Hfb.
  rewrite py_take_all; rewrite pad_with_length; try done;
    try apply fallback_from_nodup; lia.
Qed.

(** * Further properties of the pipeline *)

(** ** The search loop *)

Lemma collect_calls `{Text} results st :
  http_calls (collect results st).1 = http_calls st ∧
  stopped (collect results st).1 = stopped st.
Proof.
  revert st. induction results as [|photo results IH]; intros st; simpl; [done|].
  destruct (has_people_focus photo) as [focus|ex]; [|done].
  destruct (IH (mkSearch (raw_photo_data st ++ [photo])
                  (if focus then filtered_photo_data st
                   else filtered_photo_data st ++ [photo])
                  (stopped st) (http_calls st))) as [-> ->]. done.
Qed.

Lemma collect_filtered `{Text} results st :
  filtered_photo_data st
    = filter (fun photo => has_people_focus photo = Ok false)
             (raw_photo_data st) →
  filtered_photo_data (collect results st).1
    = filter (fun photo => has_people_focus photo = Ok false)
             (raw_photo_data (collect results st).1).
Proof.
  revert st. induction results as [|photo results IH]; intros st Hst; simpl;
    [done|].
  destruct (has_people_focus photo) as [focus|ex] eqn:Hp.
  - apply IH. simpl. rewrite filter_app, Hst. destruct focus.
    + rewrite filter_cons_False by (rewrite Hp; done). by rewrite app_nil_r.
    + by rewrite filter_cons_True by done.
  - simpl. rewrite filter_app, Hst.
    rewrite filter_cons_False by (rewrite Hp; done). by rewrite app_nil_r.
Qed.

Lemma search_attempt_inv `{Text} get count qv k st :
  k < length qv → search_inv count qv k st →
  search_inv count qv (S k) (search_attempt get count qv st k).
Proof.
  intros Hk [Hcalls Hrun Hfil Hstop]. unfold search_attempt.
  destruct (stopped st) eqn:Hs.
  { split; [done | congruence | done | intros _; by apply Hstop]. }
  destruct (lookup_lt_is_Some_2 qv k Hk) as [x Hx]. rewrite Hx. simpl.
  assert (http_calls st ++ [x] = take (S k) qv) as Hnext
    by (rewrite Hrun by done; by rewrite (take_S_r _ _ _ Hx)).
  set (st1 := mkSearch (raw_photo_data st) (filtered_photo_data st) false
                       (http_calls st ++ [x])).
  assert (search_inv count qv (S k) st1) as Hst1.
  { split; simpl; try done. rewrite Hnext. apply prefix_take. }
  destruct (get k x) as [|code body]; [done|].
  case_decide; [|done]. destruct body as [results|]; [|done].
  destruct (collect_calls results st1) as [Hc Hs1].
  pose proof (collect_filtered results st1 Hfil) as Hf.
  destruct (collect results st1) as [st2 raised]. simpl in Hc, Hs1, Hf.
  destruct raised.
  - split.
    + rewrite Hc. simpl. rewrite Hnext. apply prefix_take.
    + intros _. by rewrite Hc.
    + done.
    + rewrite Hs1. done.
  - split; simpl.
    + rewrite Hc. simpl. rewrite Hnext. apply prefix_take.
    + intros _. by rewrite Hc.
    + done.
    + by intros ?%bool_decide_eq_true.
Qed.

Lemma search_inv_fold `{Text} get count qv n k st :
  (k + n ≤ length qv)%nat → search_inv count qv k st →
  search_inv count qv (k + n)
    (foldl (search_attempt get count qv) st (seq k n)).
Proof.
  revert k st. induction n as [|n IH]; intros k st Hk Hst; simpl.
  - by rewrite Nat.add_0_r.
  - replace (k + S n) with (S k + n) by lia.
    apply IH; [lia|]. apply search_attempt_inv; [lia | done].
Qed.

Lemma search_keeps_inv `{Text} get count qv :
  search_inv count qv (length qv) (search get count qv).
Proof.
  unfold search. apply (search_inv_fold get count qv (length qv) 0); [lia|].
  split; simpl; try done. apply prefix_nil.
Qed.

Lemma try_models_called cl prompt models :
  (try_models cl prompt models).2 `prefix_of` models.
Proof.
  induction models as [|m models IH]; simpl; [done|].
  assert ((m :: (try_models cl prompt models).2) `prefix_of` (m :: models))
    as Hnext by by apply prefix_cons.
  assert ([m] `prefix_of` (m :: models)) as Hone
    by (apply prefix_cons, prefix_nil).
  destruct (cl m prompt) as [| | |[]]; simpl; try done.
  by case_match.
Qed.

Lemma ranker_called ai destination image_candidates :
  (select_best_destination_images ai destination image_candidates).2
  `prefix_of` models_to_try.
Proof.
  unfold select_best_destination_images.
  destruct (client ai); [|apply prefix_nil].
  case_match; [apply prefix_nil|].
  destruct (map_result describe image_candidates); [|apply prefix_nil].
  apply try_models_called.
Qed.

(** ** The four ways a call can go *)

Lemma fetch_cases `{Text} `{Urllib} (e : env) (cache : table) (query : string)
    (count : Z) :
  let r := fetch_unsplash_images e cache query count in
  let cached := select_cached cache query count in
  ((count ≤ len cached)%Z ∧
   r = mkRun (Ok (to_image <$> py_take count cached)) cache
             [EvSelect query count; EvClose]) ∨
  ((len cached < count)%Z ∧
   ∃ calls, calls `prefix_of` query_variations_of query ∧
     ((∃ ex models, models `prefix_of` models_to_try ∧
         r = mkRun (Raise ex) cache
               ([EvSelect query count] ++ (EvHttpGet <$> calls)
                ++ (EvGenerate <$> models))) ∨
      r = mkRun (Ok (get_fallback_images query count)) cache
                ([EvSelect query count] ++ (EvHttpGet <$> calls) ++ [EvClose]) ∨
      (∃ acc models, models `prefix_of` models_to_try ∧
         NoDup (url <$> acc) ∧ (len acc ≤ Z.max 0 count)%Z ∧
         r = mkRun (Ok (py_take count (padded_for query count acc)))
                   (committed (written_for (db_fault e) cache query acc).1)
                   ([EvSelect query count] ++ (EvHttpGet <$> calls)
                    ++ (EvGenerate <$> models)
                    ++ (written_for (db_fault e) cache query acc).2
                    ++ [EvClose])))).
Proof.
  intros r cached. unfold r, cached, fetch_unsplash_images.
  case_bool_decide as Hhit; [by left|]. right. split; [lia|].
  case_decide as Hkey.
  { exists []. split; [apply prefix_nil|]. right. left. done. }
  pose proof (search_calls _ _ _ _
                (search_keeps_inv (requests_get e) count
                                  (query_variations_of query))) as Hcalls.
  set (found := search (requests_get e) count (query_variations_of query)) in *.
  exists (http_calls found). split; [done|].
  generalize (match filtered_photo_data found with
              | [] => raw_photo_data found
              | r :: l => r :: l
              end).
  intros raw. destruct raw as [|photo raw].
  { right. left. by rewrite <-!app_assoc. }
  pose proof (ranker_called (ai e) (destination_name_of query (sanitize query))
                (photo :: raw)) as Hmodels.
  set (ranked := select_best_destination_images (ai e)
                   (destination_name_of query (sanitize query))
                   (photo :: raw)) in *.
  destruct (bind ranked.1 _) as [st|ex] eqn:Hwalk.
  2:{ left. exists ex, ranked.2. split; [done|]. by rewrite <-!app_assoc. }
  right. right.
  assert (acc_inv st ∧ (len (accumulated_images st) ≤ Z.max 0 count)%Z)
    as [[Hnd _] Hlen].
  { unfold bind in Hwalk. destruct ranked.1 as [ranked_value|]; [|done].
    destruct (py_iter ranked_value); [|done].
    apply accumulate_inv in Hwalk as [? Hl]; [|apply acc_inv_init].
    split; [done|]. unfold len in Hl at 2. simpl in Hl. done. }
  exists (accumulated_images st), ranked.2. split_and!; try done.
  unfold padded_for, written_for. by rewrite <-!app_assoc.
Qed.

(** ** Sizes *)

Lemma len_py_take_le {A} (n : Z) (l : list A) :
  (0 ≤ n)%Z → (len (py_take n l) ≤ n)%Z.
Proof.
  intros Hn. unfold py_take, len. rewrite (proj2 (Z.leb_le 0 n)) by done.
  rewrite length_take. lia.
Qed.

Lemma py_take_nonempty {A} (n : Z) (l : list A) :
  (1 ≤ n)%Z → l ≠ [] → py_take n l ≠ [].
Proof.
  intros Hn Hl. unfold py_take. rewrite (proj2 (Z.leb_le 0 n)) by lia.
  destruct l as [|x l]; [done|].
  destruct (Z.to_nat n) as [|m] eqn:Hm; [lia | done].
Qed.

Lemma py_take_fmap {A B} (f : A → B) (n : Z) (l : list A) :
  f <$> py_take n l = py_take n (f <$> l).
Proof. unfold py_take. rewrite length_fmap. case_match; apply fmap_take. Qed.

Lemma pad_with_prefix count fallbacks acc :
  acc `prefix_of` pad_with count fallbacks acc.
Proof.
  revert acc. induction fallbacks as [|fb fallbacks IH]; intros acc; simpl;
    [done|].
  case_decide; [apply IH|].
  case_bool_decide; [by apply prefix_app_r|].
  etrans; [|apply IH]. by apply prefix_app_r.
Qed.

Lemma padded_for_prefix `{Text} query count acc :
  acc `prefix_of` padded_for query count acc.
Proof. unfold padded_for. case_bool_decide; [apply pad_with_prefix | done]. Qed.

Lemma get_fallback_images_cons `{Text} query count :
  ∃ img more, get_fallback_images query count = img :: more.
Proof.
  destruct (all_fallback_urls_first (matched_type (str_lower query)))
    as (u & rest & Hu).
  destruct (fallback_from_first (sorted_types (str_lower query)) _ count
              u rest Hu) as (more & Hf & _).
  unfold get_fallback_images. rewrite Hf. eauto.
Qed.

Lemma padded_for_nonempty `{Text} query count acc :
  (1 ≤ count)%Z → padded_for query count acc ≠ [].
Proof.
  intros Hc. destruct acc as [|img acc].
  - unfold padded_for. rewrite bool_decide_eq_true_2 by (unfold len; simpl; lia).
    destruct (get_fallback_images_cons query (count - len (@nil ResolvedImage)))
      as (fb & fbs & ->).
    cbn [pad_with]. rewrite decide_False by (by intros ?%elem_of_nil).
    case_bool_decide; [done|].
    pose proof (pad_with_prefix count fbs ([] ++ [fb])) as [more ->]. done.
  - pose proof (padded_for_prefix query count (img :: acc)) as [more ->]. done.
Qed.

(** X3: for a count of 1 or more, a call that returns gives at least one
    image and at most [count]; so for a count of 1 it gives exactly one. *)
Theorem result_size `{Text} `{Urllib} (e : env) (cache : table) (query : string)
    (count : Z) (imgs : list ResolvedImage) :
  (1 ≤ count)%Z →
  outcome (fetch_unsplash_images e cache query count) = Ok imgs →
  (1 ≤ len imgs ≤ count)%Z.
Proof.
  intros Hc.
  destruct (fetch_cases e cache query count)
    as [[Hhit ->] | [Hmiss (calls & _ & [(ex & models & _ & ->) | [-> |
         (acc & models & _ & _ & _ & ->)]])]]; simpl.
  - intros [= <-]. unfold py_take, len in *.
    rewrite (proj2 (Z.leb_le 0 count)) by lia.
    rewrite length_fmap, length_take. lia.
  - done.
  - intros [= <-]. rewrite get_fallback_images_length by done. lia.
  - intros [= <-]. split; [|apply len_py_take_le; lia].
    pose proof (py_take_nonempty count _ Hc
                  (padded_for_nonempty query count acc Hc)) as Hne.
    destruct (py_take count _); [done|]. unfold len. simpl. lia.
Qed.

(** The accommodation page asks for one image of Jaipur and gets one. *)
Lemma result_size_witness :
  ∃ imgs, outcome (@fetch_unsplash_images ascii_text simple_urllib
                     (env_first_page [photo_jaipur] no_ai) []
                     "Jaipur city landmark" 1) = Ok imgs ∧
          len imgs = 1%Z.
Proof.
  assert (outcome (@fetch_unsplash_images ascii_text simple_urllib
                     (env_first_page [photo_jaipur] no_ai) []
                     "Jaipur city landmark" 1)
          = Ok [mkImage "https://images.unsplash.com/photo-1599661046289-e31897846e41?ixid=abc&w=1080&auto=format&q=80"
                        "Ann" "https://unsplash.com/@ann"]) as Hrun
    by (vm_compute; reflexivity).
  eexists. split; [exact Hrun|].
  pose proof (@result_size ascii_text simple_urllib _ _ _ 1 _ ltac:(lia) Hrun). lia.
Defined.

(** X1: for a count of 1 or more [get_fallback_images] returns exactly
    [count] images, or all 23 distinct URLs of the pools when [count] is
    larger, each with the attribution Unsplash / https://unsplash.com. *)
Theorem fallback_exact_count `{Text} (query : string) (count : Z) :
  (1 ≤ count)%Z →
  len (get_fallback_images query count) = Z.min count 23 ∧
  Forall (fun img => photographer img = "Unsplash" ∧
                     photographer_url img = "https://unsplash.com" ∧
                     ∃ t, url img ∈ all_fallback_urls t)
         (get_fallback_images query count).
Proof.
  intros Hc. split; [by apply get_fallback_images_length|].
  pose proof (get_fallback_images_attribution query count) as Hattr.
  rewrite Forall_forall in *. intros img Himg.
  destruct (Hattr img Himg) as [? ?]. split_and!; try done.
  apply elem_of_pool_urls.
  unfold get_fallback_images, fallback_from in Himg.
  set (st0 := mkEmit [] ∅ false) in *.
  assert (emit_exact count st0) as Hex0.
  { split; simpl; [by intros u ?%not_elem_of_empty
                  | by intros u ?%elem_of_nil | done]. }
  pose proof (emit_inv_init count) as Hinv0. fold st0 in Hinv0.
  set (matched := matched_type (str_lower query)) in *.
  set (st1 := emit_urls count (all_fallback_urls matched) st0) in *.
  assert (emit_inv count st1) as Hinv1 by by apply emit_urls_inv.
  assert (emit_exact count st1) as Hex1.
  { apply emit_urls_exact; try done. intros u Hu. apply elem_of_pool_urls. eauto. }
  set (st2 := emit_others count matched (sorted_types (str_lower query)) st1) in *.
  assert (emit_exact count st2) as Hex2 by by apply emit_others_exact.
  destruct (returned st1).
  { apply (emit_pooled _ _ Hex1). by apply list_elem_of_fmap_2. }
  destruct (returned st2).
  { apply (emit_pooled _ _ Hex2). by apply list_elem_of_fmap_2. }
  destruct (result_images st2) as [|img0 imgs0] eqn:Himgs.
  { apply list_elem_of_singleton in Himg as ->.
    apply elem_of_pool_urls. exists Scenic. simpl. by left. }
  apply (emit_pooled _ _ Hex2). apply list_elem_of_fmap_2. rewrite Himgs.
  destruct (py_take_prefix count (img0 :: imgs0)) as [rest Hrest].
  rewrite Hrest. apply elem_of_app. by left.
Qed.

(** Thirty images asked, twenty-three returned. *)
Lemma fallback_exact_count_witness :
  len (@get_fallback_images ascii_text "hill station" 30) = 23%Z.
Proof.
  destruct (@fallback_exact_count ascii_text "hill station" 30) as [-> _]; [lia | done].
Defined.

(** X2: without a search credential a call that misses the cache sends no
    request and calls no model; for a count of 1 or more it returns exactly
    [count] fallback images (23 at most) with the fixed attribution and
    leaves the cache as it was. *)
Theorem no_credential_gives_fallbacks `{Text} `{Urllib} (e : env) (cache : table)
    (query : string) (count : Z) :
  UNSPLASH_ACCESS_KEY e = "" →
  (1 ≤ count)%Z →
  (len (select_cached cache query count) < count)%Z →
  let r := fetch_unsplash_images e cache query count in
  outcome r = Ok (get_fallback_images query count) ∧
  len (get_fallback_images query count) = Z.min count 23 ∧
  Forall (fun img => photographer img = "Unsplash" ∧
                     photographer_url img = "https://unsplash.com")
         (get_fallback_images query count) ∧
  cache_after r = cache ∧
  trace r = [EvSelect query count; EvClose].
Proof.
  intros Hkey Hc Hmiss. unfold fetch_unsplash_images.
  rewrite bool_decide_eq_false_2 by lia. rewrite decide_True by done. simpl.
  split_and!; [done | by apply get_fallback_images_length
              | apply get_fallback_images_attribution | done | done].
Qed.

(** The dashboard's four images with no key configured. *)
Lemma no_credential_gives_fallbacks_witness :
  len (@get_fallback_images ascii_text "Goa India" 4) = 4%Z.
Proof.
  destruct (@no_credential_gives_fallbacks ascii_text simple_urllib
              (mkEnv "" (fun _ _ => HttpRaises) no_ai (fun _ => false))
              [] "Goa India" 4 eq_refl) as (_ & -> & _); [lia | by vm_compute | done].
Defined.

(** ** The cache between calls *)

Lemma select_cached_other cache query images q count :
  q ≠ query →
  select_cached (filter (fun r => row_query r ≠ query) cache
                 ++ cache_rows query images) q count
  = select_cached cache q count.
Proof.
  intros Hne. unfold select_cached.
  rewrite filter_app, (filter_none _ (cache_rows _ _)).
  2:{ eapply Forall_impl; [apply cache_rows_query|]. simpl. congruence. }
  rewrite app_nil_r, list_filter_filter.
  rewrite (list_filter_iff _ (fun r => row_query r = q)); [done|].
  intros r. split; [tauto | intros ->; auto].
Qed.


Lemma written_for_committed fault cache query acc :
  committed (written_for fault cache query acc).1 = cache ∨
  (acc ≠ [] ∧
   committed (written_for fault cache query acc).1
   = filter (fun r => row_query r ≠ query) cache ++ cache_rows query acc).
Proof.
  unfold written_for. destruct acc as [|img acc]; [by left|].
  destruct (update_cache_committed fault query (img :: acc) cache) as [?|?];
    [by left | by right].
Qed.

(** X4: a call served from the cache after an earlier call for the same
    query and count returns the list the earlier call returned, whatever
    the services do in the meantime, and changes nothing. *)
Theorem cached_result_replayed `{Text} `{Urllib} (e e' : env) (cache : table)
    (query : string) (count : Z) (imgs : list ResolvedImage) :
  let r := fetch_unsplash_images e cache query count in
  outcome r = Ok imgs →
  (count ≤ len (select_cached (cache_after r) query count))%Z →
  let r' := fetch_unsplash_images e' (cache_after r) query count in
  outcome r' = Ok imgs ∧
  cache_after r' = cache_after r ∧
  trace r' = [EvSelect query count; EvClose].
Proof.
  intros r Hout Hhit r'.
  assert (r' = mkRun (Ok (to_image <$> py_take count
                            (select_cached (cache_after r) query count)))
                     (cache_after r) [EvSelect query count; EvClose]) as ->.
  { unfold r', fetch_unsplash_images. by rewrite bool_decide_eq_true_2. }
  simpl. split; [|done]. f_equal. revert Hout Hhit. unfold r.
  destruct (fetch_cases e cache query count)
    as [[_ ->] | [Hmiss (calls & _ & [(ex & models & _ & ->) | [-> |
         (acc & models & _ & _ & Hlen & ->)]])]]; simpl.
  - by intros [= <-].
  - done.
  - lia.
  - intros [= <-].
    destruct (written_for_committed (db_fault e) cache query acc)
      as [-> | [_ ->]]; [lia|].
    assert (0 ≤ count)%Z as Hc by (unfold len in Hmiss; lia).
    intros Hhit. rewrite py_take_fmap, lookup_after_replace by done.
    assert (len acc = count) as Hacc.
    { pose proof (f_equal (@length _) (lookup_after_replace cache query acc count Hc))
        as Hl.
      rewrite length_fmap, length_take in Hl. unfold len in *. lia. }
    unfold padded_for. rewrite bool_decide_eq_false_2 by lia.
    rewrite py_take_all by (unfold len in *; rewrite length_take; lia).
    rewrite py_take_all by lia. apply take_ge. unfold len in *. lia.
Qed.

(** A photo found and cached, then asked for again with the search down. *)
Lemma cached_result_replayed_witness :
  outcome (@fetch_unsplash_images ascii_text simple_urllib
             (mkEnv "access-key" (fun _ _ => HttpRaises) no_ai (fun _ => false))
             (cache_after (@fetch_unsplash_images ascii_text simple_urllib
                             (env_first_page [photo_jaipur] no_ai) []
                             "jaipur palace" 1))
             "jaipur palace" 1)
  = Ok [mkImage "https://images.unsplash.com/photo-1599661046289-e31897846e41?ixid=abc&w=1080&auto=format&q=80"
                "Ann" "https://unsplash.com/@ann"].
Proof.
  refine (proj1 (@cached_result_replayed ascii_text simple_urllib
                   (env_first_page [photo_jaipur] no_ai) _ [] "jaipur palace" 1
                   _ _ _)).
  - vm_compute. reflexivity.
  - vm_compute. discriminate.
Defined.



(** X6: a call never changes what is cached for another query. *)
Theorem other_queries_untouched `{Text} `{Urllib} (e : env) (cache : table)
    (query q : string) (count n : Z) :
  q ≠ query →
  select_cached (cache_after (fetch_unsplash_images e cache query count)) q n
  = select_cached cache q n.
Proof.
  intros Hne.
  destruct (fetch_cases e cache query count)
    as [[_ ->] | [_ (calls & _ & [(ex & models & _ & ->) | [-> |
         (acc & models & _ & _ & _ & ->)]])]]; simpl; try done.
  destruct (written_for_committed (db_fault e) cache query acc)
    as [-> | [_ ->]]; [done|]. by apply select_cached_other.
Qed.

(** The rows of "agra" after a call for "jaipur palace" that wrote. *)
Lemma other_queries_untouched_witness :
  select_cached
    (cache_after (@fetch_unsplash_images ascii_text simple_urllib
                    (env_first_page [photo_jaipur] no_ai)
                    [mkRow "agra" 0 "https://example.com/c" "C" "https://example.com/@c"]
                    "jaipur palace" 1))
    "agra" 4
  = [mkRow "agra" 0 "https://example.com/c" "C" "https://example.com/@c"].
Proof.
  rewrite (@other_queries_untouched ascii_text simple_urllib); [reflexivity | discriminate].
Defined.

(** ** What a call sends out *)

Lemma requests_app tr1 tr2 : requests (tr1 ++ tr2) = requests tr1 ++ requests tr2.
Proof. apply omap_app. Qed.

Lemma model_calls_app tr1 tr2 :
  model_calls (tr1 ++ tr2) = model_calls tr1 ++ model_calls tr2.
Proof. apply omap_app. Qed.

Lemma requests_http l : requests (EvHttpGet <$> l) = l.
Proof. induction l as [|x l IH]; [done|]. unfold requests in *. simpl. by f_equal. Qed.

Lemma requests_generate l : requests (EvGenerate <$> l) = [].
Proof. by induction l. Qed.

Lemma model_calls_http l : model_calls (EvHttpGet <$> l) = [].
Proof. by induction l. Qed.

Lemma model_calls_generate l : model_calls (EvGenerate <$> l) = l.
Proof.
  induction l as [|x l IH]; [done|]. unfold model_calls in *. simpl. by f_equal.
Qed.

Lemma run_writes_events fault k ws c :
  ∃ done_, done_ `prefix_of` ws ∧
    (run_writes fault k ws c).2 = EvWrite <$> done_.
Proof.
  revert k c. induction ws as [|w ws IH]; intros k c; simpl.
  { exists []. done. }
  destruct (fault k).
  { exists [w]. split; [apply prefix_cons, prefix_nil | done]. }
  destruct (apply_write w c) as [c1|].
  - destruct (IH (S k) c1) as (d & Hd & Htr).
    destruct (run_writes fault (S k) ws c1) as [[c2 ex] tr]. simpl in *.
    exists (w :: d). split; [by apply prefix_cons | by rewrite Htr].
  - exists [w]. split; [apply prefix_cons, prefix_nil | done].
Qed.

Lemma written_for_events fault cache query acc :
  requests (written_for fault cache query acc).2 = [] ∧
  model_calls (written_for fault cache query acc).2 = [] ∧
  writes (written_for fault cache query acc).2 `prefix_of` cache_writes query acc.
Proof.
  unfold written_for. destruct acc as [|img acc]; [by split_and!; [..|apply prefix_nil]|].
  unfold update_cache.
  destruct (run_writes_events fault 0 (cache_writes query (img :: acc))
              (mkConn cache None)) as (d & Hd & Htr).
  destruct (run_writes fault 0 _ _) as [[c1 ex] tr]. simpl in Htr. subst tr.
  assert (requests (EvWrite <$> d) = [] ∧ model_calls (EvWrite <$> d) = [] ∧
          writes (EvWrite <$> d) = d) as (Hr & Hm & Hw).
  { clear. induction d as [|w d (IH1 & IH2 & IH3)]; [done|].
    unfold requests, model_calls, writes in *. simpl.
    split_and!; [done | done | by f_equal]. }
  destruct ex; simpl.
  - rewrite requests_app, model_calls_app, writes_app, Hr, Hm, Hw. simpl.
    by rewrite app_nil_r.
  - by rewrite Hr, Hm, Hw.
Qed.

(** X7: in one call the search requests are an initial part of the five
    query variations, in their order; the models called are an initial
    part of the two model variants; and the write statements are an
    initial part of one replacement transaction. Nothing is sent twice and
    nothing else is sent. *)
Theorem external_calls_bounded `{Text} `{Urllib} (e : env) (cache : table)
    (query : string) (count : Z) :
  let tr := trace (fetch_unsplash_images e cache query count) in
  requests tr `prefix_of` query_variations_of query ∧
  model_calls tr `prefix_of` models_to_try ∧
  (∃ acc, writes tr `prefix_of` cache_writes query acc ∧
          (len acc ≤ Z.max 0 count)%Z) ∧
  (length (requests tr) ≤ 5)%nat ∧ (length (model_calls tr) ≤ 2)%nat.
Proof.
  intros tr.
  assert (requests tr `prefix_of` query_variations_of query ∧
          model_calls tr `prefix_of` models_to_try ∧
          (∃ acc, writes tr `prefix_of` cache_writes query acc ∧
                  (len acc ≤ Z.max 0 count)%Z)) as (Hr & Hm & Hw).
  { unfold tr.
    destruct (fetch_cases e cache query count)
      as [[_ ->] | [_ (calls & Hcalls & [(ex & models & Hmodels & ->) | [-> |
           (acc & models & Hmodels & _ & Hlen & ->)]])]]; simpl.
    - split_and!; [apply prefix_nil | apply prefix_nil |].
      exists []. split; [apply prefix_nil | unfold len; simpl; lia].
    - rewrite !requests_app, !model_calls_app, !writes_app, requests_http,
        requests_generate, model_calls_http, model_calls_generate, writes_http,
        writes_generate. simpl. rewrite !app_nil_r.
      split_and!; [done | done |].
      exists []. split; [apply prefix_nil | unfold len; simpl; lia].
    - rewrite !requests_app, !model_calls_app, !writes_app, requests_http,
        model_calls_http, writes_http. simpl. rewrite !app_nil_r.
      split_and!; [done | apply prefix_nil |].
      exists []. split; [apply prefix_nil | unfold len; simpl; lia].
    - destruct (written_for_events (db_fault e) cache query acc)
        as (Hwr & Hwm & Hww).
      rewrite !requests_app, !model_calls_app, !writes_app, requests_http,
        requests_generate, model_calls_http, model_calls_generate, writes_http,
        writes_generate, Hwr, Hwm. simpl. rewrite !app_nil_r.
      split_and!; [done | done |]. exists acc. done. }
  split_and!; try done.
  - apply prefix_length in Hr. etrans; [exact Hr|]. done.
  - apply prefix_length in Hm. etrans; [exact Hm|]. done.
Qed.


(** ** URL normalization, again *)

Lemma dict_set_fresh {V} (k : string) (v : V) d :
  k ∉ d.*1 → dict_set k v d = d ++ [(k, v)].
Proof.
  induction d as [|[k0 v0] d IH]; intros Hk; [done|].
  cbn [dict_set]. rewrite fmap_cons in Hk. apply not_elem_of_cons in Hk as [Hne Hk].
  rewrite decide_False by done. by rewrite IH.
Qed.

Lemma dict_of_pairs_id {V} (d : list (string * V)) :
  NoDup d.*1 → dict_of_pairs d = d.
Proof.
  induction d as [|[k v] d IH] using rev_ind; intros Hnd; [done|].
  rewrite fmap_app in Hnd. apply NoDup_app in Hnd as (Hd & Hk & _).
  rewrite dict_of_pairs_snoc, IH by done. simpl.
  apply dict_set_fresh. intros Hin. apply (Hk k Hin). simpl. by left.
Qed.

Lemma inject_present d kv : is_Some (dict_get kv.1 d) → inject d kv = d.
Proof. intros Hs. unfold inject, dict_mem. by rewrite bool_decide_eq_true_2. Qed.

Lemma new_params_has_defaults existing kv :
  kv ∈ default_params → is_Some (dict_get kv.1 (new_params existing)).
Proof.
  intros Hkv. rewrite new_params_get.
  destruct (last_value kv.1 existing); [eauto|].
  unfold default_params in *.
  repeat (apply elem_of_cons in Hkv as [->|Hkv]; [simpl; eauto|]).
  by apply elem_of_nil in Hkv.
Qed.

(** X10: normalizing twice is normalizing once: the parameters of a
    normalized URL hold the keys auto, q and w, and running them through
    the normalization again changes nothing. *)
Theorem new_params_idempotent (existing_params : list (string * string)) :
  new_params (new_params existing_params) = new_params existing_params ∧
  (∀ key, key ∈ ["auto"; "q"; "w"] →
          key ∈ (new_params existing_params).*1).
Proof.
  split.
  - unfold new_params at 1.
    rewrite dict_of_pairs_id by apply new_params_keys.
    unfold default_params. cbn [foldl].
    rewrite (inject_present _ ("auto", "format"))
      by (apply (new_params_has_defaults _ ("auto", "format")); set_solver).
    rewrite (inject_present _ ("q", "80"))
      by (apply (new_params_has_defaults _ ("q", "80")); set_solver).
    rewrite (inject_present _ ("w", "1200"))
      by (apply (new_params_has_defaults _ ("w", "1200")); set_solver).
    done.
  - intros key Hkey. apply new_params_keys. right.
    unfold default_params. simpl. done.
Qed.

(** ** The replacement transaction *)

(** X11: a replacement in which no statement is hit by a fault always
    commits: the insertions never break [UNIQUE(query, image_index)] and no
    rollback happens. Afterwards the lookup for the query gives the new
    images in their order, as many as asked for, and the lookup for any
    other query gives what it gave before. *)
Theorem replacement_commits (fault : nat → bool) (cache : table)
    (query : string) (images : list ResolvedImage) :
  (∀ j, fault j = false) →
  let done_ := update_cache fault query images (mkConn cache None) in
  txn done_.1 = None ∧
  done_.2 = EvWrite <$> cache_writes query images ∧
  (∀ count, (0 ≤ count)%Z →
            to_image <$> select_cached (committed done_.1) query count
            = take (Z.to_nat count) images) ∧
  (∀ q count, q ≠ query →
              select_cached (committed done_.1) q count
              = select_cached cache q count).
Proof.
  intros Hfault done_. unfold done_.
  rewrite update_cache_succeeds by done. simpl. split_and!; [done | done | |].
  - intros count Hc. by apply lookup_after_replace.
  - intros q count Hne. by apply select_cached_other.
Qed.

(** Two images replacing one old row of the query. *)
Lemma replacement_commits_witness :
  to_image <$>
    select_cached
      (committed
         (update_cache (fun _ => false) "goa"
            [fallback_image "https://example.com/1";
             fallback_image "https://example.com/2"]
            (mkConn [mkRow "goa" 0 "https://example.com/old" "Old" ""] None)).1)
      "goa" 1
  = [fallback_image "https://example.com/1"].
Proof.
  destruct (replacement_commits (fun _ => false)
              [mkRow "goa" 0 "https://example.com/old" "Old" ""] "goa"
              [fallback_image "https://example.com/1";
               fallback_image "https://example.com/2"]) as (_ & _ & Hlook & _);
    [done|].
  rewrite (Hlook 1%Z) by lia. reflexivity.
Defined.

Lemma cache_keyed_replace cache query images :
  cache_keyed cache →
  cache_keyed (filter (fun r => row_query r ≠ query) cache
               ++ cache_rows query images).
Proof.
  intros [Hnd Hrows]. split.
  - rewrite fmap_app. apply NoDup_app. split_and!.
    + apply (sublist_NoDup _ (row_key <$> cache));
        [exact Hnd | apply fmap_sublist, sublist_filter].
    + intros key (r & -> & Hr%list_elem_of_filter)%list_elem_of_fmap
             (r' & Heq & Hr')%list_elem_of_fmap.
      pose proof (cache_rows_query query images) as Hq.
      rewrite Forall_forall in Hq. specialize (Hq _ Hr').
      unfold row_key in Heq. destruct Hr as [Hne _]. congruence.
    + apply cache_rows_keys_nodup.
  - intros q. destruct (decide (q = query)) as [->|Hne].
    + exists images. unfold select_cached. rewrite filter_app.
      rewrite (filter_none _ (filter _ cache)).
      2:{ apply Forall_forall. intros r Hr%list_elem_of_filter. tauto. }
      rewrite filter_all by apply cache_rows_query. simpl.
      by rewrite sort_cache_rows.
    + rewrite select_cached_other by done. apply Hrows.
Qed.

Lemma fetch_cache_keyed `{Text} `{Urllib} e cache query count :
  cache_keyed cache →
  cache_keyed (cache_after (fetch_unsplash_images e cache query count)).
Proof.
  intros Hk.
  destruct (fetch_cases e cache query count)
    as [[_ ->] | [_ (calls & _ & [(ex & models & _ & ->) | [-> |
         (acc & models & _ & _ & _ & ->)]])]]; simpl; try done.
  destruct (written_for_committed (db_fault e) cache query acc)
    as [-> | [_ ->]]; [done | by apply cache_keyed_replace].
Qed.

Lemma cache_rows_indices query images :
  image_index <$> cache_rows query images = py_range (length images).
Proof.
  induction images as [|img images IH] using rev_ind; [done|].
  rewrite cache_rows_snoc, fmap_app, IH, length_app. simpl.
  unfold py_range. rewrite Nat.add_1_r, seq_S, fmap_app. done.
Qed.

(** X12: in every cache state the application can reach, no two rows
    share [(query, image_index)], and the rows cached for a query carry
    the ranks 0, 1, ..., n-1 in the order of the lookup. *)
Theorem reachable_cache_keyed `{Text} `{Urllib} (cache : table) (q : string) :
  reachable cache →
  NoDup (row_key <$> cache) ∧
  image_index <$> select_cached cache q (-1)
  = py_range (length (select_cached cache q (-1))).
Proof.
  intros Hreach.
  assert (cache_keyed cache) as [Hnd Hrows].
  { induction Hreach as [|e cache query count _ IH].
    - split; [constructor|]. intros q'. by exists [].
    - by apply fetch_cache_keyed. }
  split; [done|]. destruct (Hrows q) as [images ->].
  rewrite cache_rows_indices. f_equal.
  unfold cache_rows. by rewrite length_imap.
Qed.

(** The cache after two calls for the same query. *)
Lemma reachable_cache_keyed_witness :
  image_index <$>
    select_cached
      (cache_after
         (@fetch_unsplash_images ascii_text simple_urllib
            (env_first_page [photo_jaipur; photo_road] no_ai)
            (cache_after
               (@fetch_unsplash_images ascii_text simple_urllib
                  (env_first_page [photo_jaipur] no_ai) [] "jaipur palace" 1))
            "jaipur palace" 2))
      "jaipur palace" (-1)
  = [0; 1]%Z.
Proof.
  refine (eq_trans (proj2 (@reachable_cache_keyed ascii_text simple_urllib _ "jaipur palace"
                             (reachable_fetch _ _ _ _
                                (reachable_fetch _ _ _ _ reachable_empty)))) _).
  vm_compute. reflexivity.
Defined.

(** ** The ranker, again *)

Lemma try_models_first cl prompt ms1 m ms2 items v :
  (∀ m', m' ∈ ms1 → passed_over (cl m' prompt)) →
  cl m prompt = GenJson (JObj items) →
  dict_get "ranked_indices" (dict_of_pairs items) = Some v →
  truthy v = true → has_len v = true →
  try_models cl prompt (ms1 ++ m :: ms2) = (Some v, ms1 ++ [m]).
Proof.
  intros Hpassed Hm Hv Ht Hl.
  induction ms1 as [|m1 ms1 IH]; simpl.
  - by rewrite Hm, Hv; simpl; rewrite Ht, Hl.
  - rewrite IH by (intros m' Hm'; apply Hpassed; by right).
    pose proof (Hpassed m1 ltac:(by left)) as H1.
    destruct (cl m1 prompt) as [| | |[]]; simpl in *; try done.
    by rewrite H1.
Qed.

(** X14: with the service available and candidates whose descriptions can
    be built, the ranker returns the [ranked_indices] of the first model
    variant whose answer is a JSON object holding a truthy
    [ranked_indices] that has a length (a list, a string or an object);
    the variants before it were called and passed over, the variants after
    it are not called. *)
Theorem first_ranking_wins (cl : string → ranking_prompt → gen_outcome)
    (destination : string) (image_candidates : list RawCandidate)
    (infos : list (list (string * json)))
    (ms1 ms2 : list string) (m : string) (items : list (string * json))
    (v : json) :
  image_candidates ≠ [] →
  map_result describe image_candidates = Ok infos →
  models_to_try = ms1 ++ m :: ms2 →
  let prompt := ranking_prompt_for destination image_candidates infos in
  (∀ m', m' ∈ ms1 → passed_over (cl m' prompt)) →
  cl m prompt = GenJson (JObj items) →
  dict_get "ranked_indices" (dict_of_pairs items) = Some v →
  truthy v = true → has_len v = true →
  select_best_destination_images (mkAi true (Some cl)) destination
                                 image_candidates
  = (Ok v, ms1 ++ [m]).
Proof.
  intros Hne Hinfos Hmodels prompt Hpassed Hm Hv Ht Hl.
  unfold select_best_destination_images. cbn [client AI_AVAILABLE negb orb].
  rewrite bool_decide_eq_false_2 by done. rewrite Hinfos. fold prompt.
  rewrite Hmodels. by rewrite (try_models_first _ _ _ _ _ items v).
Qed.

(** The first variant raises, the second answers [[1, 0]]. *)
Lemma first_ranking_wins_witness :
  select_best_destination_images
    (mkAi true
       (Some (fun model_name _ =>
                if decide (model_name = "gemini-2.5-flash") then GenRaises
                else GenJson (JObj [("ranked_indices", JArr [JInt 1; JInt 0])]))))
    "jaipur" [photo_jaipur; photo_road]
  = (Ok (JArr [JInt 1; JInt 0]), ["gemini-2.5-flash"; "gemini-2.0-flash-exp"]).
Proof.
  assert (∃ infos, map_result describe [photo_jaipur; photo_road] = Ok infos)
    as [infos Hinfos] by (vm_compute; eauto).
  apply (first_ranking_wins _ "jaipur" [photo_jaipur; photo_road] infos
           ["gemini-2.5-flash"] [] "gemini-2.0-flash-exp"
           [("ranked_indices", JArr [JInt 1; JInt 0])]);
    try done.
  intros m' ->%list_elem_of_singleton. done.
Defined.

(** ** retry_with_backoff *)

Lemma sleep_then_cases `{Clock} {A} (delay : Z) (rest : retry_run A) :
  ((delay < 0)%Z ∧
   sleep_then delay rest = mkRetry (inr SleepValueError) 1 []) ∨
  ((sleep_max < delay)%Z ∧
   sleep_then delay rest = mkRetry (inr SleepOverflowError) 1 []) ∨
  ((sleep_max / 3 < delay ≤ sleep_max)%Z ∧
   sleep_then delay rest = mkRetry (inr SleepOSError) 1 []) ∨
  ((0 ≤ delay ≤ sleep_max)%Z ∧
   sleep_then delay rest =
     mkRetry (retry_outcome rest) (S (func_calls rest)) (delay :: slept rest)).
Proof.
  unfold sleep_then, time_sleep.
  case_bool_decide; [left; split; (done || lia)|].
  case_bool_decide; [right; left; split; (done || lia)|].
  case_bool_decide; cbn [andb];
    [destruct (sleep_refused delay)|];
    [right; right; left | right; right; right | right; right; right];
    split; (done || lia).
Qed.

(** Attempt [k] of the loop: [func] retry_outcome, its error was re-raised, or
    the loop slept and went on. *)
Lemma retry_loop_step `{Clock} {A} (func : nat → A + string) (m d : Z) k n :
  let here := retry_loop func m d (Z.of_nat <$> seq k (S n)) in
  let rest := retry_loop func m d (Z.of_nat <$> seq (S k) n) in
  (∃ v, func k = inl v ∧ here = mkRetry (inl v) 1 []) ∨
  (∃ msg, func k = inr msg ∧
     (¬ transient msg ∨ ¬ (Z.of_nat k < m - 1)%Z) ∧
     here = mkRetry (inr (FuncError msg)) 1 []) ∨
  (∃ msg delay, func k = inr msg ∧ transient msg ∧ (Z.of_nat k < m - 1)%Z ∧
     (delay = d * 2 ^ Z.of_nat k ∨ delay = d * 3 ^ Z.of_nat k)%Z ∧
     here = sleep_then delay rest).
Proof.
  intros here rest. unfold here, rest. cbn [seq fmap list_fmap retry_loop].
  rewrite Nat2Z.id. destruct (func k) as [v|msg] eqn:Hk; [left; eauto|].
  right. unfold transient.
  destruct (decide (Z.of_nat k < m - 1)%Z) as [Hlt|Hlt].
  - rewrite !(bool_decide_true _ Hlt).
    destruct (overloaded msg) eqn:Ho, (rate_limited msg) eqn:Hr; cbn [andb].
    + right. exists msg, (d * 2 ^ Z.of_nat k)%Z.
      split_and!; [done | by left | done | by left | done].
    + right. exists msg, (d * 2 ^ Z.of_nat k)%Z.
      split_and!; [done | by left | done | by left | done].
    + right. exists msg, (d * 3 ^ Z.of_nat k)%Z.
      split_and!; [done | by right | done | by right | done].
    + left. exists msg.
      split_and!; [done | left; intros [?|?]; congruence | done].
  - rewrite !(bool_decide_false _ Hlt), !andb_false_r.
    left. exists msg. split_and!; [done | by right | done].
Qed.

Lemma retry_loop_spec `{Clock} {A} (func : nat → A + string) (m d : Z) n k :
  (k + n = Z.to_nat m)%nat →
  let r := retry_loop func m d (Z.of_nat <$> seq k n) in
  (func_calls r ≤ n)%nat ∧
  length (slept r) = pred (func_calls r) ∧
  (∀ i delay, slept r !! i = Some delay →
     (0 ≤ delay ≤ sleep_max)%Z ∧ (0 ≤ d)%Z ∧
     (delay = d * 2 ^ Z.of_nat (k + i) ∨ delay = d * 3 ^ Z.of_nat (k + i))%Z ∧
     ∃ msg, func (k + i)%nat = inr msg ∧ transient msg) ∧
  match retry_outcome r with
  | inl v => (1 ≤ func_calls r)%nat ∧ func (k + pred (func_calls r))%nat = inl v
  | inr (FuncError msg) =>
      (1 ≤ func_calls r)%nat ∧ func (k + pred (func_calls r))%nat = inr msg ∧
      (¬ transient msg ∨ (k + func_calls r)%nat = Z.to_nat m)
  | inr SleepValueError =>
      (1 ≤ func_calls r)%nat ∧ (d < 0)%Z ∧
      ∃ msg, func (k + pred (func_calls r))%nat = inr msg ∧ transient msg
  | inr SleepOverflowError =>
      (1 ≤ func_calls r)%nat ∧
      (sleep_max < d * 3 ^ Z.of_nat (k + pred (func_calls r)))%Z ∧
      ∃ msg, func (k + pred (func_calls r))%nat = inr msg ∧ transient msg
  | inr SleepOSError =>
      (1 ≤ func_calls r)%nat ∧
      (sleep_max / 3 < d * 3 ^ Z.of_nat (k + pred (func_calls r)))%Z ∧
      ∃ msg, func (k + pred (func_calls r))%nat = inr msg ∧ transient msg
  | inr (AttemptsFailed n') => n' = m ∧ n = 0%nat
  end.
Proof.
  revert k. induction n as [|n IH]; intros k Hk r.
  { unfold r. simpl. split_and!; try done; try lia. }
  assert (0 < 2 ^ Z.of_nat k ≤ 3 ^ Z.of_nat k)%Z as Hpow
    by (split; [apply Z.pow_pos_nonneg | apply Z.pow_le_mono_l]; lia).
  destruct (retry_loop_step func m d k n)
    as [(v & Hv & Hr) | [(msg & Hmsg & Hlast & Hr) | (msg & delay & Hmsg & Htr & Hlt & Hdelay & Hr)]];
    fold r in Hr.
  - rewrite Hr. simpl. rewrite Nat.add_0_r.
    split_and!; try done; try lia.
  - rewrite Hr. simpl. rewrite Nat.add_0_r.
    split_and!; try done; try lia.
    destruct Hlast as [?|Hlast]; [by left | right; lia].
  - specialize (IH (S k) ltac:(lia)). simpl in IH.
    destruct IH as (Hcalls & Hlen & Hsl & Hret).
    destruct (sleep_then_cases delay
                (retry_loop func m d (Z.of_nat <$> seq (S k) n)))
      as [[Hneg Hs] | [[Hbig Hs] | [[Hos Hs] | [Hpos Hs]]]];
      rewrite Hs in Hr; rewrite Hr; simpl.
    + rewrite Nat.add_0_r. split_and!;
        first [ done | lia | by eauto | destruct Hdelay; subst delay; nia ].
    + rewrite Nat.add_0_r. unfold sleep_max in *. split_and!;
        first [ done | lia | by eauto | destruct Hdelay; subst delay; nia ].
    + rewrite Nat.add_0_r.
      assert (0 ≤ sleep_max / 3)%Z by (by vm_compute).
      split_and!;
        first [ done | lia | by eauto | destruct Hdelay; subst delay; nia ].
    + assert (0 ≤ d)%Z as Hd by (destruct Hdelay; subst delay; nia).
      assert (n ≠ 0)%nat as Hn by lia.
      set (rest := retry_loop func m d (Z.of_nat <$> seq (S k) n)) in *.
      assert (1 ≤ func_calls rest)%nat as Hone.
      { destruct (retry_outcome rest) as [v|[msg'| | | |n']]; tauto. }
      split_and!.
      * lia.
      * lia.
      * intros [|i] delay' Hi; simpl in Hi.
        -- injection Hi as <-. rewrite Nat.add_0_r. eauto 10.
        -- destruct (Hsl i delay' Hi) as (? & ? & ? & ?).
           replace (k + S i)%nat with (S (k + i))%nat by lia. eauto.
      * replace (k + func_calls rest)%nat
          with (S (k + pred (func_calls rest)))%nat by lia.
        destruct (retry_outcome rest) as [v|[msg'| | | |n']].
        -- split; [lia | tauto].
        -- destruct Hret as (H1 & H2 & H3). split_and!; [lia | done |].
           destruct H3 as [?|H3]; [by left | right; lia].
        -- split; [lia | tauto].
        -- split; [lia | tauto].
        -- split; [lia | tauto].
        -- tauto.
Qed.

Lemma retry_spec `{Clock} {A} (func : nat → A + string) (m d : Z) :
  let r := retry_with_backoff func m d in
  (func_calls r ≤ Z.to_nat m)%nat ∧
  length (slept r) = pred (func_calls r) ∧
  (∀ i delay, slept r !! i = Some delay →
     (0 ≤ delay ≤ sleep_max)%Z ∧ (0 ≤ d)%Z ∧
     (delay = d * 2 ^ Z.of_nat i ∨ delay = d * 3 ^ Z.of_nat i)%Z ∧
     ∃ msg, func i = inr msg ∧ transient msg) ∧
  match retry_outcome r with
  | inl v => (1 ≤ func_calls r)%nat ∧ func (pred (func_calls r)) = inl v
  | inr (FuncError msg) =>
      (1 ≤ func_calls r)%nat ∧ func (pred (func_calls r)) = inr msg ∧
      (¬ transient msg ∨ func_calls r = Z.to_nat m)
  | inr SleepValueError =>
      (1 ≤ func_calls r)%nat ∧ (d < 0)%Z ∧
      ∃ msg, func (pred (func_calls r)) = inr msg ∧ transient msg
  | inr SleepOverflowError =>
      (1 ≤ func_calls r)%nat ∧
      (sleep_max < d * 3 ^ Z.of_nat (pred (func_calls r)))%Z ∧
      ∃ msg, func (pred (func_calls r)) = inr msg ∧ transient msg
  | inr SleepOSError =>
      (1 ≤ func_calls r)%nat ∧
      (sleep_max / 3 < d * 3 ^ Z.of_nat (pred (func_calls r)))%Z ∧
      ∃ msg, func (pred (func_calls r)) = inr msg ∧ transient msg
  | inr (AttemptsFailed n') => n' = m ∧ Z.to_nat m = 0%nat
  end.
Proof.
  exact (retry_loop_spec func m d (Z.to_nat m) 0 eq_refl).
Qed.

(** X15: the final [raise Exception("All ... retry attempts failed")] is
    reached exactly when [max_retries] is not positive; with at least one
    attempt allowed, the loop always leaves through a [return] or a
    [raise] of its body. *)
Theorem retry_exhaustion_needs_no_attempts `{Clock} {A} (func : nat → A + string)
    (max_retries initial_delay : Z) :
  (∃ n, retry_outcome (retry_with_backoff func max_retries initial_delay)
        = inr (AttemptsFailed n))
  ↔ (max_retries ≤ 0)%Z.
Proof.
  pose proof (retry_spec func max_retries initial_delay) as (_ & _ & _ & Hret).
  simpl in Hret. split.
  - intros [n Hn]. rewrite Hn in Hret. lia.
  - intros Hm. exists max_retries. unfold retry_with_backoff.
    replace (Z.to_nat max_retries) with 0%nat by lia. done.
Qed.

Lemma total_le (l b : list Z) :
  (∀ i x, l !! i = Some x → (0 ≤ x)%Z ∧ ∃ y, b !! i = Some y ∧ (x ≤ y)%Z) →
  Forall (fun y => 0 ≤ y)%Z b →
  (0 ≤ total l ≤ total b)%Z.
Proof.
  revert b. induction l as [|x l IH]; intros b Hl Hb.
  - simpl. split; [done|]. clear Hl.
    induction Hb as [|y b Hy _ IHb]; simpl; lia.
  - destruct (Hl 0%nat x eq_refl) as (Hx & y & Hy & Hxy).
    destruct b as [|y' b]; [done|]. injection Hy as ->.
    apply Forall_cons in Hb as [_ Hb].
    specialize (IH b (fun i => Hl (S i)) Hb). simpl. lia.
Qed.

Lemma lookup_py_range n i : (i < n)%nat → py_range n !! i = Some (Z.of_nat i).
Proof.
  intros Hi. unfold py_range. rewrite list_lookup_fmap, lookup_seq_lt by done.
  done.
Qed.

Lemma retry_total_slept `{Clock} {A} (func : nat → A + string) (m d : Z) :
  (0 ≤ total (slept (retry_with_backoff func m d))
   ≤ total ((fun i => Z.max 0 d * 3 ^ i) <$> py_range (pred (Z.to_nat m))))%Z.
Proof.
  pose proof (retry_spec func m d) as (Hcalls & Hlen & Hsl & _).
  simpl in *. apply total_le.
  - intros i delay Hi. destruct (Hsl i delay Hi) as ([H0 _] & Hd & Hdelay & _).
    split; [done|].
    assert (i < pred (Z.to_nat m))%nat as Hlt.
    { apply lookup_lt_Some in Hi. lia. }
    exists (Z.max 0 d * 3 ^ Z.of_nat i)%Z.
    rewrite list_lookup_fmap, lookup_py_range by done. split; [done|].
    assert (0 < 2 ^ Z.of_nat i ≤ 3 ^ Z.of_nat i)%Z.
    { split; [apply Z.pow_pos_nonneg; lia | apply Z.pow_le_mono_l; lia]. }
    destruct Hdelay; subst delay; nia.
  - apply Forall_fmap, Forall_forall. intros i Hi. simpl.
    unfold py_range in Hi. apply list_elem_of_fmap in Hi as (j & -> & _).
    assert (0 < 3 ^ Z.of_nat j)%Z by (apply Z.pow_pos_nonneg; lia). nia.
Qed.

(** X16: [retry_with_backoff] calls [func] at most [max_retries] times and
    sleeps once between two calls; the sleep after attempt [i] lasts
    [initial_delay * 2 ** i] or [initial_delay * 3 ** i], and all sleeps
    together at most the sum of [initial_delay * 3 ** i] over the attempts
    but the last. *)
Theorem retry_effort_bounded `{Clock} {A} (func : nat → A + string)
    (max_retries initial_delay : Z) :
  let r := retry_with_backoff func max_retries initial_delay in
  (func_calls r ≤ Z.to_nat max_retries)%nat ∧
  length (slept r) = pred (func_calls r) ∧
  (∀ i delay, slept r !! i = Some delay →
     (0 ≤ delay ≤ sleep_max)%Z ∧
     (delay = initial_delay * 2 ^ Z.of_nat i
      ∨ delay = initial_delay * 3 ^ Z.of_nat i)%Z) ∧
  (0 ≤ total (slept r)
   ≤ total ((fun i => Z.max 0 initial_delay * 3 ^ i)
              <$> py_range (pred (Z.to_nat max_retries))))%Z.
Proof.
  intros r. pose proof (retry_spec func max_retries initial_delay)
    as (Hcalls & Hlen & Hsl & _).
  split_and!; [done | done | | apply retry_total_slept | apply retry_total_slept].
  intros i delay Hi. destruct (Hsl i delay Hi) as (? & _ & ? & _). done.
Qed.

Lemma retry_loop_first_success `{Clock} {A} (func : nat → A + string)
    (m d : Z) k v n j :
  (0 ≤ d)%Z → (d * 3 ^ Z.of_nat k ≤ sleep_max)%Z → func k = inl v →
  (∀ i, (i < k)%nat → ∃ msg, func i = inr msg ∧ transient msg) →
  (j + n = Z.to_nat m)%nat → (j ≤ k < j + n)%nat →
  let r := retry_loop func m d (Z.of_nat <$> seq j n) in
  retry_outcome r = inl v ∧ func_calls r = S (k - j) ∧
  length (slept r) = (k - j)%nat.
Proof.
  intros Hd Hmax Hk Hbefore. revert j.
  induction n as [|n IH]; intros j Hj Hjk r; [lia|].
  destruct (retry_loop_step func m d j n)
    as [(v' & Hv & Hr) | [(msg & Hmsg & Hlast & Hr) | (msg & delay & Hmsg & Htr & Hlt & Hdelay & Hr)]];
    fold r in Hr.
  - destruct (decide (j = k)) as [->|Hne].
    + rewrite Hr. simpl. rewrite Nat.sub_diag.
      split; [congruence | done].
    + destruct (Hbefore j ltac:(lia)) as (msg & Hmsg & _). congruence.
  - destruct (decide (j = k)) as [->|Hne]; [congruence|].
    destruct (Hbefore j ltac:(lia)) as (msg' & Hmsg' & Htr).
    assert (msg' = msg) as -> by congruence.
    destruct Hlast as [Hlast|Hlast]; [done | lia].
  - destruct (decide (j = k)) as [->|Hne]; [congruence|].
    destruct (IH (S j) ltac:(lia) ltac:(lia)) as (Ho & Hc & Hs).
    assert (0 ≤ delay ≤ sleep_max)%Z as Hpos.
    { assert (0 < 2 ^ Z.of_nat j ≤ 3 ^ Z.of_nat j)%Z
        by (split; [apply Z.pow_pos_nonneg | apply Z.pow_le_mono_l]; lia).
      assert (3 ^ Z.of_nat j ≤ 3 ^ Z.of_nat k)%Z
        by (apply Z.pow_le_mono_r; lia).
      destruct Hdelay; subst delay; nia. }
    destruct (sleep_then_cases delay
                (retry_loop func m d (Z.of_nat <$> seq (S j) n)))
      as [[Hneg _] | [[Hbig _] | [[Hos _] | [_ Hs']]]]; [lia | lia | |].
    { assert (3 * delay ≤ sleep_max)%Z as H3.
      { assert (0 < 2 ^ Z.of_nat j ≤ 3 ^ Z.of_nat j)%Z
          by (split; [apply Z.pow_pos_nonneg | apply Z.pow_le_mono_l]; lia).
        assert (3 * 3 ^ Z.of_nat j ≤ 3 ^ Z.of_nat k)%Z.
        { replace (Z.of_nat k) with (Z.succ (Z.of_nat (k - 1))) by lia.
          rewrite Z.pow_succ_r by lia.
          assert (3 ^ Z.of_nat j ≤ 3 ^ Z.of_nat (k - 1))%Z
            by (apply Z.pow_le_mono_r; lia).
          lia. }
        destruct Hdelay; subst delay; nia. }
      assert (delay ≤ sleep_max / 3)%Z
        by (apply Z.div_le_lower_bound; lia).
      lia. }
    rewrite Hr, Hs'. simpl. rewrite Ho, Hc, Hs.
    split_and!; [done | f_equal; lia | lia].
Qed.

(** X17: when call [k] of [func] is the first that returns, all calls
    before it failing with an error the loop retries on, [k] is within
    [max_retries], and the delays are ones [time.sleep] takes, then
    [retry_with_backoff] returns that value after [k + 1] calls and [k]
    sleeps. *)
Theorem retry_returns_first_success `{Clock} {A} (func : nat → A + string)
    (max_retries initial_delay : Z) (k : nat) (v : A) :
  (0 ≤ initial_delay)%Z → (initial_delay * 3 ^ Z.of_nat k ≤ sleep_max)%Z →
  (k < Z.to_nat max_retries)%nat →
  func k = inl v →
  (∀ i, (i < k)%nat → ∃ msg, func i = inr msg ∧ transient msg) →
  let r := retry_with_backoff func max_retries initial_delay in
  retry_outcome r = inl v ∧ func_calls r = S k ∧ length (slept r) = k.
Proof.
  intros Hd Hmax Hk Hv Hbefore.
  pose proof (retry_loop_first_success func max_retries initial_delay k v
                (Z.to_nat max_retries) 0 Hd Hmax Hv Hbefore eq_refl
                ltac:(lia)) as Hr.
  simpl in Hr. rewrite Nat.sub_0_r in Hr. exact Hr.
Qed.

(** The model is overloaded once, then answers. *)
Lemma retry_returns_first_success_witness :
  let func := fun k : nat =>
    match k with
    | O => inr "503 UNAVAILABLE"
    | _ => inl 7%Z
    end in
  retry_outcome (@retry_with_backoff strict_clock Z func 3 3) = inl 7%Z ∧
  func_calls (@retry_with_backoff strict_clock Z func 3 3) = 2%nat ∧
  slept (@retry_with_backoff strict_clock Z func 3 3) = [3%Z].
Proof.
  intros func.
  pose proof (@retry_returns_first_success strict_clock Z func 3 3 1 7%Z
                ltac:(lia) ltac:(by vm_compute) ltac:(simpl; lia) eq_refl)
    as H.
  split_and!; [apply H | apply H | by vm_compute].
  all: intros i Hi; assert (i = 0%nat) as -> by lia;
    exists "503 UNAVAILABLE"; split; [done | left; by vm_compute].
Defined.


(** ** get_city_tourist_spots *)

Lemma make_api_call_inl `{Json} (response : content_outcome) (spots : json) :
  make_api_call response = inl spots →
  ∃ text items, response = ContentText (Some text) ∧ text ≠ "" ∧
    json_loads text = inl (JObj items) ∧
    spots = default (JArr []) (dict_get "tourist_spots" (dict_of_pairs items)).
Proof.
  unfold make_api_call. destruct response as [msg|[text|]]; [done| |done].
  case_decide as Htext; [done|].
  destruct (json_loads text) as [[]|msg] eqn:Hloads; try done.
  intros [= <-]. eauto 10.
Qed.

(** X19: [get_city_tourist_spots] calls the model at most three times and
    sleeps at most 12 seconds in all, one sleep between two calls. *)
Theorem tourist_spots_effort `{Json} `{Clock} (ai : ai_env)
    (generate : nat → content_outcome) (destination : string) :
  let r := get_city_tourist_spots ai generate destination in
  (model_requests r ≤ 3)%nat ∧
  length (waited r) = pred (model_requests r) ∧
  (0 ≤ total (waited r) ≤ 12)%Z.
Proof.
  unfold get_city_tourist_spots.
  destruct (ai_ready ai); [|by simpl; split_and!; (done || lia)].
  pose proof (retry_spec (fun k => make_api_call (generate k)) 3 3)
    as (Hcalls & Hlen & _).
  pose proof (retry_total_slept (fun k => make_api_call (generate k)) 3 3)
    as Htotal.
  assert (total ((fun i => Z.max 0 3 * 3 ^ i)%Z
                   <$> py_range (pred (Z.to_nat 3))) = 12%Z) as Hsum
    by (vm_compute; reflexivity).
  rewrite Hsum in Htotal.
  simpl in Hcalls, Hlen.
  by destruct (retry_outcome _).
Qed.

(** X20: [get_city_tourist_spots] returns the five fallback spots named
    after the destination, or what the last answer of the model holds under
    ["tourist_spots"] (the empty list when the key is missing), whatever
    that value is. *)
Theorem tourist_spots_answer_or_fallback `{Json} `{Clock} (ai : ai_env)
    (generate : nat → content_outcome) (destination : string) :
  let r := get_city_tourist_spots ai generate destination in
  answer r = fallback_spots destination ∨
  ∃ text items,
    ai_ready ai = true ∧
    generate (pred (model_requests r)) = ContentText (Some text) ∧
    text ≠ "" ∧ json_loads text = inl (JObj items) ∧
    answer r = default (JArr [])
                       (dict_get "tourist_spots" (dict_of_pairs items)).
Proof.
  unfold get_city_tourist_spots.
  destruct (ai_ready ai) eqn:Hai; [|by left].
  pose proof (retry_spec (fun k => make_api_call (generate k)) 3 3)
    as (_ & _ & _ & Hret).
  simpl in Hret.
  destruct (retry_outcome _) as [spots|ex]; [|by left].
  destruct Hret as [_ Hlast].
  apply make_api_call_inl in Hlast as (text & items & ? & ? & ? & ?).
  right. exists text, items. done.
Qed.

(** ** generate_personalized_budget_insights *)

Lemma omap_kept_tip (l : list json) :
  Forall (fun tip => tip ≠ "") (omap kept_tip l).
Proof.
  induction l as [|v l IH]; [constructor|].
  cbn [omap list_omap]. destruct v; simpl; try done.
  case_decide; simpl; [done | by constructor].
Qed.

Lemma generate_ai_insights_inl `{Json} (response : content_outcome)
    (result : insights) :
  generate_ai_insights response = inl result →
  (length (tips result) ≤ 5)%nat ∧ Forall (fun tip => tip ≠ "") (tips result).
Proof.
  unfold generate_ai_insights.
  destruct response as [msg|[text|]]; [done| |done].
  case_decide; [done|].
  destruct (json_loads text) as [[]|msg]; try done.
  repeat case_match; try done. intros [= <-]. simpl. split.
  - rewrite length_take. lia.
  - apply Forall_take, omap_kept_tip.
Qed.

(** X21: [generate_personalized_budget_insights] calls the model at most
    twice and sleeps at most one second; when it returns insights, the
    income was positive (or not a number), and the tips are at most five
    strings, none of them empty. *)
Theorem budget_insights_shape `{Json} `{Clock} (ai : ai_env)
    (generate : nat → content_outcome) (income : pyfloat) :
  let r := generate_personalized_budget_insights ai generate income in
  (model_requests r ≤ 2)%nat ∧
  (0 ≤ total (waited r) ≤ 1)%Z ∧
  match answer r with
  | Some result =>
      float_le_zero income = false ∧ (1 ≤ model_requests r)%nat ∧
      (length (tips result) ≤ 5)%nat ∧
      Forall (fun tip => tip ≠ "") (tips result)
  | None => True
  end.
Proof.
  unfold generate_personalized_budget_insights.
  destruct (negb (AI_AVAILABLE ai) || negb (bool_decide (is_Some (client ai))))
    ; cbn [orb]; [by simpl; split_and!; (done || lia)|].
  destruct (float_le_zero income); [by simpl; split_and!; (done || lia)|].
  pose proof (retry_spec (fun k => generate_ai_insights (generate k)) 2 1)
    as (Hcalls & _ & _ & Hret).
  pose proof (retry_total_slept (fun k => generate_ai_insights (generate k)) 2 1)
    as Htotal.
  assert (total ((fun i => Z.max 0 1 * 3 ^ i)%Z
                   <$> py_range (pred (Z.to_nat 2))) = 1%Z) as Hsum
    by (vm_compute; reflexivity).
  rewrite Hsum in Htotal.
  simpl in Hcalls, Hret.
  destruct (retry_outcome _) as [result|ex]; simpl; [|done].
  destruct Hret as [Hone Hlast].
  apply generate_ai_insights_inl in Hlast as [? ?]. done.
Qed.

(** ** create_travel_plan *)

Lemma py_range_from_split (a b c : Z) :
  (a ≤ b ≤ c)%Z → py_range_from a c = py_range_from a b ++ py_range_from b c.
Proof.
  intros Habc. unfold py_range_from.
  replace (Z.to_nat (c - a)) with (Z.to_nat (b - a) + Z.to_nat (c - b))%nat
    by lia.
  rewrite seq_app, fmap_app. f_equal.
  rewrite Nat.add_comm, <-fmap_add_seq, <-list_fmap_compose.
  apply list_fmap_ext. intros _ i _. simpl. lia.
Qed.

Lemma py_range_from_empty (a b : Z) : (b ≤ a)%Z → py_range_from a b = [].
Proof.
  intros Hba. unfold py_range_from. by replace (Z.to_nat (b - a)) with 0%nat by lia.
Qed.

Lemma fallback_itinerary_ok (days : Z) :
  ∃ entries, fallback_itinerary days = Ok entries ∧
    entries.*1 = py_range_from 1 (days + 1) ∧
    Forall (fun e => length e.2 = 3%nat) entries.
Proof.
  unfold fallback_itinerary.
  destruct (decide (days ≤ 0)%Z) as [H0|H0].
  { rewrite (py_range_from_empty 1 (Z.min _ _)) by lia.
    rewrite (py_range_from_empty 1 (days + 1)) by lia.
    rewrite bool_decide_eq_false_2 by lia. simpl. eauto. }
  destruct (decide (days = 1%Z)) as [->|H1]; [vm_compute; eauto 10|].
  destruct (decide (days = 2%Z)) as [->|H2]; [vm_compute; eauto 10|].
  destruct (decide (days = 3%Z)) as [->|H3]; [vm_compute; eauto 10|].
  replace (Z.min (days + 1) 4) with 4%Z by lia.
  rewrite bool_decide_eq_true_2 by lia.
  rewrite (py_range_from_split 1 4 (days + 1)) by lia.
  change (py_range_from 1 4) with [1; 2; 3]%Z.
  eexists. split; [vm_compute map_result; reflexivity|]. split.
  - rewrite fmap_app, <-list_fmap_compose. simpl. do 3 f_equal.
    by rewrite list_fmap_id.
  - rewrite Forall_app. split; [by repeat constructor|].
    apply Forall_fmap, Forall_forall. done.
Qed.

(** X22: for every integer [days] the two loops of the fallback plan give
    one entry per day, numbered [1, 2, ..., days] without a gap or a
    repetition (none for [days <= 0]), each with three activities; the
    subscripts of [activities_templates] never fail. *)
Theorem fallback_itinerary_numbers_days (days : Z) :
  ∃ entries, fallback_itinerary days = Ok entries ∧
    entries.*1 = py_range_from 1 (days + 1) ∧
    len entries = Z.max 0 days ∧
    Forall (fun e => length e.2 = 3%nat) entries.
Proof.
  destruct (fallback_itinerary_ok days) as (entries & Hrun & Hdays & Hacts).
  exists entries. split_and!; [done | done | | done].
  unfold len. rewrite <-(length_fmap fst), Hdays. unfold py_range_from.
  rewrite length_fmap, length_seq. lia.
Qed.

(** X23: [create_travel_plan] raises exactly when the model gave no plan
    and [days] is no [int]; the exception is then a TypeError. In every
    other case it returns a plan. *)
Theorem travel_plan_raises_on_days `{Json} `{PyStr} (ai : ai_env)
    (response : content_outcome) (data : list (string * json)) (ex : exn) :
  create_travel_plan ai response data = Raise ex
  ↔ ex = TypeError ∧ model_plan ai response = None ∧
    as_int (default (JInt 3) (dict_get "days" data)) = Raise TypeError.
Proof.
  unfold create_travel_plan.
  destruct (model_plan ai response) as [plan|]; [naive_solver|].
  destruct (as_int _) as [z|ex'] eqn:Hdays; simpl.
  - destruct (fallback_itinerary_ok z) as (entries & -> & _). simpl.
    naive_solver.
  - assert (ex' = TypeError) as ->.
    { unfold as_int in Hdays. by repeat case_match; simplify_eq. }
    naive_solver.
Qed.

(** ** The route /api/fetch-destination-image *)

Lemma fetch_one_nonempty `{Text} `{Urllib} (e : env) (cache : table)
    (query : string) :
  outcome (fetch_unsplash_images e cache query 1) ≠ Ok [].
Proof.
  destruct (fetch_cases e cache query 1)
    as [[Hhit ->] | [Hmiss (calls & _ & [(ex & models & _ & ->) | [-> |
         (acc & models & _ & _ & _ & ->)]])]]; simpl.
  - intros [= Himgs]. apply fmap_nil_inv in Himgs.
    apply (py_take_nonempty 1 (select_cached cache query 1)); [lia| |done].
    intros Hnil. rewrite Hnil in Hhit. unfold len in Hhit. simpl in Hhit. lia.
  - done.
  - destruct (get_fallback_images_cons query 1) as (img & more & ->). done.
  - intros [= Himgs].
    by apply (py_take_nonempty 1 (padded_for query 1 acc));
      [lia | apply padded_for_nonempty |].
Qed.

(** X24: the route never answers 404: a call of [fetch_unsplash_images]
    for one image returns at least one or raises, so the status is 200,
    400 or 500, and an image is sent exactly with status 200. *)
Theorem destination_image_never_404 `{Text} `{Urllib} `{PyStr} (e : env)
    (cache : table) (get_json : result json) :
  let r := (fetch_destination_image e cache get_json).1 in
  status r ∈ [200; 400; 500]%Z ∧
  (status r = 200%Z ↔ success r = true) ∧
  (status r = 200%Z ↔ is_Some (image r)).
Proof.
  unfold fetch_destination_image.
  assert (∀ (img : ResolvedImage) msg,
            let r := mkResponse 200 true (Some img) msg in
            status r ∈ [200; 400; 500]%Z ∧
            (status r = 200%Z ↔ success r = true) ∧
            (status r = 200%Z ↔ is_Some (image r))) as Hsent.
  { intros img msg. simpl. split_and!; [by left | done | by eauto]. }
  assert (∀ s msg, s = 400%Z ∨ s = 500%Z →
            let r := mkResponse s false None msg in
            status r ∈ [200; 400; 500]%Z ∧
            (status r = 200%Z ↔ success r = true) ∧
            (status r = 200%Z ↔ is_Some (image r))) as Hrefused.
  { intros s msg Hs. simpl. split_and!.
    - rewrite !elem_of_cons. tauto.
    - split; [lia | done].
    - split; [lia | by intros [? ?]]. }
  destruct get_json as [[]|ex]; cbn [fst];
    try (apply Hrefused; by right).
  destruct (truthy _); cbn [negb fst]; [|apply Hrefused; by left].
  pose proof (fetch_one_nonempty e cache
                (py_str (default (JStr "")
                           (dict_get "destination" (dict_of_pairs items)))
                 +:+ " landmark tourist attraction")) as Hne.
  destruct (outcome _) as [[|img imgs]|ex]; cbn [fst];
    [done | apply Hsent | apply Hrefused; by right].
Qed.

(** ** The sanitized query *)

Lemma ascii_lower_idemp c : ascii_lower (ascii_lower c) = ascii_lower c.
Proof. by destruct c as [[] [] [] [] [] [] [] []]; vm_compute. Qed.

Lemma is_space_lower c : is_space (ascii_lower c) = is_space c.
Proof. by destruct c as [[] [] [] [] [] [] [] []]; vm_compute. Qed.

Lemma str_app_nil_r (s : string) : s +:+ "" = s.
Proof. induction s as [|c s IH]; [done|]. by rewrite String_app, IH. Qed.

Lemma str_app_assoc (s t u : string) : (s +:+ t) +:+ u = s +:+ (t +:+ u).
Proof. induction s as [|c s IH]; [done|]. by rewrite !String_app, IH. Qed.

Lemma chars_app (s t : string) :
  list_ascii_of_string (s +:+ t)
  = list_ascii_of_string s ++ list_ascii_of_string t.
Proof.
  induction s as [|c s IH]; [done|]. rewrite String_app. simpl. by rewrite IH.
Qed.

Lemma str_lower_idemp s : lower_ascii (lower_ascii s) = lower_ascii s.
Proof.
  induction s as [|c s IH]; [done|]. simpl. by rewrite ascii_lower_idemp, IH.
Qed.

Lemma str_lower_app s t : lower_ascii (s +:+ t) = lower_ascii s +:+ lower_ascii t.
Proof.
  induction s as [|c s IH]; [done|]. rewrite String_app. simpl.
  by rewrite IH, String_app.
Qed.

Lemma str_lower_join ws :
  lower_ascii (str_join " " ws) = str_join " " (lower_ascii <$> ws).
Proof.
  unfold str_join. induction ws as [|w ws IH]; [done|].
  destruct ws as [|w' ws]; [done|].
  change (String.concat " " (w :: w' :: ws))
    with (w +:+ " " +:+ String.concat " " (w' :: ws)).
  rewrite !str_lower_app, IH. done.
Qed.

Lemma str_split_go_lower s cur :
  str_split_go (lower_ascii s) (lower_ascii cur) = lower_ascii <$> str_split_go s cur.
Proof.
  revert cur. induction s as [|c s IH]; intros cur.
  - simpl. by destruct cur.
  - cbn [lower_ascii str_split_go]. rewrite is_space_lower.
    destruct (is_space c).
    + pose proof (IH "") as IH0. change (lower_ascii "") with "" in IH0.
      rewrite IH0. by destruct cur.
    + rewrite <-IH, str_lower_app. done.
Qed.

Lemma str_split_go_spaceless s cur :
  spaceless cur → Forall (fun w => w ≠ "" ∧ spaceless w) (str_split_go s cur).
Proof.
  revert cur. induction s as [|c s IH]; intros cur Hcur; simpl.
  - case_decide; [constructor|]. by repeat constructor.
  - destruct (is_space c) eqn:Hc.
    + assert (spaceless "") as Hnil by constructor.
      case_decide; [by apply IH|]. constructor; [done | by apply IH].
    + apply IH. unfold spaceless in *. rewrite chars_app.
      apply Forall_app. split; [done|]. by repeat constructor.
Qed.

Lemma str_split_go_word w s cur :
  spaceless w → str_split_go (w +:+ s) cur = str_split_go s (cur +:+ w).
Proof.
  revert cur. induction w as [|c w IH]; intros cur Hw.
  - by rewrite str_app_nil_r.
  - apply Forall_cons in Hw as [Hc Hw].
    rewrite String_app. cbn [str_split_go]. rewrite Hc, IH by done.
    by rewrite str_app_assoc.
Qed.

(** Splitting undoes joining with one space. *)
Lemma str_split_join ws :
  Forall (fun w => w ≠ "" ∧ spaceless w) ws →
  split_ascii (str_join " " ws) = ws.
Proof.
  unfold split_ascii, str_join.
  induction 1 as [|w ws [Hne Hw] Hws IH]; [done|].
  destruct ws as [|w' ws].
  - cbn [String.concat]. rewrite <-(str_app_nil_r w) at 1.
    rewrite str_split_go_word by done. simpl. by rewrite decide_False.
  - change (String.concat " " (w :: w' :: ws))
      with (w +:+ String " " (String.concat " " (w' :: ws))).
    rewrite str_split_go_word by done.
    cbn [str_split_go]. change (is_space " ") with true. cbn iota.
    change ("" +:+ w) with w. by rewrite decide_False, IH.
Qed.

Lemma sublist_Forall {A} (P : A → Prop) (l k : list A) :
  l `sublist_of` k → Forall P k → Forall P l.
Proof.
  intros Hsub Hk. rewrite Forall_forall in *.
  intros x Hx. apply Hk. by eapply elem_of_sublist.
Qed.

(** [split_ascii] and [lower_ascii] have the two properties of
    [str.split] and [str.lower] that the theorem on the sanitized query
    assumes. *)
Lemma ascii_split_joins : @split_joins ascii_text.
Proof.
  intros s ws Hsub. apply str_split_join.
  apply (sublist_Forall _ _ _ Hsub), str_split_go_spaceless. constructor.
Qed.

Lemma ascii_lower_words (query : string) (ws : list string) :
  ws `sublist_of` split_ascii (lower_ascii query) →
  lower_ascii (str_join " " ws) = str_join " " ws.
Proof.
  intros Hsub. rewrite str_lower_join. f_equal.
  rewrite <-(list_fmap_id ws) at 2. apply Forall_fmap_ext_1.
  apply (sublist_Forall _ _ _ Hsub).
  unfold split_ascii. change "" with (lower_ascii "").
  rewrite str_split_go_lower. apply Forall_fmap, Forall_forall.
  intros w _. apply str_lower_idemp.
Qed.

(** X9: when the words of a split, joined by single spaces, split into the
    same words, and lower-casing leaves the joined words of a lower-cased
    text as they are (both hold of [str.split] and [str.lower]), the words
    of the sanitized query are the words of the lower-cased query that are
    kept, in order; no blocked word and no word starting with a dash is
    left; and sanitizing a sanitized query changes nothing. *)
Theorem sanitize_idempotent `{Text} (query : string) :
  split_joins →
  (∀ ws, ws `sublist_of` str_split (str_lower query) →
         str_lower (str_join " " ws) = str_join " " ws) →
  str_split (sanitize query)
  = filter (fun word => (word ∉ people_keywords) ∧
                        str_startswith "-" word = false)
           (str_split (str_lower query)) ∧
  Forall (fun word => (word ∉ people_keywords) ∧
                      str_startswith "-" word = false)
         (str_split (sanitize query)) ∧
  sanitize (sanitize query) = sanitize query.
Proof.
  intros Hsplit Hlower.
  set (P := fun word => (word ∉ people_keywords) ∧
                        str_startswith "-" word = false).
  assert (str_split (sanitize query) = filter P (str_split (str_lower query)))
    as Hwords
    by (unfold sanitize; apply (Hsplit (str_lower query)), sublist_filter).
  split; [exact Hwords|]. split.
  { rewrite Hwords. apply Forall_forall.
    by intros w [Hw _]%list_elem_of_filter. }
  assert (str_lower (sanitize query) = sanitize query) as Hl
    by (unfold sanitize; apply Hlower, sublist_filter).
  unfold sanitize at 1. fold P. rewrite Hl, Hwords.
  unfold sanitize. fold P. f_equal.
  apply list_filter_filter_r. done.
Qed.

(** A query with a blocked word, a dashed word and doubled spaces. *)
Lemma sanitize_idempotent_witness :
  @sanitize ascii_text "Selfie at  Hawa Mahal -crowd" = "at hawa mahal" ∧
  @sanitize ascii_text (@sanitize ascii_text "Selfie at  Hawa Mahal -crowd")
  = @sanitize ascii_text "Selfie at  Hawa Mahal -crowd".
Proof.
  split; [by vm_compute|].
  apply (@sanitize_idempotent ascii_text "Selfie at  Hawa Mahal -crowd").
  - apply ascii_split_joins.
  - apply ascii_lower_words.
Defined.
